(** * FileHandler: a per-path serialised file-access layer

    Shallow embedding of [fileHandler.js] (class [FileHandler]): the lock
    table [fileLocks], [acquireLock] / [releaseLock], the wrapped
    filesystem operations and the two JSON helpers.

    How the program is modelled:

    - An async method is a state machine. Its states ([pc]) are its
      suspension points, each [await] one of them, with the locals it
      resumes with; one transition is the synchronous code between two
      suspensions, which is how the single-threaded event loop runs it.
      The event loop ([fire], [step]) resumes any suspended call at any
      time, so every interleaving of every finite set of calls is covered.
      The effect of a filesystem call on the disk is taken at the
      transition that ends it.
    - The lock table is a finite map from strings to booleans, touched
      only by the methods of the class.
    - A path argument is a string or a value that is not one ([arg]).
      [path.resolve] is platform code: on strings a variable [resolve],
      assumed idempotent where that matters ([resolve_idem]), with
      [posix_resolve] the POSIX instance, proved idempotent; on anything
      else it throws. The working directory does not change.
    - [node:fs] is platform code: an interface ([NodeFs]) whose instances
      say which calls fail; [MemFs] is a small instance in memory.
    - [JSON.stringify] and [JSON.parse] are platform code, modelled after
      ECMA-262. A Number is a binary64 value, written by
      [Number::toString] as its shortest decimal and read by rounding to
      nearest, ties to even. A string is the UTF-8 encoding of its code
      points, a surrogate that stands alone being encoded like any code
      point of its range; a file is text in UTF-8. An object is the list
      of its own properties in the order of [OrdinaryOwnPropertyKeys].
      Functions, symbols and objects with a [toJSON] method are not
      values of the model.
    - A thrown value is [Error(message)], known by its message.

    Definitions come first, then the lemmas of the lock table and of the
    state machines with the claims they settle, then the claims at
    concrete inputs, then the JSON round trip.

    Beside the class: its constructor and [getInstance] (objects at
    addresses, [FileHandler.instance] a static property), and [Log] of
    [utils.ts] with the two entries of [PATH] it reads. What is proved of
    them, and of the class beyond the claims, follows the claims: calls
    that find a key taken, what failures name, what a transition leaves
    alone, when no deadlock is possible, appends and log lines. *)

From stdpp Require Import gmap strings list fin_maps relations.
From Stdlib Require Import ZArith Lia Ascii.

Set Warnings "-register-all,-clear-no-such-hyp".
Local Open Scope string_scope.
Local Open Scope Z_scope.

(** ** Results of a call: a returned value or a thrown [Error(message)] *)

Inductive outcome (A : Type) : Type :=
| Returned (a : A)
| Thrown (message : string).
Arguments Returned {A} a.
Arguments Thrown {A} message.

(** ** Numbers

    A Number is an IEEE 754 binary64 value: [NaN], an infinity, a zero
    with its sign, or [m * 2 ^ e] with its sign, [m] odd and of 53 bits
    at most, [e] from -1074 on and the whole below [2 ^ 1024]. *)
Inductive number : Type :=
| NaN
| Infinity (negative : bool)
| Zero (negative : bool)
| Finite (negative : bool) (m e : Z).

Definition bits (m : Z) : Z := Z.log2 m + 1.

Definition is_double (x : number) : bool :=
  match x with
  | Finite _ m e =>
      (0 <? m) && Z.odd m && (bits m <=? 53) && (-1074 <=? e) && (bits m + e <=? 1024)
  | _ => true
  end.

Definition is_finite (x : number) : bool :=
  match x with
  | Zero _ | Finite _ _ _ => true
  | _ => false
  end.

Definition negate (x : number) : number :=
  match x with
  | NaN => NaN
  | Infinity negative => Infinity (negb negative)
  | Zero negative => Zero (negb negative)
  | Finite negative m e => Finite (negb negative) m e
  end.

Definition number_eqb (x y : number) : bool :=
  match x, y with
  | NaN, NaN => true
  | Infinity a, Infinity b | Zero a, Zero b => Bool.eqb a b
  | Finite a m e, Finite b m' e' => Bool.eqb a b && (m =? m') && (e =? e')
  | _, _ => false
  end.

(** [num / den] to the nearest integer, a tie to the even one. *)
Definition round_half_even (num den : Z) : Z :=
  let q := num / den in
  let r := num mod den in
  if (den <? 2 * r) || ((2 * r =? den) && Z.odd q) then q + 1 else q.

(** [m * 2 ^ e] with the factors two of [m] moved to the exponent. *)
Fixpoint odd_part (fuel : nat) (m e : Z) : Z * Z :=
  match fuel with
  | O => (m, e)
  | S fuel' => if Z.even m then odd_part fuel' (m / 2) (e + 1) else (m, e)
  end.

(** The Number nearest to [p / q], for positive [p] and [q]: the
    rounding of IEEE 754, to nearest, ties to even. Everything is counted
    in units of [2 ^ -1074], the least positive Number: [f] is [p / q] in
    those units, rounded down, and [shift] the exponent, above -1074, of
    the last of the 53 places that a Number as large as [f] holds. *)
Definition nearest (p q : Z) : number :=
  let f := p * 2 ^ 1074 / q in
  let shift := Z.max 0 (Z.log2 f - 52) in
  let m := round_half_even (p * 2 ^ 1074) (q * 2 ^ shift) in
  if m =? 0 then Zero false
  else
    let '(m', e') := odd_part (Z.to_nat (Z.log2 m)) m (shift - 1074) in
    if 1024 <? bits m' + e' then Infinity false else Finite false m' e'.

(** The Number for the decimal [c * 10 ^ t], [c] not negative. *)
Definition of_decimal (c t : Z) : number :=
  if c =? 0 then Zero false
  else if 0 <=? t then nearest (c * 10 ^ t) 1
  else nearest c (10 ^ (- t)).

(** The Number for an integer. *)
Definition integer (n : Z) : number :=
  if n <? 0 then negate (of_decimal (- n) 0) else of_decimal n 0.

Coercion integer : Z >-> number.

(** ** JavaScript values, as far as [JSON] sees them

    A string holds the UTF-8 encoding of its code points. An array is the
    list of its elements; an object is the list of its own enumerable
    properties, keys with values, in the order in which it enumerates
    them. *)

Inductive value : Type :=
| VUndefined
| VNull
| VBool (b : bool)
| VNumber (x : number)
| VBigInt (n : Z)
| VString (s : string)
| VArray (elements : list value)
| VObject (properties : list (string * value)).

(** Characters that cannot be written inside a literal. *)
Definition dquote : ascii := "034"%char.
Definition backslash : ascii := "092"%char.
Definition LF : ascii := "010"%char.
Definition CR : ascii := "013"%char.
Definition TAB : ascii := "009"%char.
Definition BS : ascii := "008"%char.
Definition FF : ascii := "012"%char.

Definition str1 (c : ascii) : string := String c "".

Fixpoint join (sep : string) (parts : list string) : string :=
  match parts with
  | [] => ""
  | [p] => p
  | p :: rest => p +:+ sep +:+ join sep rest
  end.

(** *** Number::toString *)

Definition digit_char (d : Z) : ascii := ascii_of_nat (48 + Z.to_nat d).

Fixpoint digits (fuel : nat) (n : Z) : string :=
  match fuel with
  | O => ""
  | S fuel' =>
      if n <? 10 then str1 (digit_char n)
      else digits fuel' (n / 10) +:+ str1 (digit_char (n mod 10))
  end.

(** The decimal numeral of an integer that is not negative. *)
Definition decimal (n : Z) : string := digits (S (Z.to_nat (Z.log2 n))) n.

Definition length10 (n : Z) : Z := Z.of_nat (String.length (decimal n)).

Fixpoint zeros (n : nat) : string :=
  match n with O => "" | S n' => String "0" (zeros n') end.

Fixpoint take (n : nat) (s : string) : string :=
  match n, s with
  | S n', String c s' => String c (take n' s')
  | _, _ => ""
  end.

Fixpoint drop (n : nat) (s : string) : string :=
  match n, s with
  | S n', String _ s' => drop n' s'
  | _, _ => s
  end.

(** [s * 10 ^ t] with the factors ten of [s] moved to the exponent. *)
Fixpoint strip_zeros (fuel : nat) (s t : Z) : Z * Z :=
  match fuel with
  | O => (s, t)
  | S fuel' => if s mod 10 =? 0 then strip_zeros fuel' (s / 10) (t + 1) else (s, t)
  end.

(** The decimal order of magnitude of [p / q]: the [n] with
    [10 ^ (n - 1) <= p / q < 10 ^ n]. *)
Definition magnitude (p q : Z) : Z :=
  if q <=? p then length10 (p / q)
  else 1 - length10 ((q + p - 1) / p - 1).

(** [s * 10 ^ t] when it is read back as [x], in lowest terms. *)
Definition accept (x : number) (s t : Z) : option (Z * Z) :=
  let '(s', t') := strip_zeros (Z.to_nat (Z.log2 s)) s t in
  if number_eqb (of_decimal s' t') x then Some (s', t') else None.

(** The decimals of [k] digits that are read back as [x = p / q]: of the
    two next to [x], the nearer one, and of two equally near the even
    one. *)
Definition shortest_at (x : number) (p q n k : Z) : option (Z * Z) :=
  let t := n - k in
  let num := if t <=? 0 then p * 10 ^ (- t) else p in
  let den := if t <=? 0 then q else q * 10 ^ t in
  let low := num / den in
  let r := num mod den in
  match accept x low t, accept x (low + 1) t with
  | Some a, Some b =>
      Some (if (2 * r <? den) || ((2 * r =? den) && Z.even low) then a else b)
  | Some a, None => Some a
  | None, Some b => Some b
  | None, None => None
  end.

Fixpoint shortest_from (fuel : nat) (x : number) (p q n k : Z) : option (Z * Z) :=
  match fuel with
  | O => None
  | S fuel' =>
      match shortest_at x p q n k with
      | Some d => Some d
      | None => shortest_from fuel' x p q n (k + 1)
      end
  end.

(** The digits [s] and the exponent [t] that Number::toString writes
    [m * 2 ^ e] with: [s * 10 ^ t] is read back as that Number, and no
    decimal of fewer digits is. The search ends with the digits of the
    exact value at the latest. *)
Definition shortest (m e : Z) : Z * Z :=
  let p := if 0 <=? e then m * 2 ^ e else m in
  let q := if 0 <=? e then 1 else 2 ^ (- e) in
  let n := magnitude p q in
  let last := Z.max 1 (n + Z.max 0 (- e)) in
  default (0, 0) (shortest_from (Z.to_nat last) (Finite false m e) p q n 1).

(** The text for the digits [s] and the exponent [t]: steps 7 to 11 of
    Number::toString, with [k] the number of digits and [n = t + k]. *)
Definition notation (s t : Z) : string :=
  let ds := decimal s in
  let k := Z.of_nat (String.length ds) in
  let n := t + k in
  if (k <=? n) && (n <=? 21) then ds +:+ zeros (Z.to_nat (n - k))
  else if (0 <? n) && (n <=? 21) then
    take (Z.to_nat n) ds +:+ String "." (drop (Z.to_nat n) ds)
  else if (-6 <? n) && (n <=? 0) then
    String "0" (String "." (zeros (Z.to_nat (- n)) +:+ ds))
  else
    let exponent :=
      String "e" (String (if 0 <=? n - 1 then "+"%char else "-"%char)
                    (decimal (Z.abs (n - 1)))) in
    match ds with
    | String d EmptyString => String d exponent
    | String d more => String d (String "." (more +:+ exponent))
    | EmptyString => exponent
    end.

Definition Number_toString (x : number) : string :=
  match x with
  | NaN => "NaN"
  | Infinity negative => if negative then "-Infinity" else "Infinity"
  | Zero _ => "0"
  | Finite negative m e =>
      let '(s, t) := shortest m e in
      if negative then String "-" (notation s t) else notation s t
  end.

(** *** QuoteJSONString *)

Definition hex_char (d : nat) : ascii :=
  if (d <? 10)%nat then ascii_of_nat (48 + d) else ascii_of_nat (87 + d).

Definition escape_char (c : ascii) : string :=
  if (c =? dquote)%char then String backslash (str1 dquote)
  else if (c =? backslash)%char then String backslash (str1 backslash)
  else if (c =? BS)%char then String backslash "b"
  else if (c =? FF)%char then String backslash "f"
  else if (c =? LF)%char then String backslash "n"
  else if (c =? CR)%char then String backslash "r"
  else if (c =? TAB)%char then String backslash "t"
  else if (nat_of_ascii c <? 32)%nat then
    String backslash
      (String "u" (String "0" (String "0"
        (String (hex_char (nat_of_ascii c / 16))
          (str1 (hex_char (nat_of_ascii c mod 16)))))))
  else str1 c.

(** The code unit that the three bytes [c b1 b2] encode, when it is a
    surrogate. A surrogate encoded by itself is one that stands alone, a
    pair being encoded as the one code point it stands for. *)
Definition surrogate (c b1 b2 : ascii) : option Z :=
  let x := Z.of_nat (nat_of_ascii b1) in
  let y := Z.of_nat (nat_of_ascii b2) in
  if (nat_of_ascii c =? 237)%nat && (160 <=? x) && (x <=? 191)
     && (128 <=? y) && (y <=? 191)
  then Some (53248 + (x - 128) * 64 + (y - 128))
  else None.

Definition hex_digit (d : Z) : ascii := hex_char (Z.to_nat d).

(** [UnicodeEscape]: [\u] and four lowercase hexadecimal digits. *)
Definition UnicodeEscape (n : Z) : string :=
  String backslash
    (String "u" (String (hex_digit (n / 4096))
      (String (hex_digit (n / 256 mod 16))
        (String (hex_digit (n / 16 mod 16)) (str1 (hex_digit (n mod 16))))))).

(** A surrogate that stands alone is escaped; every other code point is
    written as [escape_char] writes its bytes. *)
Fixpoint escape_chars (s : string) : string :=
  match s with
  | EmptyString => ""
  | String c s' =>
      let plain := escape_char c +:+ escape_chars s' in
      match s' with
      | String b1 (String b2 s'') =>
          match surrogate c b1 b2 with
          | Some n => UnicodeEscape n +:+ escape_chars s''
          | None => plain
          end
      | _ => plain
      end
  end.

Definition QuoteJSONString (s : string) : string :=
  String dquote (escape_chars s +:+ str1 dquote).

(** *** SerializeJSONProperty / SerializeJSONObject / SerializeJSONArray *)

Definition is_empty (s : string) : bool :=
  match s with EmptyString => true | _ => false end.

(** The last step of SerializeJSONObject and SerializeJSONArray. *)
Definition bracket (opening closing : string) (gap stepback indent : string)
    (partial : list string) : string :=
  match partial with
  | [] => opening +:+ closing
  | _ =>
      if is_empty gap then opening +:+ join "," partial +:+ closing
      else
        let separator := String "," (String LF indent) in
        opening +:+ String LF indent +:+ join separator partial
          +:+ String LF stepback +:+ closing
  end.

Definition member (gap : string) (key strP : string) : string :=
  QuoteJSONString key +:+ ":" +:+ (if is_empty gap then "" else " ") +:+ strP.

Fixpoint SerializeJSONProperty (gap indent : string) (v : value)
    {struct v} : outcome (option string) :=
  match v with
  | VUndefined => Returned None
  | VNull => Returned (Some "null")
  | VBool true => Returned (Some "true")
  | VBool false => Returned (Some "false")
  | VNumber x => Returned (Some (if is_finite x then Number_toString x else "null"))
  | VBigInt _ => Thrown "Do not know how to serialize a BigInt"
  | VString s => Returned (Some (QuoteJSONString s))
  | VArray elements =>
      let stepback := indent in
      let indent := stepback +:+ gap in
      let items :=
        fix items (l : list value) : outcome (list string) :=
          match l with
          | [] => Returned []
          | e :: l' =>
              match SerializeJSONProperty gap indent e with
              | Thrown m => Thrown m
              | Returned strP =>
                  match items l' with
                  | Thrown m => Thrown m
                  | Returned partial => Returned (default "null" strP :: partial)
                  end
              end
          end in
      match items elements with
      | Thrown m => Thrown m
      | Returned partial =>
          Returned (Some (bracket "[" "]" gap stepback indent partial))
      end
  | VObject properties =>
      let stepback := indent in
      let indent := stepback +:+ gap in
      let members :=
        fix members (l : list (string * value)) : outcome (list string) :=
          match l with
          | [] => Returned []
          | (key, e) :: l' =>
              match SerializeJSONProperty gap indent e with
              | Thrown m => Thrown m
              | Returned strP =>
                  match members l' with
                  | Thrown m => Thrown m
                  | Returned partial =>
                      Returned
                        match strP with
                        | None => partial
                        | Some str => member gap key str :: partial
                        end
                  end
              end
          end in
      match members properties with
      | Thrown m => Thrown m
      | Returned partial =>
          Returned (Some (bracket "{" "}" gap stepback indent partial))
      end
  end.

Fixpoint spaces (n : nat) : string :=
  match n with O => "" | S n' => String " " (spaces n') end.

(** [JSON.stringify(obj, null, space)] for a numeric [space]: the gap is
    [min(10, space)] blanks, none when [space < 1]. *)
Definition JSON_stringify (obj : value) (space : Z) : outcome (option string) :=
  SerializeJSONProperty (spaces (Z.to_nat (Z.min 10 space))) "" obj.

(** *** JSON.parse *)

Definition is_ws (c : ascii) : bool :=
  (c =? " ")%char || (c =? TAB)%char || (c =? LF)%char || (c =? CR)%char.

Fixpoint skip_ws (s : string) : string :=
  match s with
  | String c s' => if is_ws c then skip_ws s' else s
  | EmptyString => ""
  end.

Definition is_digit (c : ascii) : bool :=
  (48 <=? nat_of_ascii c)%nat && (nat_of_ascii c <=? 57)%nat.

Definition digit_value (c : ascii) : Z := Z.of_nat (nat_of_ascii c - 48).

(** The longest prefix of digits, read on from the numeral [acc], and
    counted. *)
Fixpoint read_digits (acc count : Z) (s : string) : Z * Z * string :=
  match s with
  | String c s' =>
      if is_digit c then read_digits (10 * acc + digit_value c) (count + 1) s'
      else (acc, count, s)
  | EmptyString => (acc, count, "")
  end.

Definition starts_with (p : ascii -> bool) (s : string) : bool :=
  match s with String c _ => p c | EmptyString => false end.

Definition is_fraction_or_exponent (c : ascii) : bool :=
  (c =? ".")%char || (c =? "e")%char || (c =? "E")%char.

(** The fraction of a number token, if there is one: a point and one
    digit at least. The digits go on from those of the integer part. *)
Definition parse_fraction (int : Z) (s : string) : option (Z * Z * string) :=
  match s with
  | String c s' =>
      if (c =? ".")%char then
        if starts_with is_digit s' then Some (read_digits int 0 s') else None
      else Some (int, 0, s)
  | EmptyString => Some (int, 0, s)
  end.

(** The exponent of a number token, if there is one: [e] or [E], a sign
    or none, and one digit at least. *)
Definition parse_exponent (s : string) : option (Z * string) :=
  match s with
  | String c s' =>
      if (c =? "e")%char || (c =? "E")%char then
        let '(negative, s'') :=
          match s' with
          | String sign r =>
              if (sign =? "-")%char then (true, r)
              else if (sign =? "+")%char then (false, r)
              else (false, s')
          | EmptyString => (false, s')
          end in
        if starts_with is_digit s'' then
          let '(n, _, rest) := read_digits 0 0 s'' in
          Some (if negative then - n else n, rest)
        else None
      else Some (0, s)
  | EmptyString => Some (0, s)
  end.

(** A number token without its sign, as the decimal [c * 10 ^ t] it
    denotes. A leading zero stands alone. *)
Definition parse_unsigned (s : string) : option (Z * Z * string) :=
  match s with
  | String c s' =>
      if negb (is_digit c) then None
      else
        let '(int, _, rest) :=
          if (c =? "0")%char then (0, 0, s') else read_digits (digit_value c) 0 s' in
        if starts_with is_digit rest then None
        else
          match parse_fraction int rest with
          | Some (coefficient, places, rest') =>
              match parse_exponent rest' with
              | Some (exponent, rest'') => Some (coefficient, exponent - places, rest'')
              | None => None
              end
          | None => None
          end
  | EmptyString => None
  end.

Definition parse_number (s : string) : option (number * string) :=
  match s with
  | String c s' =>
      if (c =? "-")%char then
        match parse_unsigned s' with
        | Some (c, t, rest) => Some (negate (of_decimal c t), rest)
        | None => None
        end
      else
        match parse_unsigned s with
        | Some (c, t, rest) => Some (of_decimal c t, rest)
        | None => None
        end
  | EmptyString => None
  end.

Definition hex_value (c : ascii) : option nat :=
  let n := nat_of_ascii c in
  if (48 <=? n)%nat && (n <=? 57)%nat then Some (n - 48)%nat
  else if (97 <=? n)%nat && (n <=? 102)%nat then Some (n - 87)%nat
  else if (65 <=? n)%nat && (n <=? 70)%nat then Some (n - 55)%nat
  else None.

(** The character an escape letter stands for. *)
Definition unescape (e : ascii) : option ascii :=
  if (e =? dquote)%char then Some dquote
  else if (e =? backslash)%char then Some backslash
  else if (e =? "/")%char then Some "/"%char
  else if (e =? "b")%char then Some BS
  else if (e =? "f")%char then Some FF
  else if (e =? "n")%char then Some LF
  else if (e =? "r")%char then Some CR
  else if (e =? "t")%char then Some TAB
  else None.

(** The code unit of a [\u] escape. *)
Definition code_unit (h1 h2 h3 h4 : ascii) : option Z :=
  match hex_value h1, hex_value h2, hex_value h3, hex_value h4 with
  | Some a, Some b, Some c, Some d =>
      Some (((Z.of_nat a * 16 + Z.of_nat b) * 16 + Z.of_nat c) * 16 + Z.of_nat d)
  | _, _, _, _ => None
  end.

Definition byte (n : Z) : ascii := ascii_of_nat (Z.to_nat n).

(** The bytes of a code point in UTF-8. A surrogate that stands alone
    is encoded like any code point of its range. *)
Definition utf8 (n : Z) : string :=
  if n <? 128 then str1 (byte n)
  else if n <? 2048 then String (byte (192 + n / 64)) (str1 (byte (128 + n mod 64)))
  else if n <? 65536 then
    String (byte (224 + n / 4096))
      (String (byte (128 + n / 64 mod 64)) (str1 (byte (128 + n mod 64))))
  else
    String (byte (240 + n / 262144))
      (String (byte (128 + n / 4096 mod 64))
         (String (byte (128 + n / 64 mod 64)) (str1 (byte (128 + n mod 64))))).

Definition is_high_surrogate (n : Z) : bool := (55296 <=? n) && (n <? 56320).
Definition is_low_surrogate (n : Z) : bool := (56320 <=? n) && (n <? 57344).

(** The code point of a surrogate pair. *)
Definition paired (high low : Z) : Z := 65536 + (high - 55296) * 1024 + (low - 56320).

(** Whether the string starts with a low surrogate encoded by itself. *)
Definition starts_low (s : string) : bool :=
  match s with
  | String c (String b1 (String b2 _)) =>
      match surrogate c b1 b2 with
      | Some n => is_low_surrogate n
      | None => false
      end
  | _ => false
  end.

(** No high surrogate encoded by itself is followed by a low one encoded
    by itself: the two are a pair, which is encoded as one code point.
    Every sequence of code units has one encoding of this form. *)
Fixpoint well_formed (s : string) : bool :=
  match s with
  | EmptyString => true
  | String c s' =>
      match s' with
      | String b1 (String b2 s'') =>
          match surrogate c b1 b2 with
          | Some n => negb (is_high_surrogate n && starts_low s'')
          | None => true
          end
      | _ => true
      end && well_formed s'
  end.

(** Whether the text starts with the escape of a low surrogate. *)
Definition escaped_low (r : string) : bool :=
  match r with
  | String b r' =>
      (b =? backslash)%char &&
      match r' with
      | String u r'' =>
          (u =? "u")%char &&
          match r'' with
          | String g1 (String g2 (String g3 (String g4 _))) =>
              match code_unit g1 g2 g3 g4 with
              | Some low => is_low_surrogate low
              | None => false
              end
          | _ => false
          end
      | _ => false
      end
  | _ => false
  end.

(** The characters of a string token, from after its opening quote up to
    and including its closing quote. A [\u] escape stands for a code unit;
    a high surrogate and the low surrogate that follows it, both escaped,
    stand for one code point. *)
Fixpoint parse_chars (s : string) : option (string * string) :=
  match s with
  | EmptyString => None
  | String c r =>
      if (c =? dquote)%char then Some ("", r)
      else if (c =? backslash)%char then
        match r with
        | String e r1 =>
            match unescape e with
            | Some ch =>
                match parse_chars r1 with
                | Some (str, rest) => Some (String ch str, rest)
                | None => None
                end
            | None =>
                if (e =? "u")%char then
                  match r1 with
                  | String h1 (String h2 (String h3 (String h4 r2))) =>
                      match code_unit h1 h2 h3 h4 with
                      | Some n =>
                          let single :=
                            match parse_chars r2 with
                            | Some (str, rest) => Some (utf8 n +:+ str, rest)
                            | None => None
                            end in
                          if is_high_surrogate n then
                            match r2 with
                            | String b (String u (String g1 (String g2
                                (String g3 (String g4 r3))))) =>
                                if (b =? backslash)%char && (u =? "u")%char then
                                  match code_unit g1 g2 g3 g4 with
                                  | Some low =>
                                      if is_low_surrogate low then
                                        match parse_chars r3 with
                                        | Some (str, rest) =>
                                            Some (utf8 (paired n low) +:+ str, rest)
                                        | None => None
                                        end
                                      else single
                                  | None => single
                                  end
                                else single
                            | _ => single
                            end
                          else single
                      | None => None
                      end
                  | _ => None
                  end
                else None
            end
        | EmptyString => None
        end
      else if (nat_of_ascii c <? 32)%nat then None
      else
        match parse_chars r with
        | Some (str, rest) => Some (String c str, rest)
        | None => None
        end
  end.

(** [word], read off the front of [s]. *)
Fixpoint literal (word : string) (v : value) (s : string) : option (value * string) :=
  match word with
  | EmptyString => Some (v, s)
  | String a word' =>
      match s with
      | String b s' => if (a =? b)%char then literal word' v s' else None
      | EmptyString => None
      end
  end.

(** CreateDataProperty on an object under construction: a repeated key
    keeps its place and takes the later value. *)
Fixpoint define_property (key : string) (v : value) (props : list (string * value))
    : list (string * value) :=
  match props with
  | [] => [(key, v)]
  | (k, old) :: rest =>
      if String.eqb k key then (k, v) :: rest
      else (k, old) :: define_property key v rest
  end.

(** The array index a property key is, when it is one: the canonical
    numeral of an integer from 0 to 2^32 - 2. *)
Definition array_index (key : string) : option Z :=
  match key with
  | EmptyString => None
  | String c rest =>
      match read_digits 0 0 key with
      | (n, _, EmptyString) =>
          if (is_empty rest || negb (c =? "0")%char) && (n <=? 4294967294)
          then Some n else None
      | _ => None
      end
  end.

Definition is_index (kv : string * value) : bool :=
  match array_index kv.1 with Some _ => true | None => false end.

(** The property of index [i] put in its place among properties that are
    in the order of [OrdinaryOwnPropertyKeys]. *)
Fixpoint place (i : Z) (kv : string * value) (props : list (string * value))
    : list (string * value) :=
  match props with
  | [] => [kv]
  | kv' :: rest =>
      match array_index kv'.1 with
      | Some j => if i <? j then kv :: props else kv' :: place i kv rest
      | None => kv :: props
      end
  end.

(** [OrdinaryOwnPropertyKeys]: the properties whose keys are array
    indices, in ascending order of index, then the others in the order of
    their creation. *)
Definition own_properties (created : list (string * value)) : list (string * value) :=
  fold_right
    (fun kv props =>
       match array_index kv.1 with
       | Some i => place i kv props
       | None => props
       end)
    (List.filter (fun kv => negb (is_index kv)) created) created.

(** The keys are in the order in which an object enumerates them:
    array indices above [above] first, ascending, then keys that are not
    array indices. *)
Fixpoint enumerated (above : Z) (keys : list string) : bool :=
  match keys with
  | [] => true
  | key :: keys' =>
      match array_index key with
      | Some i => (above <? i) && enumerated i keys'
      | None =>
          forallb (fun k => match array_index k with Some _ => false | None => true end)
                  keys'
      end
  end.

Definition build_object (members : list (string * value)) : value :=
  VObject
    (own_properties
       (fold_left (fun props kv => define_property kv.1 kv.2 props) members [])).

Fixpoint parse_value (fuel : nat) (s : string) {struct fuel} : option (value * string) :=
  match fuel with
  | O => None
  | S fuel' =>
      match skip_ws s with
      | EmptyString => None
      | String c r =>
          if (c =? "{")%char then
            match skip_ws r with
            | String c' r' =>
                if (c' =? "}")%char then Some (VObject [], r')
                else
                  match parse_members fuel' r with
                  | Some (ms, rest) => Some (build_object ms, rest)
                  | None => None
                  end
            | EmptyString => None
            end
          else if (c =? "[")%char then
            match skip_ws r with
            | String c' r' =>
                if (c' =? "]")%char then Some (VArray [], r')
                else
                  match parse_elements fuel' r with
                  | Some (vs, rest) => Some (VArray vs, rest)
                  | None => None
                  end
            | EmptyString => None
            end
          else if (c =? dquote)%char then
            match parse_chars r with
            | Some (str, rest) => Some (VString str, rest)
            | None => None
            end
          else if (c =? "t")%char then literal "true" (VBool true) (String c r)
          else if (c =? "f")%char then literal "false" (VBool false) (String c r)
          else if (c =? "n")%char then literal "null" VNull (String c r)
          else
            match parse_number (String c r) with
            | Some (x, rest) => Some (VNumber x, rest)
            | None => None
            end
      end
  end
with parse_elements (fuel : nat) (s : string) {struct fuel} : option (list value * string) :=
  match fuel with
  | O => None
  | S fuel' =>
      match parse_value fuel' s with
      | Some (v, r) =>
          match skip_ws r with
          | String c r' =>
              if (c =? ",")%char then
                match parse_elements fuel' r' with
                | Some (vs, rest) => Some (v :: vs, rest)
                | None => None
                end
              else if (c =? "]")%char then Some ([v], r')
              else None
          | EmptyString => None
          end
      | None => None
      end
  end
with parse_members (fuel : nat) (s : string) {struct fuel}
    : option (list (string * value) * string) :=
  match fuel with
  | O => None
  | S fuel' =>
      match skip_ws s with
      | String q r =>
          if (q =? dquote)%char then
            match parse_chars r with
            | Some (key, r1) =>
                match skip_ws r1 with
                | String colon r2 =>
                    if (colon =? ":")%char then
                      match parse_value fuel' r2 with
                      | Some (v, r3) =>
                          match skip_ws r3 with
                          | String c r' =>
                              if (c =? ",")%char then
                                match parse_members fuel' r' with
                                | Some (ms, rest) => Some ((key, v) :: ms, rest)
                                | None => None
                                end
                              else if (c =? "}")%char then Some ([(key, v)], r')
                              else None
                          | EmptyString => None
                          end
                      | None => None
                      end
                    else None
                | EmptyString => None
                end
            | None => None
            end
          else None
      | EmptyString => None
      end
  end.

(** [JSON.parse(text)]: one value, then nothing but white space. The
    message of the [SyntaxError] is one text for every ill-formed input,
    where an engine's names the token and its position; the class only
    appends it to a phrase of its own. *)
Definition JSON_parse (text : string) : outcome value :=
  match parse_value (S (String.length text)) text with
  | Some (v, rest) =>
      if is_empty (skip_ws rest) then Returned v
      else Thrown "Unexpected non-whitespace character after JSON"
  | None => Thrown "Unexpected token in JSON"
  end.

(** *** Notions the round trip is stated with *)

(** [rest] cannot continue a number token. *)
Definition number_end (rest : string) : bool :=
  negb (starts_with is_digit rest || starts_with is_fraction_or_exponent rest).

(** Induction on values, through the elements of arrays and the
    properties of objects. *)
Fixpoint value_nested_ind (P : value -> Prop)
    (Hundefined : P VUndefined) (Hnull : P VNull) (Hbool : forall b, P (VBool b))
    (Hnumber : forall n, P (VNumber n)) (Hbigint : forall n, P (VBigInt n))
    (Hstring : forall s, P (VString s))
    (Harray : forall es, Forall P es -> P (VArray es))
    (Hobject : forall ps, Forall (fun kv => P kv.2) ps -> P (VObject ps))
    (v : value) {struct v} : P v :=
  let rec := value_nested_ind P Hundefined Hnull Hbool Hnumber Hbigint Hstring
               Harray Hobject in
  match v with
  | VUndefined => Hundefined
  | VNull => Hnull
  | VBool b => Hbool b
  | VNumber n => Hnumber n
  | VBigInt n => Hbigint n
  | VString s => Hstring s
  | VArray es =>
      Harray es
        ((fix all (l : list value) : Forall P l :=
            match l with
            | [] => List.Forall_nil P
            | e :: l' => @List.Forall_cons _ P e l' (rec e) (all l')
            end) es)
  | VObject ps =>
      Hobject ps
        ((fix all (l : list (string * value)) : Forall (fun kv => P kv.2) l :=
            match l with
            | [] => List.Forall_nil _
            | kv :: l' => @List.Forall_cons _ (fun kv => P kv.2) kv l' (rec kv.2) (all l')
            end) ps)
  end.

(** A value of the JSON data model: [null], a boolean, a finite Number,
    a string, an array or an object of such values. No [undefined], no
    BigInt, no [NaN] and no infinity, for which JSON has no text. A string
    is the encoding of a sequence of code units; the properties of an
    object are listed as the object has them, no key twice and in the
    order of [OrdinaryOwnPropertyKeys]. *)
Fixpoint serializable (v : value) : bool :=
  match v with
  | VUndefined | VBigInt _ => false
  | VNumber x => is_double x && is_finite x
  | VNull | VBool _ => true
  | VString s => well_formed s
  | VArray es => forallb serializable es
  | VObject ps =>
      forallb (fun kv => well_formed kv.1 && serializable kv.2) ps
      && bool_decide (NoDup ps.*1) && enumerated (-1) ps.*1
  end.

(** What JSON gives back for a serializable value: the value, but for the
    sign of its zeros. [JSON.stringify] writes [-0] as [0]. *)
Fixpoint given_back (v : value) : value :=
  match v with
  | VNumber (Zero _) => VNumber (Zero false)
  | VArray es => VArray (map given_back es)
  | VObject ps => VObject (map (fun kv => (kv.1, given_back kv.2)) ps)
  | _ => v
  end.

Fixpoint no_negative_zero (v : value) : bool :=
  match v with
  | VNumber (Zero negative) => negb negative
  | VArray es => forallb no_negative_zero es
  | VObject ps => forallb (fun kv => no_negative_zero kv.2) ps
  | _ => true
  end.

(** [===] on Numbers: [NaN] equals nothing, and the zeros equal each
    other. *)
Definition strictly_equal (x y : number) : bool :=
  match x, y with
  | Zero _, Zero _ => true
  | NaN, _ | _, NaN => false
  | _, _ => number_eqb x y
  end.

(** Deep equality: [===] on primitives, element by element on arrays,
    property by property on objects. *)
Fixpoint deep_equal (v w : value) : bool :=
  match v, w with
  | VUndefined, VUndefined | VNull, VNull => true
  | VBool a, VBool b => Bool.eqb a b
  | VNumber x, VNumber y => strictly_equal x y
  | VBigInt a, VBigInt b => a =? b
  | VString a, VString b => String.eqb a b
  | VArray es, VArray fs =>
      (fix all (l l' : list value) : bool :=
         match l, l' with
         | [], [] => true
         | e :: l, f :: l' => deep_equal e f && all l l'
         | _, _ => false
         end) es fs
  | VObject ps, VObject qs =>
      (fix all (l l' : list (string * value)) : bool :=
         match l, l' with
         | [], [] => true
         | (key, e) :: l, (key', f) :: l' =>
             String.eqb key key' && deep_equal e f && all l l'
         | _, _ => false
         end) ps qs
  | _, _ => false
  end.

(** A string of digits, and the numeral it continues [acc] to. *)
Fixpoint all_digits (s : string) : bool :=
  match s with
  | EmptyString => true
  | String c s' => is_digit c && all_digits s'
  end.

Fixpoint numeral (acc : Z) (s : string) : Z :=
  match s with
  | EmptyString => acc
  | String c s' => numeral (10 * acc + digit_value c) s'
  end.

(** Fuel enough for [parse_value] to read a value back. *)
Fixpoint weight (v : value) : nat :=
  match v with
  | VArray es => S (fold_right (fun e n => S (weight e + n)) O es)
  | VObject ps => S (fold_right (fun kv n => S (weight kv.2 + n)) O ps)
  | _ => 1
  end.

(** Nothing but white space. *)
Fixpoint blank (s : string) : bool :=
  match s with
  | EmptyString => true
  | String c s' => is_ws c && blank s'
  end.

(** The line break before an item: none without a gap. *)
Definition newline (gap indent : string) : string :=
  if is_empty gap then "" else String LF indent.

(** The local functions of [SerializeJSONProperty], by name. *)
Definition items (gap indent : string) : list value -> outcome (list string) :=
  fix items (l : list value) : outcome (list string) :=
    match l with
    | [] => Returned []
    | e :: l' =>
        match SerializeJSONProperty gap indent e with
        | Thrown m => Thrown m
        | Returned strP =>
            match items l' with
            | Thrown m => Thrown m
            | Returned partial => Returned (default "null" strP :: partial)
            end
        end
    end.

Definition members (gap indent : string)
    : list (string * value) -> outcome (list string) :=
  fix members (l : list (string * value)) : outcome (list string) :=
    match l with
    | [] => Returned []
    | (key, e) :: l' =>
        match SerializeJSONProperty gap indent e with
        | Thrown m => Thrown m
        | Returned strP =>
            match members l' with
            | Thrown m => Thrown m
            | Returned partial =>
                Returned
                  match strP with
                  | None => partial
                  | Some str => member gap key str :: partial
                  end
            end
        end
    end.

(** [text] is read back as what JSON gives back for [v], whatever follows
    it that cannot continue a number, with any fuel from the weight of [v]
    on; it is at least as long as that weight, and opens with a character
    that starts a value. *)
Definition reads_back (v : value) (text : string) : Prop :=
  (weight v <= String.length text)%nat
  /\ (exists c t, text = String c t /\ is_ws c = false /\ (c =? "]")%char = false)
  /\ forall fuel rest,
       (weight v <= fuel)%nat -> number_end rest = true ->
       parse_value fuel (text +:+ rest) = Some (given_back v, rest).

Definition round_trips (v : value) : Prop :=
  forall gap indent,
    blank gap = true -> blank indent = true -> serializable v = true ->
    exists text,
      SerializeJSONProperty gap indent v = Returned (Some text) /\ reads_back v text.

Definition member_reads_back (gap : string) (kv : string * value) (m : string) : Prop :=
  exists text,
    m = member gap kv.1 text /\ well_formed kv.1 = true /\ reads_back kv.2 text.

(** ** The [node:fs] promises API, as far as the class calls it

    A primitive takes the disk it finds and gives back its outcome and the
    disk it leaves. Which calls fail, and with what message, is left to
    the instance. *)

Class NodeFs (Disk : Type) : Type := {
  Stats : Type;
  fs_readFile : string -> string -> Disk -> outcome string * Disk;
  fs_writeFile : string -> string -> string -> Disk -> outcome unit * Disk;
  fs_appendFile : string -> string -> string -> Disk -> outcome unit * Disk;
  fs_access : string -> Disk -> outcome unit * Disk;
  fs_mkdir : string -> Disk -> outcome unit * Disk;
  fs_stat : string -> Disk -> outcome Stats * Disk;
  fs_copyFile : string -> string -> Disk -> outcome unit * Disk;
  fs_unlink : string -> Disk -> outcome unit * Disk
}.

(** What a reader is owed by the disk: a file that was written is read
    back as written, under the same path and encoding. *)
Class ReadsBackWrites (Disk : Type) `{!NodeFs Disk} : Prop :=
  reads_back_writes :
    forall path data options d d',
      fs_writeFile path data options d = (Returned tt, d') ->
      exists d'', fs_readFile path options d' = (Returned data, d'').

(** What an appender is owed by the disk: appended data comes after what
    the file read as before, under the same path and encoding. *)
Class AppendsAtEnd (Disk : Type) `{!NodeFs Disk} : Prop :=
  appends_at_end :
    forall path old data options d d0 d',
      fs_readFile path options d = (Returned old, d0) ->
      fs_appendFile path data options d = (Returned tt, d') ->
      exists d'', fs_readFile path options d' = (Returned (old +:+ data), d'').

(** What a reader is owed by [fs.mkdir]: creating a directory leaves the
    files that could be read as they were. *)
Class MkdirKeepsFiles (Disk : Type) `{!NodeFs Disk} : Prop :=
  mkdir_keeps_files :
    forall dir path options content d d0 d',
      fs_readFile path options d = (Returned content, d0) ->
      fs_mkdir dir d = (Returned tt, d') ->
      exists d'', fs_readFile path options d' = (Returned content, d'').

(** *** A disk in memory

    An instance to run the class on: a flat table from path to file or
    directory. Parent directories and permissions are left out. *)

Inductive node : Type :=
| File (content : string)
| Directory.

Record mem_stats : Type := MemStats {
  size : nat;
  isFile : bool
}.

Definition ENOENT (syscall path : string) : string :=
  "ENOENT: no such file or directory, " +:+ syscall +:+ " '" +:+ path +:+ "'".

Definition EISDIR (syscall : string) : string :=
  "EISDIR: illegal operation on a directory, " +:+ syscall.

Definition mem_read (path : string) (d : gmap string node) : outcome string :=
  match d !! path with
  | Some (File content) => Returned content
  | Some Directory => Thrown (EISDIR "read")
  | None => Thrown (ENOENT "open" path)
  end.

Definition mem_write (path data : string) (d : gmap string node)
    : outcome unit * gmap string node :=
  match d !! path with
  | Some Directory => (Thrown (EISDIR "open" +:+ " '" +:+ path +:+ "'"), d)
  | _ => (Returned tt, <[path := File data]> d)
  end.

Definition mem_append (path data : string) (d : gmap string node)
    : outcome unit * gmap string node :=
  match d !! path with
  | Some Directory => (Thrown (EISDIR "open" +:+ " '" +:+ path +:+ "'"), d)
  | Some (File content) => (Returned tt, <[path := File (content +:+ data)]> d)
  | None => (Returned tt, <[path := File data]> d)
  end.

Definition mem_copy (source destination : string) (d : gmap string node)
    : outcome unit * gmap string node :=
  match mem_read source d with
  | Returned content => mem_write destination content d
  | Thrown message => (Thrown message, d)
  end.

#[global] Instance MemFs : NodeFs (gmap string node) := {|
  Stats := mem_stats;
  fs_readFile path options d := (mem_read path d, d);
  fs_writeFile path data options d := mem_write path data d;
  fs_appendFile path data options d := mem_append path data d;
  fs_access path d :=
    (match d !! path with
     | Some _ => Returned tt
     | None => Thrown (ENOENT "access" path)
     end, d);
  fs_mkdir path d :=
    match d !! path with
    | Some (File _) => (Thrown ("EEXIST: file already exists, mkdir '" +:+ path +:+ "'"), d)
    | _ => (Returned tt, <[path := Directory]> d)
    end;
  fs_stat path d :=
    (match d !! path with
     | Some (File content) => Returned (MemStats (String.length content) true)
     | Some Directory => Returned (MemStats 0 false)
     | None => Thrown (ENOENT "stat" path)
     end, d);
  fs_copyFile source destination d := mem_copy source destination d;
  fs_unlink path d :=
    match d !! path with
    | Some (File _) => (Returned tt, delete path d)
    | Some Directory => (Thrown (EISDIR "unlink" +:+ " '" +:+ path +:+ "'"), d)
    | None => (Thrown (ENOENT "unlink" path), d)
    end
|}.

(** *** [path.resolve] on POSIX

    The path, under the working directory unless it is absolute, cut at
    every slash; empty and [.] segments dropped, [..] dropping the segment
    before it; joined again under the root. [cwd] is what [process.cwd()]
    gives: an absolute path. *)

Fixpoint segments (s : string) : list string :=
  match s with
  | EmptyString => [""]
  | String c s' =>
      if (c =? "/")%char then "" :: segments s'
      else
        match segments s' with
        | seg :: rest => String c seg :: rest
        | [] => [str1 c]
        end
  end.

Fixpoint normalize (segs : list string) (stack : list string) : list string :=
  match segs with
  | [] => rev stack
  | seg :: rest =>
      if String.eqb seg "" || String.eqb seg "." then normalize rest stack
      else if String.eqb seg ".." then normalize rest (tail stack)
      else normalize rest (seg :: stack)
  end.

Definition posix_resolve (cwd : string) (path : string) : string :=
  let full :=
    match path with
    | EmptyString => cwd
    | String c _ => if (c =? "/")%char then path else cwd +:+ "/" +:+ path
    end in
  String "/" (join "/" (normalize (segments full) [])).

Fixpoint slash_free (s : string) : bool :=
  match s with
  | EmptyString => true
  | String c s' => negb (c =? "/")%char && slash_free s'
  end.

(** A segment [normalize] keeps. *)
Definition kept (seg : string) : bool :=
  slash_free seg
  && negb (String.eqb seg "" || String.eqb seg ".") && negb (String.eqb seg "..").

(** The canonical form used in the examples: a process started in
    [/srv/app]. *)
Definition app_resolve : string -> string := posix_resolve "/srv/app".

(** ** [public_env] and [Log]

    The two entries of [PATH] that [Log] reads, and [Log] itself: one call
    awaited to its end. [path.join] is left to the platform. What
    [console.error] is given is kept as the message of the error. *)

Definition RootPath : string := "C://HOME/Programming/manage_chatgpts_memories/backend".
Definition logs_dir_rel : string := "/files/logs".

Definition Log {Disk : Type} `{!NodeFs Disk} (path_join : string -> string -> string)
    (text : string) (st : Disk * list string) : Disk * list string :=
  let '(d, console) := st in
  let logDir := path_join RootPath logs_dir_rel in
  let logPath := path_join logDir "log.log" in
  match fs_mkdir logDir d with
  | (Returned _, d1) =>
      match fs_appendFile logPath (text +:+ str1 LF) "utf8" d1 with
      | (Returned _, d2) => (d2, console)
      | (Thrown err, d2) => (d2, (console ++ [err])%list)
      end
  | (Thrown err, d1) => (d1, (console ++ [err])%list)
  end.

(** [Log] called for each text in turn, each call awaited. *)
Definition Logs {Disk : Type} `{!NodeFs Disk} (path_join : string -> string -> string)
    (texts : list string) (st : Disk * list string) : Disk * list string :=
  fold_left (fun st text => Log path_join text st) texts st.

(** Strings put end to end. *)
Fixpoint glue (parts : list string) : string :=
  match parts with
  | [] => ""
  | part :: rest => part +:+ glue rest
  end.

(** [path.join] of two arguments on POSIX, for a relative result that no
    [..] climbs out of: the arguments joined by a slash, cut at every
    slash, empty and [.] segments dropped, joined again. *)
Definition posix_join (a b : string) : string :=
  join "/" (normalize (segments (a +:+ "/" +:+ b)) []).

(** ** The one instance of the class

    Objects live at addresses, in the order they were made;
    [FileHandler.instance] is a static property, [None] while it is
    [undefined]. The object that [new] makes and the constructor drops at
    line 7 is never seen again, and is left out. *)

Record handler : Type := Handler {
  this_activeOperations : gmap string bool;
  this_fileLocks : gmap string bool
}.

Record realm : Type := Realm {
  FileHandler_instance : option nat;
  heap : list handler
}.

(** [new FileHandler()]. *)
Definition new_FileHandler (r : realm) : nat * realm :=
  match FileHandler_instance r with
  | Some instance => (instance, r)
  | None =>
      let this := length (heap r) in
      (this, Realm (Some this) (heap r ++ [Handler ∅ ∅])%list)
  end.

(** [FileHandler.getInstance()]. *)
Definition getInstance (r : realm) : option nat * realm :=
  match FileHandler_instance r with
  | Some instance => (Some instance, r)
  | None =>
      let '(this, r') := new_FileHandler r in
      let r'' := Realm (Some this) (heap r') in
      (FileHandler_instance r'', r'')
  end.

(** What a program does with the class: it makes a handle either way,
    and it sets or deletes a key of [fileLocks] through one of the handles
    it has made, counted from 0. *)
Inductive use : Type :=
| UseNew
| UseGetInstance
| UseSet (handle : nat) (key : string)
| UseDelete (handle : nat) (key : string).

Definition through (f : gmap string bool -> gmap string bool) (this : nat) (r : realm)
    : realm :=
  Realm (FileHandler_instance r)
    (alter (fun o => Handler (this_activeOperations o) (f (this_fileLocks o))) this (heap r)).

Definition use_step (st : realm * list nat) (u : use) : realm * list nat :=
  let '(r, handles) := st in
  match u with
  | UseNew => let '(this, r') := new_FileHandler r in (r', (handles ++ [this])%list)
  | UseGetInstance =>
      match getInstance r with
      | (Some this, r') => (r', (handles ++ [this])%list)
      | (None, r') => (r', handles)
      end
  | UseSet handle key =>
      match handles !! handle with
      | Some this => (through <[key := true]> this r, handles)
      | None => st
      end
  | UseDelete handle key =>
      match handles !! handle with
      | Some this => (through (delete key) this r, handles)
      | None => st
      end
  end.

(** The same program on one table and a count of the handles made. *)
Definition one_table_step (st : gmap string bool * nat) (u : use)
    : gmap string bool * nat :=
  let '(table, made) := st in
  match u with
  | UseNew | UseGetInstance => (table, S made)
  | UseSet handle key =>
      if decide (handle < made)%nat then (<[key := true]> table, made) else st
  | UseDelete handle key =>
      if decide (handle < made)%nat then (delete key table, made) else st
  end.

(** What the realm looks like after any program: no handle and no object
    yet, or one object at address 0 that every handle is. *)
Definition one_instance (st : realm * list nat) (table : gmap string bool) (made : nat)
    : Prop :=
  length st.2 = made
  /\ (forall this, this ∈ st.2 -> this = 0%nat)
  /\ match st.2 with
     | [] => st.1 = Realm None [] /\ table = ∅
     | _ => exists active, st.1 = Realm (Some 0%nat) [Handler active table]
     end.

(** ** The failure taxonomy

    Every failure of the class is a plain [Error] whose message opens with
    the phrase of the method that threw it. The nine phrases, under the
    names the specification gives the failures: *)

Inductive failure : Type :=
| ReadError | WriteError | AppendError | ParseError | SerializeError
| StatError | CopyError | DeleteError | DirError.

Definition phrase (f : failure) : string :=
  match f with
  | ReadError => "Failed to read file "
  | WriteError => "Failed to write file "
  | AppendError => "Failed to append to file "
  | ParseError => "Failed to parse JSON from "
  | SerializeError => "Failed to write JSON to "
  | StatError => "Failed to get stats for "
  | CopyError => "Failed to copy "
  | DeleteError => "Failed to delete file "
  | DirError => "Failed to create directory "
  end.

Fixpoint opens_with (p message : string) : bool :=
  match p with
  | EmptyString => true
  | String a p' =>
      match message with
      | String b message' => (a =? b)%char && opens_with p' message'
      | EmptyString => false
      end
  end.

(** The failure a message is tagged with: the phrase it opens with. *)
Definition kind_of (message : string) : option failure :=
  List.find (fun f => opens_with (phrase f) message)
    [ReadError; WriteError; AppendError; ParseError; SerializeError;
     StatError; CopyError; DeleteError; DirError].

(** ** Path arguments

    Nothing in the class checks what a caller hands it as a path. A
    string is handed on; any other value ([undefined], a number, an
    object) is refused by [path.resolve] with a [TypeError]. Of such a
    value two things matter here: [text], what a template literal makes of
    it, and [refusal], the message of that [TypeError]. *)
Inductive arg : Type :=
| Str (s : string)
| NotStr (text refusal : string).

Coercion Str : string >-> arg.

(** [`${filePath}`]. *)
Definition shown (a : arg) : string :=
  match a with
  | Str s => s
  | NotStr text _ => text
  end.

Definition is_string (a : arg) : bool :=
  match a with
  | Str _ => true
  | NotStr _ _ => false
  end.

(** [undefined], with the refusal as node words it since version 18. *)
Definition undefined_refusal : string :=
  "The " +:+ str1 dquote +:+ "paths[0]" +:+ str1 dquote
    +:+ " argument must be of type string. Received undefined".

Definition undefined : arg := NotStr "undefined" undefined_refusal.

Section FileHandler.

(** [path.resolve] of one string, under the working directory of the
    process. *)
Variable resolve : string -> string.

Context {Disk : Type} `{!NodeFs Disk}.

(** [path.resolve(filePath)], line 25: the canonical form of a string, a
    [TypeError] for anything else. *)
Definition path_resolve (filePath : arg) : outcome string :=
  match filePath with
  | Str s => Returned (resolve s)
  | NotStr _ refusal => Thrown refusal
  end.

(** ** The lock table *)

(** What [this.fileLocks] and the disk hold between two transitions. *)
Record store : Type := Store {
  fileLocks : gmap string bool;
  disk : Disk
}.

(** Lines 27-33 of [acquireLock]: the loop test and, once it fails, the
    insertion. [None] is the suspension at line 29; the timer resumes the
    caller at the loop test again. *)
Definition acquireLock_loop (normalizedPath : string) (locks : gmap string bool)
    : option string * gmap string bool :=
  match locks !! normalizedPath with
  | Some _ => (None, locks)
  | None => (Some normalizedPath, <[normalizedPath := true]> locks)
  end.

(** How a call of [acquireLock] leaves its first stretch: returned with
    [lockedPath], suspended at line 29 with its local [normalizedPath], or
    thrown at line 25. *)
Inductive acquiring : Type :=
| Acquired (lockedPath : string)
| Polling (normalizedPath : string)
| Refused (message : string).

(** [acquireLock(filePath)] from its entry to its first suspension, to
    its return or to its throw. *)
Definition acquireLock (filePath : arg) (locks : gmap string bool)
    : acquiring * gmap string bool :=
  match path_resolve filePath with
  | Returned normalizedPath =>
      match acquireLock_loop normalizedPath locks with
      | (Some lockedPath, locks') => (Acquired lockedPath, locks')
      | (None, locks') => (Polling normalizedPath, locks')
      end
  | Thrown message => (Refused message, locks)
  end.

(** [releaseLock] is only ever handed a [lockedPath], a string that
    [acquireLock] returned. *)
Definition releaseLock (filePath : string) (locks : gmap string bool)
    : gmap string bool :=
  let normalizedPath := resolve filePath in
  delete normalizedPath locks.

(** ** The methods as state machines *)

Inductive retval : Type :=
| RString (data : string)
| RBool (b : bool)
| RStats (stats : Stats)
| RValue (v : value).

(** Where a call is suspended, with the locals it resumes with. *)
Inductive pc : Type :=
| Start
| AwaitTimer (normalizedPath : string)
| AwaitLock (lockedPath : string)
| AwaitTimer2 (sourceLock normalizedPath : string)
| AwaitLock2 (sourceLock destLock : string)
| AwaitIO (lockedPath : string)
| AwaitCopy (sourceLock destLock : string)
| AwaitProbe
| AwaitCall (r : outcome retval)
| Settled (r : outcome retval).

Definition rethrow {A} (r : outcome A) (ret : A -> retval) (prefix filePath : string)
    : outcome retval :=
  match r with
  | Returned a => Returned (ret a)
  | Thrown message => Thrown (prefix +:+ filePath +:+ ": " +:+ message)
  end.

(** The shape shared by [readFile], [writeFile], [appendFile], [getStats]
    and [deleteFile]: acquire, [try] the primitive on [lockedPath],
    [catch] and rethrow, [finally] release. [acquireLock] is awaited
    before the [try]: what it throws rejects the call as it is, with
    neither [catch] nor [finally] run. *)
Definition locked {A} (filePath : arg)
    (primitive : string -> Disk -> outcome A * Disk)
    (ret : A -> retval) (prefix : string) (k : pc) (s : store) : pc * store :=
  match k with
  | Start =>
      match acquireLock filePath (fileLocks s) with
      | (Acquired lockedPath, locks) => (AwaitLock lockedPath, Store locks (disk s))
      | (Polling normalizedPath, locks) => (AwaitTimer normalizedPath, Store locks (disk s))
      | (Refused message, locks) => (Settled (Thrown message), Store locks (disk s))
      end
  | AwaitTimer normalizedPath =>
      match acquireLock_loop normalizedPath (fileLocks s) with
      | (Some lockedPath, locks) => (AwaitLock lockedPath, Store locks (disk s))
      | (None, locks) => (AwaitTimer normalizedPath, Store locks (disk s))
      end
  | AwaitLock lockedPath => (AwaitIO lockedPath, s)
  | AwaitIO lockedPath =>
      let '(r, d) := primitive lockedPath (disk s) in
      (Settled (rethrow r ret prefix (shown filePath)),
       Store (releaseLock lockedPath (fileLocks s)) d)
  | _ => (k, s)
  end.

(** [fs.writeFile] and [fs.appendFile] validate [data] before any I/O;
    [None] stands for [undefined]. *)
Definition invalid_data : string :=
  "The " +:+ str1 dquote +:+ "data" +:+ str1 dquote
    +:+ " argument must be of type string or an instance of Buffer, TypedArray, or DataView. Received undefined".

Definition with_data (primitive : string -> string -> string -> Disk -> outcome unit * Disk)
    (data : option string) (options : string) (lockedPath : string) (d : Disk)
    : outcome unit * Disk :=
  match data with
  | Some text => primitive lockedPath text options d
  | None => (Thrown invalid_data, d)
  end.

Definition readFile (filePath : arg) (options : string) : pc -> store -> pc * store :=
  locked filePath (fun lockedPath => fs_readFile lockedPath options)
    RString "Failed to read file ".

Definition writeFile (filePath : arg) (data : option string) (options : string)
    : pc -> store -> pc * store :=
  locked filePath (with_data fs_writeFile data options)
    (fun _ => RBool true) "Failed to write file ".

Definition appendFile (filePath : arg) (data : option string) (options : string)
    : pc -> store -> pc * store :=
  locked filePath (with_data fs_appendFile data options)
    (fun _ => RBool true) "Failed to append to file ".

Definition getStats (filePath : arg) : pc -> store -> pc * store :=
  locked filePath fs_stat RStats "Failed to get stats for ".

Definition deleteFile (filePath : arg) : pc -> store -> pc * store :=
  locked filePath fs_unlink (fun _ => RBool true) "Failed to delete file ".

(** [exists]: no lock; whatever [fs.access] throws becomes [false]. Here
    and in [ensureDir] the path goes to [node:fs] inside the [try], so a
    path that [node:fs] refuses is one more failure of the primitive. *)
Definition exists_ (filePath : string) (k : pc) (s : store) : pc * store :=
  match k with
  | Start => (AwaitProbe, s)
  | AwaitProbe =>
      let '(r, d) := fs_access filePath (disk s) in
      (Settled
         (Returned (RBool match r with Returned _ => true | Thrown _ => false end)),
       Store (fileLocks s) d)
  | _ => (k, s)
  end.

Definition ensureDir (dirPath : string) (k : pc) (s : store) : pc * store :=
  match k with
  | Start => (AwaitProbe, s)
  | AwaitProbe =>
      let '(r, d) := fs_mkdir dirPath (disk s) in
      (Settled (rethrow r (fun _ => RBool true) "Failed to create directory " dirPath),
       Store (fileLocks s) d)
  | _ => (k, s)
  end.

(** A call awaited by its caller: when it settles, the caller is
    suspended on its promise. *)
Definition awaited (inner : pc * store) : pc * store :=
  match inner with
  | (Settled r, s) => (AwaitCall r, s)
  | other => other
  end.

(** [readJSON]: [readFile] is awaited outside the [try], so its failure
    passes through; only [JSON.parse] is wrapped. *)
Definition readJSON (filePath : arg) (k : pc) (s : store) : pc * store :=
  match k with
  | AwaitCall (Returned (RString data)) =>
      match JSON_parse data with
      | Returned v => (Settled (Returned (RValue v)), s)
      | Thrown message =>
          (Settled
             (Thrown ("Failed to parse JSON from " +:+ shown filePath +:+ ": " +:+ message)), s)
      end
  | AwaitCall r => (Settled r, s)
  | Settled _ => (k, s)
  | _ => awaited (readFile filePath "utf8" k s)
  end.

(** [writeJSON]: [JSON.stringify] and the awaited [writeFile] stand in one
    [try]; whatever either throws is wrapped the same way. The local
    [data] is a function of [obj] and [space], so the states after [Start]
    compute it again instead of carrying it; they are only entered when it
    exists. *)
Definition writeJSON (filePath : arg) (obj : value) (space : Z) (k : pc) (s : store)
    : pc * store :=
  match k with
  | Start =>
      match JSON_stringify obj space with
      | Returned data => awaited (writeFile filePath data "utf8" Start s)
      | Thrown message =>
          (Settled
             (Thrown ("Failed to write JSON to " +:+ shown filePath +:+ ": " +:+ message)), s)
      end
  | AwaitCall r =>
      (Settled (rethrow r (fun a => a) "Failed to write JSON to " (shown filePath)), s)
  | Settled _ => (k, s)
  | _ =>
      match JSON_stringify obj space with
      | Returned data => awaited (writeFile filePath data "utf8" k s)
      | Thrown _ => (k, s)
      end
  end.

(** [copyFile]: the source lock, then the destination lock, both taken
    before the [try]; both released in the [finally]. When the second
    [acquireLock] throws, at line 145, the call is rejected there: the
    [finally] of line 154 is not reached and the source lock, inserted at
    line 144, stays in the table. *)
Definition copyFile (source destination : arg) (k : pc) (s : store) : pc * store :=
  match k with
  | Start =>
      match acquireLock source (fileLocks s) with
      | (Acquired sourceLock, locks) => (AwaitLock sourceLock, Store locks (disk s))
      | (Polling normalizedPath, locks) => (AwaitTimer normalizedPath, Store locks (disk s))
      | (Refused message, locks) => (Settled (Thrown message), Store locks (disk s))
      end
  | AwaitTimer normalizedPath =>
      match acquireLock_loop normalizedPath (fileLocks s) with
      | (Some sourceLock, locks) => (AwaitLock sourceLock, Store locks (disk s))
      | (None, locks) => (AwaitTimer normalizedPath, Store locks (disk s))
      end
  | AwaitLock sourceLock =>
      match acquireLock destination (fileLocks s) with
      | (Acquired destLock, locks) => (AwaitLock2 sourceLock destLock, Store locks (disk s))
      | (Polling normalizedPath, locks) =>
          (AwaitTimer2 sourceLock normalizedPath, Store locks (disk s))
      | (Refused message, locks) => (Settled (Thrown message), Store locks (disk s))
      end
  | AwaitTimer2 sourceLock normalizedPath =>
      match acquireLock_loop normalizedPath (fileLocks s) with
      | (Some destLock, locks) => (AwaitLock2 sourceLock destLock, Store locks (disk s))
      | (None, locks) => (AwaitTimer2 sourceLock normalizedPath, Store locks (disk s))
      end
  | AwaitLock2 sourceLock destLock => (AwaitCopy sourceLock destLock, s)
  | AwaitCopy sourceLock destLock =>
      let '(r, d) := fs_copyFile sourceLock destLock (disk s) in
      (Settled
         (match r with
          | Returned _ => Returned (RBool true)
          | Thrown message =>
              Thrown ("Failed to copy " +:+ shown source +:+ " to " +:+ shown destination
                        +:+ ": " +:+ message)
          end),
       Store (releaseLock destLock (releaseLock sourceLock (fileLocks s))) d)
  | _ => (k, s)
  end.

(** ** Calls, tasks and the event loop *)

Inductive call : Type :=
| ReadFile (filePath : arg) (options : string)
| WriteFile (filePath : arg) (data : option string) (options : string)
| AppendFile (filePath : arg) (data : option string) (options : string)
| Exists (filePath : string)
| EnsureDir (dirPath : string)
| ReadJSON (filePath : arg)
| WriteJSON (filePath : arg) (obj : value) (space : Z)
| GetStats (filePath : arg)
| CopyFile (source destination : arg)
| DeleteFile (filePath : arg).

Definition resume (c : call) : pc -> store -> pc * store :=
  match c with
  | ReadFile filePath options => readFile filePath options
  | WriteFile filePath data options => writeFile filePath data options
  | AppendFile filePath data options => appendFile filePath data options
  | Exists filePath => exists_ filePath
  | EnsureDir dirPath => ensureDir dirPath
  | ReadJSON filePath => readJSON filePath
  | WriteJSON filePath obj space => writeJSON filePath obj space
  | GetStats filePath => getStats filePath
  | CopyFile source destination => copyFile source destination
  | DeleteFile filePath => deleteFile filePath
  end.

(** The process: the shared store and the calls made so far, each with
    its suspension point ([Start]: issued, not yet run). *)
Record world : Type := World {
  shared : store;
  tasks : list (call * pc)
}.

(** The event loop runs task [i] up to its next suspension. *)
Definition fire (i : nat) (w : world) : world :=
  match tasks w !! i with
  | Some (c, k) =>
      let '(k', s') := resume c k (shared w) in
      World s' (<[i := (c, k')]> (tasks w))
  | None => w
  end.

Definition step (w w' : world) : Prop := exists i, w' = fire i w.

Definition run_schedule (schedule : list nat) (w : world) : world :=
  fold_left (fun w i => fire i w) schedule w.

Definition initial (d : Disk) (calls : list call) : world :=
  World (Store ∅ d) ((fun c => (c, Start)) <$> calls).

(** One call run on its own, with nothing else scheduled in between. *)
Fixpoint run (fuel : nat) (c : call) (k : pc) (s : store)
    : option (outcome retval * store) :=
  match k with
  | Settled r => Some (r, s)
  | _ =>
      match fuel with
      | O => None
      | S fuel' => let '(k', s') := resume c k s in run fuel' c k' s'
      end
  end.

(** ** What a suspended call holds *)

(** The entries of the lock table a call has inserted and not yet
    deleted, by suspension point. *)
Definition held (k : pc) : gset string :=
  match k with
  | AwaitLock lockedPath | AwaitIO lockedPath => {[lockedPath]}
  | AwaitTimer2 sourceLock _ => {[sourceLock]}
  | AwaitLock2 sourceLock destLock | AwaitCopy sourceLock destLock =>
      {[sourceLock; destLock]}
  | _ => ∅
  end.

(** The underlying filesystem call of a locking operation is in flight. *)
Definition in_flight (k : pc) : bool :=
  match k with
  | AwaitIO _ | AwaitCopy _ _ => true
  | _ => false
  end.

(** The path arguments a call locks, in acquisition order. *)
Definition lock_paths (c : call) : list arg :=
  match c with
  | ReadFile filePath _ | WriteFile filePath _ _ | AppendFile filePath _ _
  | ReadJSON filePath | WriteJSON filePath _ _ | GetStats filePath
  | DeleteFile filePath => [filePath]
  | CopyFile source destination => [source; destination]
  | Exists _ | EnsureDir _ => []
  end.

(** Their canonical forms, where they have one: the keys of the call in
    the lock table. *)
Definition canonical (filePath : arg) : option string :=
  match path_resolve filePath with
  | Returned normalizedPath => Some normalizedPath
  | Thrown _ => None
  end.

Definition targets (c : call) : list string := omap canonical (lock_paths c).

(** The key a [copyFile] leaves in the table for good: that of a source
    that is a string, when the destination is not. *)
Definition leak (c : call) : option string :=
  match c with
  | CopyFile (Str source) (NotStr _ _) => Some (resolve source)
  | _ => None
  end.

Definition leaked (c : call) (k : pc) : gset string :=
  match k, leak c with
  | Settled _, Some sourceLock => {[sourceLock]}
  | _, _ => ∅
  end.

(** The entries of the table that are there by a call: those it holds and
    those it left behind. *)
Definition owns (c : call) (k : pc) : gset string := held k ∪ leaked c k.

(** The locals of a suspended call are the canonical forms of its
    arguments. *)
Definition pc_ok (c : call) (k : pc) : Prop :=
  match k with
  | AwaitTimer p | AwaitLock p =>
      exists (filePath : string) rest, lock_paths c = Str filePath :: rest /\ p = resolve filePath
  | AwaitIO p => exists filePath : string, lock_paths c = [Str filePath] /\ p = resolve filePath
  | AwaitTimer2 p q | AwaitLock2 p q | AwaitCopy p q =>
      exists source destination : string,
        lock_paths c = [Str source; Str destination]
        /\ p = resolve source /\ q = resolve destination
  | AwaitProbe => lock_paths c = []
  | Start | AwaitCall _ | Settled _ => True
  end.

(** The invariant of the lock table (spec, data model): a path is in the
    table exactly when one call holds it or has left it behind, and no two
    calls do so for the same path. *)
Record invariant (w : world) : Prop := Invariant {
  inv_ok : forall i c k, tasks w !! i = Some (c, k) -> pc_ok c k;
  inv_held : forall i c k p,
    tasks w !! i = Some (c, k) -> p ∈ owns c k -> fileLocks (shared w) !! p = Some true;
  inv_excl : forall i j ci ki cj kj p,
    i <> j -> tasks w !! i = Some (ci, ki) -> tasks w !! j = Some (cj, kj) ->
    p ∈ owns ci ki -> p ∉ owns cj kj;
  inv_owned : forall p,
    is_Some (fileLocks (shared w) !! p) ->
    exists i c k, tasks w !! i = Some (c, k) /\ p ∈ owns c k
}.

(** The six operations that take a lock themselves. *)
Definition locking (c : call) : bool :=
  match c with
  | ReadFile _ _ | WriteFile _ _ _ | AppendFile _ _ _ | GetStats _
  | CopyFile _ _ | DeleteFile _ => true
  | _ => false
  end.

(** Where a [copyFile] whose two paths have one canonical form [key] can
    be: not yet run, waiting for or holding the source lock, or waiting
    for the destination lock. *)
Definition self_blocked (key : string) (k : pc) : Prop :=
  k = Start \/ k = AwaitTimer key \/ k = AwaitLock key \/ k = AwaitTimer2 key key.

(** What one transition of a call does to the lock table. *)
Inductive effect (c : call) (k k' : pc) (L L' : gmap string bool) : Prop :=
| effect_none : owns c k' = owns c k -> L' = L -> effect c k k' L L'
| effect_acquire p :
    L !! p = None -> L' = <[p := true]> L -> owns c k' = {[p]} ∪ owns c k ->
    effect c k k' L L'
| effect_release :
    owns c k' = ∅ ->
    (forall p, L' !! p = if decide (p ∈ owns c k) then None else L !! p) ->
    effect c k k' L L'.

(** ** Notions for what the claims leave out *)

(** [n] transitions of one call in a row. *)
Fixpoint resumes (n : nat) (c : call) (k : pc) (s : store) : pc * store :=
  match n with
  | O => (k, s)
  | S n' => let '(k', s') := resume c k s in resumes n' c k' s'
  end.

(** The calls that reach the loop of [acquireLock] before anything can
    settle them: all but [exists], [ensureDir], a [writeJSON] whose value
    [JSON.stringify] throws on, and a call whose first path is not a
    string. *)
Definition waits_for_lock (c : call) : bool :=
  match c with
  | Exists _ | EnsureDir _ => false
  | WriteJSON filePath obj space =>
      match JSON_stringify obj space with
      | Returned _ => is_string filePath
      | Thrown _ => false
      end
  | ReadFile filePath _ | WriteFile filePath _ _ | AppendFile filePath _ _
  | ReadJSON filePath | GetStats filePath | DeleteFile filePath => is_string filePath
  | CopyFile source _ => is_string source
  end.

(** The failures a call can throw, by the names of the specification. *)
Definition failures_of (c : call) : list failure :=
  match c with
  | ReadFile _ _ => [ReadError]
  | WriteFile _ _ _ => [WriteError]
  | AppendFile _ _ _ => [AppendError]
  | Exists _ => []
  | EnsureDir _ => [DirError]
  | ReadJSON _ => [ReadError; ParseError]
  | WriteJSON _ _ _ => [SerializeError]
  | GetStats _ => [StatError]
  | CopyFile _ _ => [CopyError]
  | DeleteFile _ => [DeleteError]
  end.

(** What follows the phrase in a failure's message: the path as the caller
    gave it (both paths, for a copy) and the cause. *)
Definition blames (c : call) (cause : string) : string :=
  match c with
  | ReadFile filePath _ | WriteFile filePath _ _ | AppendFile filePath _ _
  | ReadJSON filePath | WriteJSON filePath _ _ | GetStats filePath
  | DeleteFile filePath => shown filePath +:+ ": " +:+ cause
  | Exists filePath | EnsureDir filePath => filePath +:+ ": " +:+ cause
  | CopyFile source destination =>
      shown source +:+ " to " +:+ shown destination +:+ ": " +:+ cause
  end.

Definition names_operation (c : call) (message : string) : Prop :=
  exists f cause, f ∈ failures_of c /\ message = phrase f +:+ blames c cause.

(** The messages [path.resolve] refuses the path arguments of a call
    with, where the refusal reaches the caller as it is: everywhere but in
    [writeJSON], whose [try] is around the [writeFile] that meets it. *)
Definition refusal_of (filePath : arg) : option string :=
  match path_resolve filePath with
  | Returned _ => None
  | Thrown message => Some message
  end.

Definition refusals (c : call) : list string :=
  match c with
  | WriteJSON _ _ _ => []
  | _ => omap refusal_of (lock_paths c)
  end.

(** What the failure in hand of a suspended or settled call looks like.
    [readJSON] passes on the failure of the [readFile] it awaited. *)
Definition tagged (c : call) (k : pc) : Prop :=
  match k with
  | Settled (Thrown message) => names_operation c message \/ message ∈ refusals c
  | AwaitCall (Thrown message) =>
      match c with
      | ReadJSON _ => names_operation c message \/ message ∈ refusals c
      | _ => True
      end
  | _ => True
  end.

(** The calls that take one lock at most: all but [copyFile]. *)
Definition single_path (c : call) : bool :=
  match c with
  | CopyFile _ _ => false
  | _ => true
  end.

(** The two methods that await another method of the class. *)
Definition awaits_call (c : call) : bool :=
  match c with
  | ReadJSON _ | WriteJSON _ _ _ => true
  | _ => false
  end.

(** The suspension points a call can really be at: only a call that went
    past [JSON.stringify] waits for or holds a lock, and only [readJSON]
    and [writeJSON] await a call. *)
Definition pc_live (c : call) (k : pc) : Prop :=
  match k with
  | AwaitTimer _ | AwaitLock _ | AwaitIO _
  | AwaitTimer2 _ _ | AwaitLock2 _ _ | AwaitCopy _ _ => waits_for_lock c = true
  | AwaitCall _ => awaits_call c = true
  | _ => True
  end.

(** Transitions a call still needs when nothing blocks it. *)
Definition transitions_left (k : pc) : nat :=
  match k with
  | Start | AwaitTimer _ => 4
  | AwaitLock _ | AwaitTimer2 _ _ => 3
  | AwaitIO _ | AwaitLock2 _ _ => 2
  | AwaitCopy _ _ | AwaitCall _ | AwaitProbe => 1
  | Settled _ => 0
  end.

(** Waiting on a timer for a key that is still in the table. *)
Definition blocked (k : pc) (s : store) : Prop :=
  exists p, k = AwaitTimer p /\ is_Some (fileLocks s !! p).

(** Settled, or waiting for its first lock: holding nothing. *)
Definition resting (k : pc) : bool :=
  match k with
  | Settled _ | AwaitTimer _ => true
  | _ => false
  end.

(** A schedule that gives each call of [order] four transitions in a
    row. *)
Definition turns (order : list nat) : list nat := order ≫= replicate 4.

(** What holds of every task wherever the event loop gets to, when no
    call is a [copyFile]. *)
Definition sound (w : world) : Prop :=
  invariant w
  /\ forall i c k, tasks w !! i = Some (c, k) -> pc_live c k /\ single_path c = true.

(** The key a suspended call is waiting for, and a call waiting for a key
    that is in the table. *)
Definition wanted (k : pc) : option string :=
  match k with
  | AwaitTimer p | AwaitTimer2 _ p => Some p
  | _ => None
  end.

Definition waiting (k : pc) (s : store) : Prop :=
  exists p, wanted k = Some p /\ is_Some (fileLocks s !! p).

(** Past its filesystem call: what it held is released. *)
Definition past_io (k : pc) : bool :=
  match k with
  | AwaitCall _ | Settled _ => true
  | _ => false
  end.

(** A copy that goes up in a ranking of the keys, or takes no lock at
    all. A copy that takes one and is refused the other is not such. *)
Definition ordered (rank : string -> nat) (c : call) : Prop :=
  match c with
  | CopyFile (Str source) (Str destination) =>
      (rank (resolve source) < rank (resolve destination))%nat
  | CopyFile (Str _) (NotStr _ _) => False
  | _ => True
  end.

(** The invariant of the lock table, every call at a suspension point it
    can really be at, and every copy going up in the ranking. *)
Definition orderly (rank : string -> nat) (w : world) : Prop :=
  invariant w
  /\ forall i c k, tasks w !! i = Some (c, k) -> pc_live c k /\ ordered rank c.

(** The calls that have not settled, counted. *)
Fixpoint pending (ts : list (call * pc)) : nat :=
  match ts with
  | [] => 0
  | (_, Settled _) :: rest => pending rest
  | _ :: rest => S (pending rest)
  end.

(** ** The lock table: acquire and release *)

Hypothesis resolve_idem : forall p, resolve (resolve p) = resolve p.

Lemma acquireLock_loop_spec normalizedPath locks :
  match acquireLock_loop normalizedPath locks with
  | (Some lockedPath, locks') =>
      lockedPath = normalizedPath /\ locks !! normalizedPath = None
      /\ locks' = <[normalizedPath := true]> locks
  | (None, locks') => is_Some (locks !! normalizedPath) /\ locks' = locks
  end.
Proof.
  unfold acquireLock_loop. destruct (locks !! normalizedPath) eqn:E; eauto.
Qed.

Lemma releaseLock_canonical filePath locks :
  releaseLock (resolve filePath) locks = delete (resolve filePath) locks.
Proof. unfold releaseLock. by rewrite resolve_idem. Qed.

Lemma leak_copy c p :
  leak c = Some p ->
  exists (source : string) text refusal,
    c = CopyFile (Str source) (NotStr text refusal) /\ p = resolve source.
Proof.
  destruct c as [| | | | | | | |[source|] [|text refusal]|]; try done.
  intros [= <-]. by exists source, text, refusal.
Qed.

Lemma leak_one_path c filePath : lock_paths c = [filePath] -> leak c = None.
Proof. by destruct c. Qed.

Lemma leak_no_path c : lock_paths c = [] -> leak c = None.
Proof. by destruct c. Qed.

Lemma owns_no_leak c k : leak c = None -> owns c k = held k.
Proof. intros Hc. unfold owns, leaked. rewrite Hc. destruct k; set_solver. Qed.

Lemma owns_unsettled c k : (forall r, k <> Settled r) -> owns c k = held k.
Proof.
  intros Hk. unfold owns, leaked. destruct k; set_solver.
Qed.

Lemma held_owns c k p : p ∈ held k -> p ∈ owns c k.
Proof. unfold owns. set_solver. Qed.

Lemma effect_release_one c l locks k' :
  owns c k' = ∅ -> effect c (AwaitIO l) k' locks (delete l locks).
Proof.
  intros Hk. apply effect_release; [done|]. intros p.
  rewrite owns_unsettled by done. simpl.
  destruct (decide (p = l)) as [->|Hne].
  - rewrite lookup_delete_eq. by rewrite decide_True by set_solver.
  - rewrite lookup_delete_ne by done. by rewrite decide_False by set_solver.
Qed.

Lemma effect_release_two c s d locks k' :
  owns c k' = ∅ -> effect c (AwaitCopy s d) k' locks (delete d (delete s locks)).
Proof.
  intros Hk. apply effect_release; [done|]. intros p.
  rewrite owns_unsettled by done. simpl.
  destruct (decide (p = d)) as [->|Hd].
  { rewrite lookup_delete_eq. by rewrite decide_True by set_solver. }
  rewrite lookup_delete_ne by done.
  destruct (decide (p = s)) as [->|Hs].
  - rewrite lookup_delete_eq. by rewrite decide_True by set_solver.
  - rewrite lookup_delete_ne by done. by rewrite decide_False by set_solver.
Qed.

Lemma acquire_effect c k k1 k2 p locks :
  owns c k1 = owns c k -> owns c k2 = {[p]} ∪ owns c k ->
  match acquireLock_loop p locks with
  | (Some l, locks') => effect c k (k2 : pc) locks locks' /\ l = p
  | (None, locks') => effect c k k1 locks locks'
  end.
Proof.
  intros H1 H2. pose proof (acquireLock_loop_spec p locks) as Hs.
  destruct (acquireLock_loop p locks) as [[l|] locks'].
  - destruct Hs as (-> & Hfree & ->). split; [|done]. by eapply effect_acquire.
  - destruct Hs as [_ ->]. by apply effect_none.
Qed.

(** [acquireLock] from its entry, by what its argument is. *)
Lemma acquireLock_string (filePath : string) locks :
  acquireLock filePath locks
  = match acquireLock_loop (resolve filePath) locks with
    | (Some lockedPath, locks') => (Acquired lockedPath, locks')
    | (None, locks') => (Polling (resolve filePath), locks')
    end.
Proof. done. Qed.

Lemma acquireLock_refused text refusal locks :
  acquireLock (NotStr text refusal) locks = (Refused refusal, locks).
Proof. done. Qed.

Lemma locked_effect {A} c filePath (primitive : string -> Disk -> outcome A * Disk)
    ret prefix k s k' s' :
  lock_paths c = [filePath] -> pc_ok c k ->
  locked filePath primitive ret prefix k s = (k', s') ->
  pc_ok c k' /\ effect c k k' (fileLocks s) (fileLocks s').
Proof.
  intros Hc Hok Hstep. pose proof (leak_one_path c _ Hc) as Hleak.
  destruct k; simpl in *.
  - destruct filePath as [fp|text refusal].
    + rewrite acquireLock_string in Hstep.
      pose proof (acquire_effect c Start (AwaitTimer (resolve fp))
                    (AwaitLock (resolve fp)) (resolve fp) (fileLocks s)) as He.
      specialize (He eq_refl ltac:(rewrite !owns_unsettled by done; simpl; set_solver)).
      destruct (acquireLock_loop (resolve fp) (fileLocks s)) as [[l|] locks'];
        simplify_eq; simpl in *.
      * destruct He as [He ->]. split; [|done].
        exists fp, []. by rewrite Hc.
      * split; [|done]. exists fp, []. by rewrite Hc.
    + rewrite acquireLock_refused in Hstep. simplify_eq. split; [done|].
      apply effect_none; [|done]. by rewrite !owns_no_leak.
  - pose proof (acquire_effect c (AwaitTimer normalizedPath) (AwaitTimer normalizedPath)
                  (AwaitLock normalizedPath) normalizedPath (fileLocks s)) as He.
    specialize (He eq_refl ltac:(rewrite !owns_unsettled by done; simpl; set_solver)).
    destruct (acquireLock_loop normalizedPath (fileLocks s)) as [[l|] locks'];
      simplify_eq; simpl in *.
    + by destruct He as [He ->].
    + done.
  - simplify_eq. split; [|by apply effect_none].
    destruct Hok as (fp & rest & Hp & ->). rewrite Hc in Hp. simplify_eq. by exists fp.
  - destruct Hok as (? & ? & ? & ? & ?). congruence.
  - destruct Hok as (? & ? & ? & ? & ?). congruence.
  - destruct (primitive lockedPath (disk s)) as [r d]. simplify_eq. split; [done|].
    destruct Hok as (fp & Hp & ->). simpl. rewrite releaseLock_canonical.
    apply effect_release_one. by rewrite owns_no_leak.
  - destruct Hok as (? & ? & ? & ? & ?). congruence.
  - congruence.
  - simplify_eq. split; [done|by apply effect_none].
  - simplify_eq. split; [done|by apply effect_none].
Qed.

Lemma awaited_effect c k k1 s1 k' s' L :
  leak c = None ->
  awaited (k1, s1) = (k', s') -> pc_ok c k1 /\ effect c k k1 L (fileLocks s1) ->
  pc_ok c k' /\ effect c k k' L (fileLocks s').
Proof.
  intros Hleak Ha [Hok He]. destruct k1; simpl in Ha; simplify_eq; try done.
  split; [done|].
  destruct He as [H1 H2|p H1 H2 H3|H1 H2].
  - apply effect_none; [|done]. rewrite <- H1. by rewrite !owns_no_leak.
  - rewrite !owns_no_leak in H3 by done. simpl in H3. set_solver.
  - apply effect_release; [by rewrite owns_no_leak|done].
Qed.

Lemma copyFile_effect c source destination k s k' s' :
  lock_paths c = [source; destination] -> pc_ok c k ->
  copyFile source destination k s = (k', s') ->
  pc_ok c k' /\ effect c k k' (fileLocks s) (fileLocks s').
Proof.
  intros Hc Hok Hstep.
  assert (c = CopyFile source destination) as -> by (destruct c; by simplify_eq/=).
  clear Hc. destruct k; simpl in *.
  - destruct source as [src|text refusal].
    + rewrite acquireLock_string in Hstep.
      pose proof (acquire_effect (CopyFile src destination) Start (AwaitTimer (resolve src))
                    (AwaitLock (resolve src)) (resolve src) (fileLocks s)) as He.
      specialize (He eq_refl ltac:(rewrite !owns_unsettled by done; simpl; set_solver)).
      destruct (acquireLock_loop (resolve src) (fileLocks s)) as [[l|] locks'];
        simplify_eq; simpl in *.
      * destruct He as [He ->]. split; [|done]. by exists src, [destination].
      * split; [|done]. by exists src, [destination].
    + rewrite acquireLock_refused in Hstep. simplify_eq. split; [done|].
      by apply effect_none.
  - pose proof (acquire_effect (CopyFile source destination)
                  (AwaitTimer normalizedPath) (AwaitTimer normalizedPath)
                  (AwaitLock normalizedPath) normalizedPath (fileLocks s)) as He.
    specialize (He eq_refl ltac:(rewrite !owns_unsettled by done; simpl; set_solver)).
    destruct (acquireLock_loop normalizedPath (fileLocks s)) as [[l|] locks'];
      simplify_eq; simpl in *.
    + by destruct He as [He ->].
    + done.
  - destruct Hok as (fp & rest & Hp & ->). simplify_eq.
    destruct destination as [dst|text refusal].
    + rewrite acquireLock_string in Hstep.
      pose proof (acquire_effect (CopyFile fp dst) (AwaitLock (resolve fp))
                    (AwaitTimer2 (resolve fp) (resolve dst))
                    (AwaitLock2 (resolve fp) (resolve dst))
                    (resolve dst) (fileLocks s)) as He.
      specialize (He eq_refl ltac:(rewrite !owns_unsettled by done; simpl; set_solver)).
      destruct (acquireLock_loop (resolve dst) (fileLocks s)) as [[l|] locks'];
        simplify_eq; simpl in *.
      * destruct He as [He ->]. split; [|done]. by exists fp, dst.
      * split; [|done]. by exists fp, dst.
    + rewrite acquireLock_refused in Hstep. simplify_eq. split; [done|].
      apply effect_none; [|done]. unfold owns. simpl. set_solver.
  - pose proof (acquire_effect (CopyFile source destination)
                  (AwaitTimer2 sourceLock normalizedPath)
                  (AwaitTimer2 sourceLock normalizedPath)
                  (AwaitLock2 sourceLock normalizedPath)
                  normalizedPath (fileLocks s)) as He.
    specialize (He eq_refl ltac:(rewrite !owns_unsettled by done; simpl; set_solver)).
    destruct (acquireLock_loop normalizedPath (fileLocks s)) as [[l|] locks'];
      simplify_eq; simpl in *.
    + by destruct He as [He ->].
    + done.
  - simplify_eq. split; [done|]. apply effect_none; [|done].
    by rewrite !owns_unsettled.
  - destruct Hok as (? & ? & ?). congruence.
  - destruct (fs_copyFile sourceLock destLock (disk s)) as [r d]. simplify_eq.
    split; [done|]. destruct Hok as (src & dst & Hp & -> & ->). simplify_eq.
    rewrite !releaseLock_canonical. by apply effect_release_two.
  - congruence.
  - simplify_eq. split; [done|by apply effect_none].
  - simplify_eq. split; [done|by apply effect_none].
Qed.

Lemma resume_effect c k s k' s' :
  pc_ok c k -> resume c k s = (k', s') ->
  pc_ok c k' /\ effect c k k' (fileLocks s) (fileLocks s').
Proof.
  intros Hok Hstep. destruct c; simpl in Hstep.
  - by eapply locked_effect.
  - by eapply locked_effect.
  - by eapply locked_effect.
  - unfold exists_ in Hstep.
    destruct k; try destruct (fs_access filePath (disk s)) as [r d]; simplify_eq;
      (split; [done|by apply effect_none]).
  - unfold ensureDir in Hstep.
    destruct k; try destruct (fs_mkdir dirPath (disk s)) as [r d]; simplify_eq;
      (split; [done|by apply effect_none]).
  - unfold readJSON in Hstep.
    destruct k as [|?|?|? ?|? ?|?|? ?| |r|r];
      try (destruct (readFile filePath "utf8" _ s) as [k1 s1] eqn:E;
           unfold readFile in E;
           eapply awaited_effect; [done|done|]; by eapply locked_effect).
    + destruct r as [[data| | |]|]; try destruct (JSON_parse data);
        simplify_eq; (split; [done|by apply effect_none]).
    + simplify_eq. split; [done|by apply effect_none].
  - unfold writeJSON in Hstep.
    destruct k as [|?|?|? ?|? ?|?|? ?| |r|r];
      try (destruct (JSON_stringify obj space) as [data|message];
           [ destruct (writeFile filePath data "utf8" _ s) as [k1 s1] eqn:E;
             unfold writeFile in E;
             eapply awaited_effect; [done|done|]; by eapply locked_effect
           | simplify_eq; split; [done|]; by apply effect_none ]).
    all: simplify_eq; split; [done|by apply effect_none].
  - by eapply locked_effect.
  - by eapply copyFile_effect.
  - by eapply locked_effect.
Qed.

(** ** The invariant is kept by every transition *)

Lemma effect_invariant w i c k k' L' d' :
  invariant w -> tasks w !! i = Some (c, k) -> pc_ok c k' ->
  effect c k k' (fileLocks (shared w)) L' ->
  invariant (World (Store L' d') (<[i := (c, k')]> (tasks w))).
Proof.
  intros [Iok Iheld Iexcl Iowned] Hi Hok' He.
  assert (Hlt : (i < length (tasks w))%nat) by by eapply lookup_lt_Some.
  split; simpl.
  - intros j cj kj [(-> & ? & _)|[Hne Hj]]%list_lookup_insert_Some; simplify_eq; eauto.
  - intros j cj kj p [(-> & ? & _)|[Hne Hj]]%list_lookup_insert_Some Hp; simplify_eq.
    + destruct He as [Hh ->|q Hq -> Hh|Hh HL].
      * rewrite Hh in Hp. eauto.
      * rewrite Hh in Hp. destruct (decide (p = q)) as [->|Hpq].
        { by rewrite lookup_insert_eq. }
        rewrite lookup_insert_ne by done. eapply Iheld; [done|]. set_solver.
      * rewrite Hh in Hp. set_solver.
    + pose proof (Iheld _ _ _ _ Hj Hp) as HLp.
      destruct He as [Hh ->|q Hq -> Hh|Hh HL]; [done| |].
      * destruct (decide (p = q)) as [->|Hpq]; [by rewrite lookup_insert_eq|].
        by rewrite lookup_insert_ne.
      * rewrite HL. rewrite decide_False; [done|].
        intros Hpk. by eapply (Iexcl i j).
  - intros a b ca ka cb kb p Hab
      [(-> & ? & _)|[Hna Ha]]%list_lookup_insert_Some
      [(-> & ? & _)|[Hnb Hb]]%list_lookup_insert_Some Hp; simplify_eq.
    + destruct He as [Hh ->|q Hq -> Hh|Hh HL]; rewrite Hh in Hp.
      * by eapply (Iexcl a b).
      * apply elem_of_union in Hp as [->%elem_of_singleton|Hp].
        { intros Hq'. pose proof (Iheld _ _ _ _ Hb Hq'). congruence. }
        by eapply (Iexcl a b).
      * set_solver.
    + pose proof (Iheld _ _ _ _ Ha Hp) as HLp.
      destruct He as [Hh ->|q Hq -> Hh|Hh HL]; rewrite Hh.
      * by eapply (Iexcl a b).
      * intros [->%elem_of_singleton|Hp']%elem_of_union; [congruence|].
        by eapply (Iexcl a b).
      * set_solver.
    + by eapply (Iexcl a b).
  - intros p Hp.
    assert (Hown : forall j cj kj, tasks w !! j = Some (cj, kj) -> p ∈ owns cj kj ->
              (j = i -> p ∈ owns c k') ->
              exists j cj kj,
                <[i := (c, k')]> (tasks w) !! j = Some (cj, kj) /\ p ∈ owns cj kj).
    { intros j cj kj Hj Hpj Hji. destruct (decide (j = i)) as [->|Hne].
      - exists i, c, k'. split; [by apply list_lookup_insert_eq|by apply Hji].
      - exists j, cj, kj. split; [by rewrite list_lookup_insert_ne|done]. }
    destruct He as [Hh ->|q Hq -> Hh|Hh HL].
    + destruct (Iowned p Hp) as (j & cj & kj & Hj & Hpj).
      eapply Hown; [done..|]. intros ->. simplify_eq. by rewrite Hh.
    + destruct (decide (p = q)) as [->|Hpq].
      { exists i, c, k'. split; [by apply list_lookup_insert_eq|]. set_solver. }
      rewrite lookup_insert_ne in Hp by done.
      destruct (Iowned p Hp) as (j & cj & kj & Hj & Hpj).
      eapply Hown; [done..|]. intros ->. simplify_eq. set_solver.
    + rewrite HL in Hp. destruct (decide (p ∈ owns c k)) as [|Hpk]; [by destruct Hp|].
      destruct (Iowned p Hp) as (j & cj & kj & Hj & Hpj).
      eapply Hown; [done..|]. intros ->. by simplify_eq.
Qed.

Lemma fire_invariant i w : invariant w -> invariant (fire i w).
Proof.
  intros Hinv. unfold fire. destruct (tasks w !! i) as [[c k]|] eqn:Hi; [|done].
  destruct (resume c k (shared w)) as [k' [L' d']] eqn:Hr.
  destruct (resume_effect c k _ _ _ (inv_ok w Hinv _ _ _ Hi) Hr) as [Hok He].
  by eapply effect_invariant.
Qed.

Lemma initial_invariant d calls : invariant (initial d calls).
Proof.
  split; simpl.
  - intros i c k [c' [? _]]%list_lookup_fmap_Some. by simplify_eq.
  - intros i c k p [c' [? _]]%list_lookup_fmap_Some. simplify_eq.
    rewrite owns_unsettled by done. set_solver.
  - intros i j ci ki cj kj p _ [c' [? _]]%list_lookup_fmap_Some. simplify_eq.
    rewrite owns_unsettled by done. set_solver.
  - intros p [x Hx]. by rewrite lookup_empty in Hx.
Qed.

Lemma reachable_invariant w w' : invariant w -> rtc step w w' -> invariant w'.
Proof.
  intros Hinv Hsteps. induction Hsteps as [|w1 w2 w3 [i ->] _ IH]; [done|].
  apply IH. by apply fire_invariant.
Qed.

Lemma fire_other i j w : i <> j -> tasks (fire i w) !! j = tasks w !! j.
Proof.
  intros Hne. unfold fire. destruct (tasks w !! i) as [[c k]|]; [|done].
  destruct (resume c k (shared w)) as [k' s']. simpl. by rewrite list_lookup_insert_ne.
Qed.

Lemma fire_self i w c k :
  tasks w !! i = Some (c, k) ->
  tasks (fire i w) !! i = Some (c, (resume c k (shared w)).1)
  /\ shared (fire i w) = (resume c k (shared w)).2.
Proof.
  intros Hi. unfold fire. rewrite Hi.
  destruct (resume c k (shared w)) as [k' s']. simpl. split; [|done].
  apply list_lookup_insert_eq. by eapply lookup_lt_Some.
Qed.

(** In a state with its call in flight, a call holds exactly its targets. *)
Lemma in_flight_held c k p :
  pc_ok c k -> in_flight k = true -> p ∈ targets c <-> p ∈ held k.
Proof.
  unfold targets. destruct k; try done; simpl.
  - intros (fp & -> & ->) _. set_solver.
  - intros (src & dst & -> & -> & ->) _. set_solver.
Qed.

Lemma reachable_preserved (P : world -> Prop) w w' :
  (forall i w, P w -> P (fire i w)) -> P w -> rtc step w w' -> P w'.
Proof.
  intros Hfire HP Hsteps. induction Hsteps as [|w1 w2 w3 [i ->] _ IH]; [done|].
  apply IH. by apply Hfire.
Qed.

Lemma settled_stays c r s : resume c (Settled r) s = (Settled r, s).
Proof. by destruct c. Qed.

(** A transition that settles a locking call either ends its filesystem
    call, and deletes what the call held, or is a refusal of
    [acquireLock], and leaves the table as it is. *)
Lemma settle_exits c k s r s' :
  pc_ok c k -> locking c = true -> (forall r0, k <> Settled r0) ->
  resume c k s = (Settled r, s') ->
  (in_flight k = true
   /\ forall p, fileLocks s' !! p = if decide (p ∈ held k) then None else fileLocks s !! p)
  \/ (in_flight k = false
      /\ exists message, r = Thrown message /\ message ∈ refusals c /\ s' = s).
Proof.
  intros Hok Hlock Hk Hr. destruct (in_flight k) eqn:Hf.
  - left. split; [done|].
    assert (Hleak : owns c (Settled r) = ∅).
    { destruct k; try done; simpl in Hok.
      - destruct Hok as (fp & Hc & _). by rewrite owns_no_leak by by eapply leak_one_path.
      - destruct Hok as (src & dst & Hc & _). destruct c; by simplify_eq/=. }
    destruct (resume_effect _ _ _ _ _ Hok Hr) as [_ [Hh ->|q _ _ Hh|_ HL]].
    + rewrite Hleak, owns_unsettled in Hh by done. intros p.
      rewrite <- Hh. by rewrite decide_False by set_solver.
    + rewrite Hleak in Hh. set_solver.
    + intros p. rewrite HL. by rewrite owns_unsettled.
  - right. split; [done|].
    destruct c as [[fp|]| [fp|]| [fp|]| | | | |[fp|] |[src|] [dst|]|[fp|]]; try done;
      destruct k; try done; simpl in Hr, Hok;
      rewrite ?acquireLock_string, ?acquireLock_refused in Hr;
      unfold acquireLock_loop in Hr;
      repeat case_match; simplify_eq;
      try (by destruct (Hk r));
      (eexists; split; [done|]; split; [unfold refusals; simpl; set_solver|by destruct s]).
Qed.

Lemma in_flight_settles c k s :
  pc_ok c k -> locking c = true -> in_flight k = true ->
  exists r, (resume c k s).1 = Settled r.
Proof.
  intros Hok Hlock Hf. destruct k; try done; destruct c; try done; simpl in *;
    try (destruct Hok as (? & ? & ?); discriminate);
    try (destruct Hok as (? & ? & ? & ? & ?); discriminate);
    unfold locked, writeJSON, readJSON, copyFile, awaited, readFile, writeFile, locked;
    repeat case_match; simplify_eq; simpl; eauto.
Qed.

(** ** The claims about the lock table *)

(** C7. [releaseLock] on a path that is not held leaves the table as it is;
    releasing twice is releasing once; and whatever the table holds for the
    canonical form of the path is gone afterwards, whoever inserted it.
    [releaseLock] is a total function of the table: it has no failure to
    raise. *)
Theorem releaseLock_unheld_noop (filePath : string) (locks : gmap string bool) :
  (locks !! resolve filePath = None -> releaseLock filePath locks = locks)
  /\ releaseLock filePath (releaseLock filePath locks) = releaseLock filePath locks
  /\ releaseLock filePath locks !! resolve filePath = None
  /\ (forall q, q <> resolve filePath -> releaseLock filePath locks !! q = locks !! q).
Proof using Type.
  unfold releaseLock. repeat split.
  - apply delete_id.
  - apply delete_id. apply lookup_delete_eq.
  - apply lookup_delete_eq.
  - intros q Hq. by apply lookup_delete_ne.
Qed.

(** C10. [acquireLock] and [releaseLock] go through the same [resolve], and
    [acquireLock] returns its result. When [acquireLock(P)] completes (at
    the loop test that finds the entry absent, [locks] being the table at
    that test), the table gains exactly the entry of [resolve P], and
    [releaseLock] of [P], or of the returned path, gives [locks] back. *)
Theorem acquire_then_release_restores (filePath lockedPath : string)
    (locks locks' : gmap string bool) :
  acquireLock filePath locks = (Acquired lockedPath, locks') ->
  lockedPath = resolve filePath
  /\ locks !! lockedPath = None
  /\ locks' = <[lockedPath := true]> locks
  /\ releaseLock filePath locks' = locks
  /\ releaseLock lockedPath locks' = locks.
Proof.
  rewrite acquireLock_string. intros Hacq.
  pose proof (acquireLock_loop_spec (resolve filePath) locks) as Hs.
  destruct (acquireLock_loop (resolve filePath) locks) as [[l|] locks1]; [|done].
  injection Hacq as -> ->. destruct Hs as (-> & Hfree & ->).
  repeat split; [done|..].
  - unfold releaseLock. by rewrite delete_insert_id.
  - rewrite releaseLock_canonical. by rewrite delete_insert_id.
Qed.

(** C1. In every state the event loop can reach from calls just issued:
    two calls with a common canonical target never both have their
    filesystem call in flight; while a call has its filesystem call in
    flight its targets are in the table and no other call holds them, so
    another call on the same key starts its I/O only after the release;
    and [acquireLock]'s test and insertion are one transition: it inserts
    only an entry it has just found absent. *)
Theorem same_key_io_never_overlaps (d : Disk) (calls : list call) (w : world) :
  rtc step (initial d calls) w ->
  (forall i j ci ki cj kj p,
     i <> j -> tasks w !! i = Some (ci, ki) -> tasks w !! j = Some (cj, kj) ->
     p ∈ targets ci -> p ∈ targets cj ->
     in_flight ki = true -> in_flight kj = false)
  /\ (forall i j ci ki cj kj p,
        i <> j -> tasks w !! i = Some (ci, ki) -> tasks w !! j = Some (cj, kj) ->
        p ∈ targets ci -> in_flight ki = true ->
        fileLocks (shared w) !! p = Some true /\ p ∉ held kj)
  /\ (forall normalizedPath locks,
        match acquireLock_loop normalizedPath locks with
        | (Some lockedPath, locks') =>
            lockedPath = normalizedPath /\ locks !! normalizedPath = None
            /\ locks' = <[normalizedPath := true]> locks
        | (None, locks') => is_Some (locks !! normalizedPath) /\ locks' = locks
        end).
Proof.
  intros Hreach.
  pose proof (reachable_invariant _ _ (initial_invariant d calls) Hreach)
    as [Iok Iheld Iexcl _].
  split; [|split].
  - intros i j ci ki cj kj p Hne Hi Hj Hpi Hpj Hfi.
    destruct (in_flight kj) eqn:Hfj; [|done]. exfalso.
    apply (in_flight_held _ _ _ (Iok _ _ _ Hi) Hfi) in Hpi.
    apply (in_flight_held _ _ _ (Iok _ _ _ Hj) Hfj) in Hpj.
    eapply (Iexcl i j); eauto using held_owns.
  - intros i j ci ki cj kj p Hne Hi Hj Hpi Hfi.
    apply (in_flight_held _ _ _ (Iok _ _ _ Hi) Hfi) in Hpi.
    split; [by apply (Iheld _ _ _ _ Hi), held_owns|].
    intros Hpj. eapply (Iexcl i j); eauto using held_owns.
  - apply acquireLock_loop_spec.
Qed.

Lemma copyFile_self_blocked (source destination : string) k s :
  resolve source = resolve destination ->
  self_blocked (resolve source) k ->
  (forall p, p ∈ held k -> fileLocks s !! p = Some true) ->
  self_blocked (resolve source) (copyFile source destination k s).1
  /\ (k = AwaitLock (resolve source) \/ k = AwaitTimer2 (resolve source) (resolve source) ->
      copyFile source destination k s
      = (AwaitTimer2 (resolve source) (resolve source), s)).
Proof.
  intros Hsame Hk Hheld. unfold self_blocked in *.
  destruct Hk as [ -> | [ -> | [ -> | -> ]]]; simpl in *.
  - split; [|by intros [|]]. rewrite acquireLock_string. unfold acquireLock_loop.
    destruct (fileLocks s !! resolve source); simpl; eauto.
  - split; [|by intros [|]]. unfold acquireLock_loop.
    destruct (fileLocks s !! resolve source); simpl; eauto.
  - rewrite acquireLock_string. unfold acquireLock_loop. rewrite <- Hsame.
    rewrite (Hheld (resolve source)) by set_solver. simpl.
    split; [eauto|]. intros _. by destruct s.
  - unfold acquireLock_loop. rewrite (Hheld (resolve source)) by set_solver. simpl.
    split; [eauto|]. intros _. by destruct s.
Qed.

(** C9. A [copyFile] whose two paths have the same canonical form never
    has its copy in flight and never settles, in any state the event loop
    can reach; once it holds the source lock, each of its transitions finds
    that entry in the table, changes nothing and leaves it waiting for the
    destination lock. *)
Theorem copyFile_same_key_never_completes (d : Disk) (calls : list call)
    (w : world) (i : nat) (source destination : string) (k : pc) :
  rtc step (initial d calls) w ->
  resolve source = resolve destination ->
  tasks w !! i = Some (CopyFile source destination, k) ->
  (in_flight k = false /\ forall r, k <> Settled r)
  /\ (k = AwaitLock (resolve source) \/ k = AwaitTimer2 (resolve source) (resolve source) ->
      fileLocks (shared w) !! resolve source = Some true
      /\ tasks (fire i w) !! i
         = Some (CopyFile source destination,
                 AwaitTimer2 (resolve source) (resolve source))
      /\ shared (fire i w) = shared w).
Proof.
  intros Hreach Hsame Hi.
  set (P := fun w : world =>
    invariant w /\
    forall i (source destination : string) k,
      resolve source = resolve destination ->
      tasks w !! i = Some (CopyFile source destination, k) ->
      self_blocked (resolve source) k).
  assert (HP : P w).
  { eapply (reachable_preserved P); [| |exact Hreach].
    - clear dependent w. clear dependent k.
      intros j w [Hinv Hblk]. split; [by apply fire_invariant|].
      intros a src dst k Hsame' Ha. destruct (decide (a = j)) as [->|Hne].
      + destruct (tasks w !! j) as [[c0 k0]|] eqn:Hj.
        * destruct (fire_self _ _ _ _ Hj) as [Hj' _]. rewrite Hj' in Ha.
          simplify_eq. simpl.
          eapply copyFile_self_blocked; [done|by eapply Hblk|].
          intros p Hp. by eapply (inv_held w Hinv), held_owns.
        * unfold fire in Ha. rewrite Hj in Ha. congruence.
      + rewrite fire_other in Ha by done. by eapply Hblk.
    - split; [apply initial_invariant|].
      intros j src dst k0 _ [c' [? _]]%list_lookup_fmap_Some. simplify_eq.
      by left. }
  destruct HP as [Hinv Hblk]. pose proof (Hblk _ _ _ _ Hsame Hi) as Hk.
  split.
  - destruct Hk as [ -> | [ -> | [ -> | -> ]]]; done.
  - intros Hheld.
    assert (Hin : forall p, p ∈ held k -> fileLocks (shared w) !! p = Some true).
    { intros p Hp. by eapply (inv_held w Hinv), held_owns. }
    destruct (copyFile_self_blocked source destination k (shared w) Hsame Hk Hin)
      as [_ Hstay]. specialize (Hstay Hheld).
    destruct (fire_self _ _ _ _ Hi) as [Hi' Hs']. simpl in *.
    rewrite Hstay in Hi', Hs'. split; [|done].
    apply Hin. destruct Hheld as [ -> | -> ]; set_solver.
Qed.

(** ** A call run on its own *)

Lemma run_step fuel c k s :
  (forall r, k <> Settled r) ->
  run (S fuel) c k s = run fuel c (resume c k s).1 (resume c k s).2.
Proof.
  intros Hk. simpl. destruct (resume c k s) as [k' s'].
  destruct k; try done. by destruct (Hk r).
Qed.

Lemma run_settled fuel c r s : run fuel c (Settled r) s = Some (r, s).
Proof. by destruct fuel. Qed.

Lemma run_locked {A} c (filePath : string)
    (primitive : string -> Disk -> outcome A * Disk) ret prefix s :
  resume c = locked filePath primitive ret prefix ->
  fileLocks s !! resolve filePath = None ->
  run 3 c Start s
  = Some (rethrow (primitive (resolve filePath) (disk s)).1 ret prefix filePath,
          Store (fileLocks s) (primitive (resolve filePath) (disk s)).2).
Proof.
  intros Hc Hfree. simpl. rewrite Hc. simpl.
  rewrite acquireLock_string. unfold acquireLock_loop. rewrite Hfree. simpl.
  destruct (primitive (resolve filePath) (disk s)) as [r d'] eqn:Hp. simpl.
  rewrite releaseLock_canonical. by rewrite delete_insert_id.
Qed.

Lemma run_readJSON (filePath : string) s :
  fileLocks s !! resolve filePath = None ->
  run 4 (ReadJSON filePath) Start s
  = Some (match (fs_readFile (resolve filePath) "utf8" (disk s)).1 with
          | Returned data =>
              match JSON_parse data with
              | Returned v => Returned (RValue v)
              | Thrown message =>
                  Thrown ("Failed to parse JSON from " +:+ filePath +:+ ": " +:+ message)
              end
          | Thrown message =>
              Thrown ("Failed to read file " +:+ filePath +:+ ": " +:+ message)
          end,
          Store (fileLocks s) (fs_readFile (resolve filePath) "utf8" (disk s)).2).
Proof.
  intros Hfree. simpl. rewrite acquireLock_string. unfold acquireLock_loop.
  rewrite Hfree. simpl.
  destruct (fs_readFile (resolve filePath) "utf8" (disk s)) as [[data|message] d'];
    simpl; rewrite releaseLock_canonical, delete_insert_id by done.
  - by destruct (JSON_parse data).
  - done.
Qed.

Lemma run_writeJSON (filePath : string) obj space s :
  fileLocks s !! resolve filePath = None ->
  run 4 (WriteJSON filePath obj space) Start s
  = match JSON_stringify obj space with
    | Thrown message =>
        Some (Thrown ("Failed to write JSON to " +:+ filePath +:+ ": " +:+ message), s)
    | Returned data =>
        let io := with_data fs_writeFile data "utf8" (resolve filePath) (disk s) in
        Some (match io.1 with
              | Returned _ => Returned (RBool true)
              | Thrown message =>
                  Thrown ("Failed to write JSON to " +:+ filePath +:+ ": "
                            +:+ "Failed to write file " +:+ filePath +:+ ": " +:+ message)
              end,
              Store (fileLocks s) io.2)
    end.
Proof.
  intros Hfree. destruct (JSON_stringify obj space) as [data|message] eqn:Hdata.
  - rewrite run_step by done. cbn [resume writeJSON]. rewrite Hdata.
    cbn [writeFile locked awaited]. rewrite acquireLock_string.
    unfold acquireLock_loop.
    rewrite Hfree. cbn [awaited fst snd fileLocks disk].
    rewrite run_step by done. cbn [resume writeJSON]. rewrite Hdata.
    cbn [writeFile locked awaited fst snd fileLocks disk].
    rewrite run_step by done. cbn [resume writeJSON]. rewrite Hdata.
    cbn [writeFile locked awaited fst snd fileLocks disk].
    destruct (with_data fs_writeFile data "utf8" (resolve filePath) (disk s))
      as [[[]|message] d']; cbn [awaited rethrow fst snd];
      rewrite run_step by done; cbn [resume writeJSON rethrow fst snd];
      rewrite run_settled;
      by rewrite releaseLock_canonical, delete_insert_id.
  - rewrite run_step by done. cbn [resume writeJSON]. rewrite Hdata.
    cbn [fst snd]. by rewrite run_settled.
Qed.

Lemma run_copyFile (source destination : string) s :
  fileLocks s !! resolve source = None ->
  fileLocks s !! resolve destination = None ->
  resolve source <> resolve destination ->
  exists r,
    run 4 (CopyFile source destination) Start s
    = Some (r, Store (fileLocks s)
                 (fs_copyFile (resolve source) (resolve destination) (disk s)).2).
Proof.
  intros Hs Hd Hne.
  rewrite run_step by done. cbn [resume copyFile].
  rewrite acquireLock_string. unfold acquireLock_loop. rewrite Hs.
  cbn [fst snd fileLocks disk].
  rewrite run_step by done. cbn [resume copyFile fileLocks disk].
  rewrite acquireLock_string. unfold acquireLock_loop.
  rewrite lookup_insert_ne, Hd by done.
  cbn [fst snd fileLocks disk].
  rewrite run_step by done. cbn [resume copyFile fst snd].
  rewrite run_step by done. cbn [resume copyFile fileLocks disk].
  destruct (fs_copyFile (resolve source) (resolve destination) (disk s)) as [r d'].
  cbn [fst snd]. rewrite run_settled. eexists. do 2 f_equal.
  rewrite !releaseLock_canonical.
  rewrite (insert_insert_ne (fileLocks s)) by done.
  rewrite delete_insert_id by by rewrite lookup_insert_ne.
  by rewrite delete_insert_id.
Qed.

(** Firing one call [fuel] times in a row is running it on its own. *)
Lemma run_schedule_alone fuel i c k w r s' :
  tasks w !! i = Some (c, k) ->
  run fuel c k (shared w) = Some (r, s') ->
  run_schedule (replicate fuel i) w = World s' (<[i := (c, Settled r)]> (tasks w)).
Proof.
  revert k w. induction fuel as [|fuel IH]; intros k w Hi Hrun.
  - destruct k; try done. simpl in Hrun. simplify_eq. destruct w as [sh ts]. simpl in *.
    by rewrite list_insert_id.
  - simpl. destruct (fire_self _ _ _ _ Hi) as [Hi' Hs'].
    assert (Hcases : (exists r0, k = Settled r0) \/ forall r0, k <> Settled r0)
      by (destruct k; eauto).
    destruct Hcases as [[r0 ->]|Hk].
    + rewrite run_settled in Hrun. simplify_eq.
      rewrite settled_stays in Hi', Hs'. simpl in *.
      rewrite (IH (Settled r) (fire i w)); [|done|by rewrite Hs', run_settled].
      f_equal. unfold fire. rewrite Hi, settled_stays. simpl.
      by rewrite list_insert_insert_eq.
    + rewrite run_step in Hrun by done.
      rewrite (IH _ (fire i w) Hi'); [|by rewrite Hs'].
      f_equal. unfold fire. rewrite Hi.
      destruct (resume c k (shared w)) as [k' s1]. simpl.
      by rewrite list_insert_insert_eq.
Qed.

(** ** The claims about failures *)

(** C8. [exists] settles with [true] when [fs.access] succeeds and with
    [false] whatever it throws: it never throws itself. None of its
    transitions changes the lock table, and none depends on it. *)
Theorem exists_never_fails (filePath : string) (s : store) :
  run 2 (Exists filePath) Start s
  = Some (Returned (RBool match (fs_access filePath (disk s)).1 with
                          | Returned _ => true
                          | Thrown _ => false
                          end),
          Store (fileLocks s) (fs_access filePath (disk s)).2)
  /\ (forall k s0, fileLocks (exists_ filePath k s0).2 = fileLocks s0)
  /\ (forall k locks locks' d,
        (exists_ filePath k (Store locks d)).1 = (exists_ filePath k (Store locks' d)).1
        /\ disk (exists_ filePath k (Store locks d)).2
           = disk (exists_ filePath k (Store locks' d)).2).
Proof using Type.
  split; [|split].
  - simpl. by destruct (fs_access filePath (disk s)).
  - intros k s0. destruct k; simpl; try done. by destruct (fs_access filePath (disk s0)).
  - intros k locks locks' d. destruct k; simpl; try done.
    by destruct (fs_access filePath d).
Qed.

(** C4. [readJSON] run on a path whose lock is free: when the underlying
    read throws, it throws [readFile]'s failure, tagged [ReadError] and not
    [ParseError]; when the read succeeds and [JSON.parse] throws on the
    content, it throws a failure tagged [ParseError] and not [ReadError].
    Either way the lock table is as before. *)
Theorem readJSON_failures_are_distinct (filePath : string) (s : store) :
  fileLocks s !! resolve filePath = None ->
  (forall cause d',
     fs_readFile (resolve filePath) "utf8" (disk s) = (Thrown cause, d') ->
     exists message,
       run 4 (ReadJSON filePath) Start s = Some (Thrown message, Store (fileLocks s) d')
       /\ message = "Failed to read file " +:+ filePath +:+ ": " +:+ cause
       /\ kind_of message = Some ReadError)
  /\ (forall data cause d',
        fs_readFile (resolve filePath) "utf8" (disk s) = (Returned data, d') ->
        JSON_parse data = Thrown cause ->
        exists message,
          run 4 (ReadJSON filePath) Start s = Some (Thrown message, Store (fileLocks s) d')
          /\ message = "Failed to parse JSON from " +:+ filePath +:+ ": " +:+ cause
          /\ kind_of message = Some ParseError).
Proof.
  intros Hfree. split.
  - intros cause d' Hread. eexists. split; [|split; [reflexivity|]].
    + rewrite run_readJSON by done. by rewrite Hread.
    + reflexivity.
  - intros data cause d' Hread Hparse. eexists. split; [|split; [reflexivity|]].
    + rewrite run_readJSON by done. rewrite Hread. simpl. by rewrite Hparse.
    + reflexivity.
Qed.

(** C5, as the code has it. [writeJSON] run on a path whose lock is free
    throws both of its failures under one phrase, the one of [writeJSON]
    itself (tagged [SerializeError]): when [JSON.stringify] throws, with
    the serializer's message as the cause and the store untouched; when the
    value serializes and the underlying write throws, with [writeFile]'s
    own failure, tagged [WriteError], as the cause. *)
Theorem writeJSON_failures_share_one_tag (filePath : string) (obj : value)
    (space : Z) (s : store) :
  fileLocks s !! resolve filePath = None ->
  (forall cause,
     JSON_stringify obj space = Thrown cause ->
     exists message,
       run 4 (WriteJSON filePath obj space) Start s = Some (Thrown message, s)
       /\ message = "Failed to write JSON to " +:+ filePath +:+ ": " +:+ cause
       /\ kind_of message = Some SerializeError)
  /\ (forall data cause d',
        JSON_stringify obj space = Returned data ->
        with_data fs_writeFile data "utf8" (resolve filePath) (disk s)
          = (Thrown cause, d') ->
        exists message inner,
          run 4 (WriteJSON filePath obj space) Start s
            = Some (Thrown message, Store (fileLocks s) d')
          /\ message = "Failed to write JSON to " +:+ filePath +:+ ": " +:+ inner
          /\ inner = "Failed to write file " +:+ filePath +:+ ": " +:+ cause
          /\ kind_of message = Some SerializeError
          /\ kind_of inner = Some WriteError).
Proof.
  intros Hfree. split.
  - intros cause Hthrow. eexists. split; [|split; reflexivity].
    rewrite run_writeJSON by done. by rewrite Hthrow.
  - intros data cause d' Hdata Hwrite. eexists _, _.
    split; [|split; [reflexivity|split; [reflexivity|split; reflexivity]]].
    rewrite run_writeJSON by done. rewrite Hdata. cbv zeta. by rewrite Hwrite.
Qed.

Lemma run_schedule_reachable schedule w : rtc step w (run_schedule schedule w).
Proof.
  revert w. induction schedule as [|i schedule IH]; intros w; [done|].
  simpl. eapply rtc_l; [by exists i|]. apply IH.
Qed.

(** Each of two reversed copies holds its source and waits for its
    destination: no transition changes that. *)
Lemma crossed_copies_stuck (A B : string) (w w' : world) :
  tasks w = [(CopyFile A B, AwaitTimer2 (resolve A) (resolve B));
             (CopyFile B A, AwaitTimer2 (resolve B) (resolve A))] ->
  is_Some (fileLocks (shared w) !! resolve A) ->
  is_Some (fileLocks (shared w) !! resolve B) ->
  rtc step w w' ->
  tasks w' = tasks w.
Proof using Type.
  intros Ht HA HB Hreach. rewrite Ht.
  set (P := fun w : world =>
    tasks w = [(CopyFile A B, AwaitTimer2 (resolve A) (resolve B));
               (CopyFile B A, AwaitTimer2 (resolve B) (resolve A))]
    /\ is_Some (fileLocks (shared w) !! resolve A)
    /\ is_Some (fileLocks (shared w) !! resolve B)).
  enough (HP : P w') by apply HP.
  eapply (reachable_preserved P); [| |exact Hreach]; [|done].
  clear. intros i w (Ht & [x Ha] & [y Hb]). unfold P, fire. rewrite Ht.
  destruct i as [|[|i]]; simpl; unfold acquireLock_loop.
  - rewrite Hb. simpl. rewrite Ha, Hb. eauto.
  - rewrite Ha. simpl. rewrite Ha, Hb. eauto.
  - rewrite Ht, Ha, Hb. eauto.
Qed.

(** The schedule that crosses them: each call runs up to its source
    lock, then asks for its destination. *)
Lemma crossed_copies_schedule (d : Disk) (A B : string) :
  resolve A <> resolve B ->
  run_schedule [0; 1; 0; 1]%nat (initial d [CopyFile A B; CopyFile B A])
  = World (Store (<[resolve B := true]> (<[resolve A := true]> ∅)) d)
      [(CopyFile A B, AwaitTimer2 (resolve A) (resolve B));
       (CopyFile B A, AwaitTimer2 (resolve B) (resolve A))].
Proof using Type.
  intros Hne. unfold run_schedule. cbn [fold_left].
  set (cAB := CopyFile A B). set (cBA := CopyFile B A).
  assert (H1 : fire 0 (initial d [cAB; cBA])
               = World (Store (<[resolve A := true]> ∅) d)
                   [(cAB, AwaitLock (resolve A)); (cBA, Start)]).
  { unfold fire, initial. simpl. unfold acquireLock, path_resolve, acquireLock_loop.
    by rewrite lookup_empty. }
  rewrite H1. clear H1.
  assert (H2 : forall L, L !! resolve B = None ->
            fire 1 (World (Store L d) [(cAB, AwaitLock (resolve A)); (cBA, Start)])
            = World (Store (<[resolve B := true]> L) d)
                [(cAB, AwaitLock (resolve A)); (cBA, AwaitLock (resolve B))]).
  { intros L HL. unfold fire. simpl. unfold acquireLock, path_resolve, acquireLock_loop.
    by rewrite HL. }
  rewrite H2 by by rewrite lookup_insert_ne, lookup_empty. clear H2.
  assert (H3 : forall L kB, is_Some (L !! resolve B) ->
            fire 0 (World (Store L d) [(cAB, AwaitLock (resolve A)); (cBA, kB)])
            = World (Store L d)
                [(cAB, AwaitTimer2 (resolve A) (resolve B)); (cBA, kB)]).
  { intros L kB [x HL]. unfold fire. simpl. unfold acquireLock, path_resolve, acquireLock_loop.
    by rewrite HL. }
  rewrite H3 by (rewrite lookup_insert_eq; eauto). clear H3.
  assert (H4 : forall L kA, is_Some (L !! resolve A) ->
            fire 1 (World (Store L d) [(cAB, kA); (cBA, AwaitLock (resolve B))])
            = World (Store L d)
                [(cAB, kA); (cBA, AwaitTimer2 (resolve B) (resolve A))]).
  { intros L kA [x HL]. unfold fire. simpl. unfold acquireLock, path_resolve, acquireLock_loop.
    by rewrite HL. }
  by rewrite H4 by (rewrite lookup_insert_ne, lookup_insert_eq by done; eauto).
Qed.

(** C2, as the code has it. [copyFile(A, B)] and [copyFile(B, A)] on two
    distinct keys, issued together. Source-then-destination is an order
    per call, not one order for all calls: when each call takes its source
    lock before the other asks for its destination, both wait for ever,
    whatever runs afterwards; when one call runs to its end before the
    other starts, both settle and the table is empty again. *)
Theorem reversed_copies_can_deadlock (d : Disk) (A B : string) :
  resolve A <> resolve B ->
  let w0 := initial d [CopyFile A B; CopyFile B A] in
  (forall w',
     rtc step (run_schedule [0; 1; 0; 1]%nat w0) w' ->
     tasks w' = [(CopyFile A B, AwaitTimer2 (resolve A) (resolve B));
                 (CopyFile B A, AwaitTimer2 (resolve B) (resolve A))])
  /\ (exists r0 r1 d',
        run_schedule [0; 0; 0; 0; 1; 1; 1; 1]%nat w0
        = World (Store ∅ d') [(CopyFile A B, Settled r0); (CopyFile B A, Settled r1)]).
Proof.
  intros Hne w0. split.
  - intros w' Hreach. unfold w0 in Hreach.
    rewrite crossed_copies_schedule in Hreach by done.
    eapply crossed_copies_stuck in Hreach; simpl; try done.
    + rewrite lookup_insert_ne, lookup_insert_eq by done. eauto.
    + rewrite lookup_insert_eq. eauto.
  - change [0; 0; 0; 0; 1; 1; 1; 1]%nat with (replicate 4 0%nat ++ replicate 4 1%nat)%list.
    unfold run_schedule. rewrite fold_left_app.
    fold (run_schedule (replicate 4 0%nat) w0).
    destruct (run_copyFile A B (shared w0)) as [r0 Hr0];
      [apply lookup_empty..|done|].
    erewrite (run_schedule_alone 4 0 _ _ w0) by (done || exact Hr0).
    set (w1 := World _ _).
    fold (run_schedule (replicate 4 1%nat) w1).
    destruct (run_copyFile B A (shared w1)) as [r1 Hr1];
      [apply lookup_empty..|done|].
    erewrite (run_schedule_alone 4 1 _ _ w1) by (done || exact Hr1).
    by eexists _, _, _.
Qed.

(** ** Two small schedules, run symbolically *)

(** Two single-path calls on one key: the first is scheduled as far as
    its filesystem call, the second finds the entry and waits. *)
Lemma contended_schedule (d : Disk) (c0 c1 : call) (p0 p1 : string)
    {A0 A1} (io0 : string -> Disk -> outcome A0 * Disk) ret0 prefix0
    (io1 : string -> Disk -> outcome A1 * Disk) ret1 prefix1 :
  resume c0 = locked p0 io0 ret0 prefix0 ->
  resume c1 = locked p1 io1 ret1 prefix1 ->
  resolve p1 = resolve p0 ->
  run_schedule [0; 1; 0; 1]%nat (initial d [c0; c1])
  = World (Store (<[resolve p0 := true]> ∅) d)
      [(c0, AwaitIO (resolve p0)); (c1, AwaitTimer (resolve p0))].
Proof using Type.
  intros H0 H1 Hkey. unfold run_schedule, initial, fire. simpl.
  rewrite H0. simpl. unfold acquireLock, path_resolve, acquireLock_loop. rewrite lookup_empty.
  simpl. rewrite H1. simpl. unfold acquireLock, path_resolve, acquireLock_loop.
  rewrite Hkey, lookup_insert_eq. simpl. rewrite H0. simpl. rewrite H1. simpl.
  unfold acquireLock_loop. by rewrite lookup_insert_eq.
Qed.

(** One single-path call, scheduled as far as its filesystem call, and the
    transition that ends it. *)
Lemma lone_schedule (d : Disk) (c : call) (p : string)
    {A} (io : string -> Disk -> outcome A * Disk) ret prefix :
  resume c = locked p io ret prefix ->
  run_schedule [0; 0]%nat (initial d [c])
  = World (Store (<[resolve p := true]> ∅) d) [(c, AwaitIO (resolve p))]
  /\ fire 0 (World (Store (<[resolve p := true]> ∅) d) [(c, AwaitIO (resolve p))])
     = World (Store ∅ (io (resolve p) d).2)
         [(c, Settled (rethrow (io (resolve p) d).1 ret prefix p))].
Proof.
  intros Hc. split.
  - unfold run_schedule, initial, fire. simpl.
    rewrite Hc. simpl. unfold acquireLock, path_resolve, acquireLock_loop. rewrite lookup_empty.
    simpl. by rewrite Hc.
  - unfold fire. simpl. rewrite Hc. simpl.
    destruct (io (resolve p) d) as [r d']. simpl.
    rewrite releaseLock_canonical. by rewrite delete_insert_id.
Qed.

(** A copy onto its own key, scheduled past its source lock. *)
Lemma self_copy_schedule (d : Disk) (source destination : string) :
  resolve source = resolve destination ->
  run_schedule [0; 0]%nat (initial d [CopyFile source destination])
  = World (Store (<[resolve source := true]> ∅) d)
      [(CopyFile source destination,
        AwaitTimer2 (resolve source) (resolve source))].
Proof using Type.
  intros Hkey. unfold run_schedule, initial, fire. simpl.
  unfold acquireLock, path_resolve, acquireLock_loop. rewrite lookup_empty. simpl.
  unfold acquireLock, path_resolve, acquireLock_loop. rewrite <- Hkey, lookup_insert_eq. done.
Qed.

(** * Beyond the claims *)

(** ** The table and the calls that hold it *)

(** The calls of a process are the calls it was started with. *)
Lemma reachable_calls (d : Disk) (calls : list call) (w : world) :
  rtc step (initial d calls) w -> (tasks w).*1 = calls.
Proof using Type.
  intros Hreach.
  eapply (reachable_preserved (fun w => (tasks w).*1 = calls)); [| |exact Hreach].
  - clear. intros i w Hcalls. unfold fire.
    destruct (tasks w !! i) as [[c k]|] eqn:Hi; [|done].
    destruct (resume c k (shared w)) as [k' s']. simpl.
    rewrite list_fmap_insert. simpl. rewrite list_insert_id; [done|].
    by rewrite list_lookup_fmap, Hi.
  - simpl. rewrite <- list_fmap_compose. by rewrite list_fmap_id.
Qed.

(** X1. In every state the event loop can reach, a path is in the lock
    table exactly when some call holds it or has left it behind, as a
    [copyFile] does that was refused its destination after it took its
    source. So once every call has settled the table holds the keys of
    such sources and nothing else: it is empty when no call is a
    [copyFile] of a string to something that is not one. *)
Theorem table_is_what_calls_hold (d : Disk) (calls : list call) (w : world) :
  rtc step (initial d calls) w ->
  (forall p,
     is_Some (fileLocks (shared w) !! p)
     <-> exists i c k, tasks w !! i = Some (c, k) /\ (p ∈ held k \/ p ∈ leaked c k))
  /\ ((forall i c k, tasks w !! i = Some (c, k) -> exists r, k = Settled r) ->
      (forall p,
         is_Some (fileLocks (shared w) !! p) <-> exists c, c ∈ calls /\ leak c = Some p)
      /\ ((forall c, c ∈ calls -> leak c = None) -> fileLocks (shared w) = ∅)).
Proof.
  intros Hreach.
  pose proof (reachable_invariant _ _ (initial_invariant d calls) Hreach)
    as [_ Iheld _ Iowned].
  pose proof (reachable_calls d calls w Hreach) as Hcalls.
  assert (Hin : forall i c k, tasks w !! i = Some (c, k) -> c ∈ calls).
  { intros i c k Hi. rewrite <- Hcalls. apply list_elem_of_fmap.
    exists (c, k). split; [done|]. by eapply list_elem_of_lookup_2. }
  split.
  - intros p. split.
    + intros Hp. destruct (Iowned p Hp) as (i & c & k & Hi & Ho).
      exists i, c, k. split; [done|]. unfold owns in Ho. by apply elem_of_union in Ho.
    + intros (i & c & k & Hi & Hp). rewrite (Iheld _ _ _ _ Hi); [eauto|].
      unfold owns. by apply elem_of_union.
  - intros Hall.
    assert (Hleft : forall p,
              is_Some (fileLocks (shared w) !! p) <-> exists c, c ∈ calls /\ leak c = Some p).
    { intros p. split.
      - intros Hp. destruct (Iowned p Hp) as (i & c & k & Hi & Ho).
        destruct (Hall _ _ _ Hi) as [r ->]. exists c. split; [by eapply Hin|].
        unfold owns, leaked in Ho. simpl in Ho.
        destruct (leak c) as [q|]; set_solver.
      - intros (c & Hc & Hp). rewrite <- Hcalls in Hc.
        apply list_elem_of_fmap in Hc as ([c' k] & -> & Hck).
        apply list_elem_of_lookup_1 in Hck as [i Hi].
        destruct (Hall _ _ _ Hi) as [r ->].
        rewrite (Iheld _ _ _ _ Hi); [eauto|].
        unfold owns, leaked. simpl in *. rewrite Hp. set_solver. }
    split; [done|]. intros Hnone. apply map_eq. intros p. rewrite lookup_empty.
    destruct (fileLocks (shared w) !! p) as [b|] eqn:Hp; [|done].
    destruct (proj1 (Hleft p)) as (c & Hc & Hl); [by rewrite Hp|].
    rewrite (Hnone c Hc) in Hl. done.
Qed.

(** ** Calls run one after another *)

Lemma run_more fuel extra c k s x :
  run fuel c k s = Some x -> run (fuel + extra) c k s = Some x.
Proof.
  revert k s. induction fuel as [|fuel IH]; intros k s Hrun.
  - destruct k; try done. simpl in Hrun. by rewrite run_settled.
  - assert (Hcases : (exists r0, k = Settled r0) \/ forall r0, k <> Settled r0)
      by (destruct k; eauto).
    destruct Hcases as [[r0 ->]|Hk].
    + rewrite run_settled in Hrun. by rewrite run_settled.
    + rewrite run_step in Hrun by done.
      change (S fuel + extra)%nat with (S (fuel + extra)). rewrite run_step by done.
      by apply IH.
Qed.

(** X2. A call whose targets are free (and, for [copyFile], distinct)
    settles within four transitions when run on its own, returning or
    throwing, and leaves the lock table exactly as it found it: the next
    call on the same path is not blocked. The one exception is the
    [copyFile] of a string to something that is not one: it settles as
    well, and leaves the key of its source in the table. *)
Theorem free_call_settles_and_restores (c : call) (s : store) :
  (forall p, p ∈ targets c -> fileLocks s !! p = None) ->
  NoDup (targets c) ->
  exists r s',
    run 4 c Start s = Some (r, s')
    /\ fileLocks s' = match leak c with
                      | Some sourceLock => <[sourceLock := true]> (fileLocks s)
                      | None => fileLocks s
                      end.
Proof.
  intros Hfree Hdup.
  assert (Hone : forall filePath : string, targets c = [resolve filePath] ->
            fileLocks s !! resolve filePath = None).
  { intros filePath Ht. apply Hfree. rewrite Ht. apply list_elem_of_here. }
  destruct c as [[filePath|]?|[filePath|]??|[filePath|]??|filePath|dirPath
                 |[filePath|]|[filePath|]??|[filePath|]|[source|] [destination|]
                 |[filePath|]];
    unfold targets in *; cbn [lock_paths omap list_omap canonical path_resolve] in *.
  - eexists _, _.
    split; [apply (run_more 3 1);
            eapply (run_locked (ReadFile filePath options)); [reflexivity|by apply Hone]
           |reflexivity].
  - eexists _, _. split; [reflexivity|reflexivity].
  - eexists _, _.
    split; [apply (run_more 3 1);
            eapply (run_locked (WriteFile filePath data options)); [reflexivity|by apply Hone]
           |reflexivity].
  - eexists _, _. split; [reflexivity|reflexivity].
  - eexists _, _.
    split; [apply (run_more 3 1);
            eapply (run_locked (AppendFile filePath data options)); [reflexivity|by apply Hone]
           |reflexivity].
  - eexists _, _. split; [reflexivity|reflexivity].
  - destruct (fs_access filePath (disk s)) as [r d'] eqn:Hio.
    eexists _, _. split; [simpl; by rewrite Hio|reflexivity].
  - destruct (fs_mkdir dirPath (disk s)) as [r d'] eqn:Hio.
    eexists _, _. split; [simpl; by rewrite Hio|reflexivity].
  - eexists _, _. split; [by apply run_readJSON, Hone|reflexivity].
  - eexists _, _. split; [reflexivity|reflexivity].
  - rewrite run_writeJSON by by apply Hone.
    destruct (JSON_stringify obj space); eexists _, _; by split.
  - simpl. destruct (JSON_stringify obj space); eexists _, _; by split.
  - eexists _, _.
    split; [apply (run_more 3 1);
            eapply (run_locked (GetStats filePath)); [reflexivity|by apply Hone]
           |reflexivity].
  - eexists _, _. split; [reflexivity|reflexivity].
  - apply NoDup_cons in Hdup as [Hne _].
    destruct (run_copyFile source destination s) as [r Hr].
    + apply Hfree. apply list_elem_of_here.
    + apply Hfree. apply list_elem_of_further, list_elem_of_here.
    + intros Heq. apply Hne. rewrite Heq. apply list_elem_of_here.
    + eexists _, _. by split.
  - eexists _, _. split.
    + simpl. unfold acquireLock, path_resolve, acquireLock_loop.
      rewrite (Hone source) by done. reflexivity.
    + reflexivity.
  - eexists _, _. split; [reflexivity|reflexivity].
  - eexists _, _. split; [reflexivity|reflexivity].
  - eexists _, _.
    split; [apply (run_more 3 1);
            eapply (run_locked (DeleteFile filePath)); [reflexivity|by apply Hone]
           |reflexivity].
  - eexists _, _. split; [reflexivity|reflexivity].
Qed.

(** ** Calls that find a key taken *)

(** A call that is not settled and whose next transition changes nothing
    never settles. *)
Lemma run_stuck fuel c k s :
  (forall r, k <> Settled r) -> resume c k s = (k, s) -> run fuel c k s = None.
Proof.
  intros Hk Hfix. induction fuel as [|fuel IH].
  - destruct k; try done. by destruct (Hk r).
  - rewrite run_step by done. by rewrite Hfix.
Qed.

Lemma resumes_stuck n c k s : resume c k s = (k, s) -> resumes n c k s = (k, s).
Proof. intros Hfix. induction n as [|n IH]; [done|]. simpl. by rewrite Hfix. Qed.

Lemma resumes_S n c k s :
  resumes (S n) c k s = resumes n c (resume c k s).1 (resume c k s).2.
Proof. simpl. by destruct (resume c k s). Qed.

(** The loop of [acquireLock] on a key that is in the table: the caller is
    suspended again, and nothing has changed. *)
Lemma wait_again c (p : arg) key s :
  waits_for_lock c = true -> lock_paths c = p :: [] \/ (exists q, lock_paths c = [p; q]) ->
  is_Some (fileLocks s !! key) ->
  resume c (AwaitTimer key) s = (AwaitTimer key, s).
Proof using Type.
  intros Hw Hp [x Hx]. destruct s as [locks d]. simpl in Hx.
  destruct c; try done; simpl in *; unfold acquireLock_loop; rewrite ?Hx; try done.
  by destruct (JSON_stringify obj space).
Qed.

Lemma wait_start c (p : string) rest s :
  waits_for_lock c = true -> lock_paths c = Str p :: rest ->
  is_Some (fileLocks s !! resolve p) ->
  resume c Start s = (AwaitTimer (resolve p), s).
Proof using Type.
  intros Hw Hp [x Hx]. destruct s as [locks d]. simpl in Hx.
  destruct c; try done; simpl in *; simplify_eq;
    unfold acquireLock, path_resolve, acquireLock_loop; rewrite ?Hx; try done.
  by destruct (JSON_stringify obj space).
Qed.

(** A call whose first key is taken waits for it, for ever when nothing
    else runs. *)
Lemma run_first_key_taken c (p : string) rest s fuel :
  waits_for_lock c = true -> lock_paths c = Str p :: rest ->
  is_Some (fileLocks s !! resolve p) ->
  run fuel c Start s = None.
Proof using Type.
  intros Hw Hp Hheld. destruct fuel as [|fuel]; [done|].
  rewrite run_step by done. rewrite (wait_start c p rest) by done. simpl.
  apply run_stuck; [done|]. eapply wait_again; [done| |done].
  destruct c; simpl in *; simplify_eq; eauto.
Qed.

(** [copyFile] past its source lock, with the key of its destination in
    the table. *)
Lemma copy_waits (source destination : string) s :
  fileLocks s !! resolve source = None ->
  is_Some (<[resolve source := true]> (fileLocks s) !! resolve destination) ->
  let s1 := Store (<[resolve source := true]> (fileLocks s)) (disk s) in
  let k2 := AwaitTimer2 (resolve source) (resolve destination) in
  resume (CopyFile source destination) Start s = (AwaitLock (resolve source), s1)
  /\ resume (CopyFile source destination) (AwaitLock (resolve source)) s1 = (k2, s1)
  /\ resume (CopyFile source destination) k2 s1 = (k2, s1).
Proof using Type.
  intros Hs [x Hd] s1 k2. simpl. unfold acquireLock, path_resolve, acquireLock_loop.
  rewrite Hs. simpl. by rewrite Hd.
Qed.

(** X3. Run on its own, a call that goes through [acquireLock] never
    settles when one of its keys is in the table, or when its two keys
    are one: there is no timeout, and nothing else takes the entry out. *)
Theorem blocked_call_never_settles (c : call) (s : store) :
  waits_for_lock c = true ->
  (exists p, p ∈ targets c /\ is_Some (fileLocks s !! p)) \/ ~ NoDup (targets c) ->
  forall fuel, run fuel c Start s = None.
Proof using Type.
  intros Hw Hblocked fuel.
  assert (Hone : forall filePath : string, lock_paths c = [Str filePath] ->
            run fuel c Start s = None).
  { intros filePath Hp. eapply run_first_key_taken; [done..|].
    unfold targets in Hblocked. rewrite Hp in Hblocked. simpl in Hblocked.
    destruct Hblocked as [(p & ->%list_elem_of_singleton & Hheld)|Hdup]; [done|].
    destruct Hdup. apply NoDup_singleton. }
  destruct c as [[filePath|]?|[filePath|]??|[filePath|]??|filePath|dirPath
                 |[filePath|]|[filePath|]??|[filePath|]|[source|] destination
                 |[filePath|]];
    try done; try (by eapply Hone);
    try (simpl in Hw; by destruct (JSON_stringify _ _)).
  unfold targets in Hblocked. simpl in Hblocked.
  destruct (fileLocks s !! resolve source) as [x|] eqn:Hs.
  { eapply run_first_key_taken; [done..|]. by rewrite Hs. }
  destruct destination as [destination|text refusal]; simpl in Hblocked.
  2:{ exfalso. destruct Hblocked as [(p & ->%list_elem_of_singleton & Hheld)|Hdup].
      - rewrite Hs in Hheld. by destruct Hheld.
      - destruct Hdup. apply NoDup_singleton. }
  assert (Hd : is_Some (<[resolve source := true]> (fileLocks s) !! resolve destination)).
  { rewrite lookup_insert_is_Some.
    destruct (decide (resolve source = resolve destination)) as [Heq|Hne]; [by left|].
    right. split; [done|].
    destruct Hblocked as [(p & Hp & Hheld)|Hdup].
    - apply elem_of_cons in Hp as [ -> | ->%list_elem_of_singleton ]; [|done].
      rewrite Hs in Hheld. by destruct Hheld.
    - destruct Hdup. apply NoDup_cons. split; [|apply NoDup_singleton].
      by intros ?%list_elem_of_singleton. }
  destruct (copy_waits source destination s Hs Hd) as (H1 & H2 & H3).
  destruct fuel as [|fuel]; [done|]. rewrite run_step, H1 by done. cbn [fst snd].
  destruct fuel as [|fuel]; [done|]. rewrite run_step, H2 by done. cbn [fst snd].
  by apply run_stuck.
Qed.

(** X4. [copyFile] whose source is free and whose destination is taken:
    from its second transition on it holds the key of the source and
    waits, having touched nothing else; and whatever asks for the source
    meanwhile waits as well. *)
Theorem copyFile_holds_source_while_waiting (source destination : string) (s : store) :
  fileLocks s !! resolve source = None ->
  is_Some (fileLocks s !! resolve destination) ->
  let held_source := Store (<[resolve source := true]> (fileLocks s)) (disk s) in
  (forall n, resumes (S (S n)) (CopyFile source destination) Start s
             = (AwaitTimer2 (resolve source) (resolve destination), held_source))
  /\ (forall c p rest fuel,
        waits_for_lock c = true -> lock_paths c = Str p :: rest ->
        resolve p = resolve source ->
        run fuel c Start held_source = None).
Proof using Type.
  intros Hs Hd held_source. split.
  - intros n.
    assert (Hd' : is_Some (<[resolve source := true]> (fileLocks s) !! resolve destination)).
    { rewrite lookup_insert_is_Some.
      destruct (decide (resolve source = resolve destination)); [by left|by right]. }
    destruct (copy_waits source destination s Hs Hd') as (H1 & H2 & H3).
    rewrite resumes_S, H1. cbn [fst snd]. rewrite resumes_S, H2. cbn [fst snd].
    by apply resumes_stuck.
  - intros c p rest fuel Hw Hp Hkey. eapply run_first_key_taken; [done..|].
    unfold held_source. simpl. rewrite Hkey, lookup_insert_eq. eauto.
Qed.

(** ** The lock a refused copy leaves behind *)

(** A copy of a string to something that is not one, scheduled to its
    end. *)
Lemma refused_copy_schedule (d : Disk) (source text refusal : string) :
  run_schedule [0; 0]%nat (initial d [CopyFile source (NotStr text refusal)])
  = World (Store (<[resolve source := true]> ∅) d)
      [(CopyFile source (NotStr text refusal), Settled (Thrown refusal))].
Proof using Type.
  unfold run_schedule, initial, fire. simpl.
  unfold acquireLock, path_resolve, acquireLock_loop. by rewrite lookup_empty.
Qed.

(** C3. Not every exit gives the lock back. [copyFile(source,
    destination)] with [source] a string whose key is free and
    [destination] not a string: the call inserts the key of [source]
    (line 144), is refused at [acquireLock(destination)] (line 145, before
    the [try] of line 147) and settles in its second transition with the
    [TypeError] of [path.resolve] as it is. The [finally] has not run: the
    key of [source] is in the table, it stays there whatever the settled
    call is resumed with, and every call that asks for it afterwards
    waits for ever. *)
Theorem copyFile_refused_destination_keeps_source_lock
    (source text refusal : string) (s : store) :
  fileLocks s !! resolve source = None ->
  let c := CopyFile source (NotStr text refusal) in
  let left_behind := Store (<[resolve source := true]> (fileLocks s)) (disk s) in
  run 2 c Start s = Some (Thrown refusal, left_behind)
  /\ locking c = true
  /\ fileLocks left_behind !! resolve source = Some true
  /\ (forall n, resumes n c (Settled (Thrown refusal)) left_behind
                = (Settled (Thrown refusal), left_behind))
  /\ (forall c' (p : string) rest fuel,
        waits_for_lock c' = true -> lock_paths c' = Str p :: rest ->
        resolve p = resolve source ->
        run fuel c' Start left_behind = None).
Proof using Type.
  intros Hfree c left_behind. split; [|split; [done|split; [|split]]].
  - simpl. unfold acquireLock, path_resolve, acquireLock_loop. by rewrite Hfree.
  - apply lookup_insert_eq.
  - intros n. by apply resumes_stuck.
  - intros c' p rest fuel Hw Hp Hkey. eapply run_first_key_taken; [done..|].
    unfold left_behind. simpl. rewrite Hkey, lookup_insert_eq. eauto.
Qed.

(** ** Every way a locking call settles *)

(** X17. The two ways a locking operation ([readFile], [writeFile],
    [appendFile], [getStats], [copyFile], [deleteFile]) settles. The
    transition that ends its filesystem call always settles it, and
    through the [finally]: the entries of its targets were in the table
    up to that transition and are absent after it, and the rest of the
    table is untouched. Any other transition that settles it is a refusal
    of [acquireLock]: the result is the [TypeError] of [path.resolve] as it
    is, the table and the disk are as before, and what the call held stays
    in the table. A settled call makes no further transition. *)
Theorem locking_call_settles_two_ways (d : Disk) (calls : list call) (w : world)
    (i : nat) (c : call) (k : pc) :
  rtc step (initial d calls) w ->
  locking c = true ->
  tasks w !! i = Some (c, k) ->
  (in_flight k = true -> exists r, tasks (fire i w) !! i = Some (c, Settled r))
  /\ (forall r,
        (forall r0, k <> Settled r0) ->
        tasks (fire i w) !! i = Some (c, Settled r) ->
        (in_flight k = true
         /\ (forall p, p ∈ targets c ->
               fileLocks (shared w) !! p = Some true
               /\ fileLocks (shared (fire i w)) !! p = None)
         /\ (forall q, q ∉ targets c ->
               fileLocks (shared (fire i w)) !! q = fileLocks (shared w) !! q))
        \/ (in_flight k = false
            /\ (exists message, r = Thrown message /\ message ∈ refusals c)
            /\ shared (fire i w) = shared w
            /\ (forall p, p ∈ held k -> fileLocks (shared (fire i w)) !! p = Some true)))
  /\ (forall r s, resume c (Settled r) s = (Settled r, s)).
Proof.
  intros Hreach Hlock Hi.
  pose proof (reachable_invariant _ _ (initial_invariant d calls) Hreach)
    as [Iok Iheld _ _].
  destruct (fire_self _ _ _ _ Hi) as [Hi' Hs'].
  pose proof (Iok _ _ _ Hi) as Hok.
  split; [|split].
  - intros Hf. destruct (in_flight_settles c k (shared w) Hok Hlock Hf) as [r Hr].
    exists r. by rewrite Hi', Hr.
  - intros r Hk Hr. rewrite Hi' in Hr. simplify_eq.
    destruct (resume c k (shared w)) as [k' s'] eqn:Heq. simpl in *. subst k'.
    destruct (settle_exits _ _ _ _ _ Hok Hlock Hk Heq)
      as [[Hf HL]|(Hf & message & -> & Hm & ->)].
    + left. split; [done|]. rewrite Hs'. split.
      * intros p Hp. apply (in_flight_held _ _ _ Hok Hf) in Hp. split.
        -- by eapply Iheld, held_owns.
        -- rewrite HL. by rewrite decide_True.
      * intros q Hq. rewrite HL. rewrite decide_False; [done|].
        by rewrite <- (in_flight_held _ _ _ Hok Hf).
    + right. split; [done|]. split; [by eexists|]. split; [done|].
      intros p Hp. rewrite Hs'. by eapply Iheld, held_owns.
  - intros r s. apply settled_stays.
Qed.

(** ** Calls that take no lock *)

Lemma kind_of_phrase f rest : kind_of (phrase f +:+ rest) = Some f.
Proof. by destruct f. Qed.

(** X5. [ensureDir] passes the path as given to [fs.mkdir] and settles in
    two transitions whatever the lock table holds: with [true], or with a
    failure that names the directory and is tagged [DirError]. None of
    its transitions reads or changes the table. *)
Theorem ensureDir_ignores_the_lock_table (dirPath : string) (s : store) :
  run 2 (EnsureDir dirPath) Start s
  = Some (match (fs_mkdir dirPath (disk s)).1 with
          | Returned _ => Returned (RBool true)
          | Thrown cause =>
              Thrown ("Failed to create directory " +:+ dirPath +:+ ": " +:+ cause)
          end,
          Store (fileLocks s) (fs_mkdir dirPath (disk s)).2)
  /\ (forall cause,
        kind_of ("Failed to create directory " +:+ dirPath +:+ ": " +:+ cause)
        = Some DirError)
  /\ (forall k s0, fileLocks (ensureDir dirPath k s0).2 = fileLocks s0)
  /\ (forall k locks locks' d,
        (ensureDir dirPath k (Store locks d)).1 = (ensureDir dirPath k (Store locks' d)).1
        /\ disk (ensureDir dirPath k (Store locks d)).2
           = disk (ensureDir dirPath k (Store locks' d)).2).
Proof using Type.
  split; [|split; [|split]].
  - simpl. by destruct (fs_mkdir dirPath (disk s)) as [[|]].
  - done.
  - intros k s0. destruct k; simpl; try done. by destruct (fs_mkdir dirPath (disk s0)).
  - intros k locks locks' d. destruct k; simpl; try done.
    by destruct (fs_mkdir dirPath d).
Qed.

(** X6. [writeJSON] of [undefined]: [JSON.stringify] returns [undefined]
    without throwing, so the call goes on to [writeFile], takes the lock,
    and fails in [fs.writeFile]'s check of its argument. Nothing is
    written, and the lock is given back. *)
Theorem writeJSON_of_undefined_writes_nothing (filePath : string) (space : Z) (s : store) :
  fileLocks s !! resolve filePath = None ->
  JSON_stringify VUndefined space = Returned None
  /\ fileLocks (resume (WriteJSON filePath VUndefined space) Start s).2 !! resolve filePath
     = Some true
  /\ run 4 (WriteJSON filePath VUndefined space) Start s
     = Some (Thrown ("Failed to write JSON to " +:+ filePath +:+ ": "
                       +:+ "Failed to write file " +:+ filePath +:+ ": " +:+ invalid_data),
             s).
Proof.
  intros Hfree. split; [done|]. split.
  - simpl. unfold acquireLock, path_resolve, acquireLock_loop. rewrite Hfree. simpl.
    by rewrite lookup_insert_eq.
  - rewrite run_writeJSON by done. destruct s as [locks d]. done.
Qed.

(** ** Failures name their operation *)

Lemma locked_tagged {A} c filePath (primitive : string -> Disk -> outcome A * Disk)
    ret f k s k' s' :
  f ∈ failures_of c ->
  (forall cause, blames c cause = shown filePath +:+ ": " +:+ cause) ->
  (forall message, refusal_of filePath = Some message -> message ∈ refusals c) ->
  tagged c k -> locked filePath primitive ret (phrase f) k s = (k', s') ->
  tagged c k'.
Proof using Type.
  intros Hf Hb Href Hk Hstep. destruct k; simpl in Hstep.
  - destruct filePath as [fp|text refusal];
      unfold acquireLock, path_resolve, acquireLock_loop in Hstep;
      repeat case_match; simplify_eq; try done.
    right. by apply Href.
  - unfold acquireLock_loop in Hstep. repeat case_match; by simplify_eq.
  - by simplify_eq.
  - by simplify_eq.
  - by simplify_eq.
  - destruct (primitive lockedPath (disk s)) as [[a|cause] d']; simplify_eq; [done|].
    left. exists f, cause. by rewrite Hb.
  - by simplify_eq.
  - by simplify_eq.
  - by simplify_eq.
  - by simplify_eq.
Qed.

Lemma refusal_of_one c filePath message :
  lock_paths c = [filePath] -> (forall obj space, c <> WriteJSON filePath obj space) ->
  refusal_of filePath = Some message -> message ∈ refusals c.
Proof using Type.
  intros Hc Hw Hm. destruct c; simplify_eq/=; rewrite ?Hm;
    first [apply list_elem_of_here | by destruct (Hw obj space)].
Qed.

Lemma resume_tagged c k s k' s' :
  tagged c k -> resume c k s = (k', s') -> tagged c k'.
Proof using Type.
  intros Hk Hstep.
  assert (Hin : forall f : failure, f ∈ [f]) by (intros; apply list_elem_of_here).
  destruct c; simpl in Hstep.
  - eapply (locked_tagged _ _ _ _ ReadError); [apply Hin|done| |done..].
    intros m Hm. by eapply refusal_of_one.
  - eapply (locked_tagged _ _ _ _ WriteError); [apply Hin|done| |done..].
    intros m Hm. by eapply refusal_of_one.
  - eapply (locked_tagged _ _ _ _ AppendError); [apply Hin|done| |done..].
    intros m Hm. by eapply refusal_of_one.
  - unfold exists_ in Hstep. destruct k; repeat case_match; by simplify_eq.
  - unfold ensureDir in Hstep. destruct k; repeat case_match; simplify_eq; try done.
    destruct o as [a|cause]; simpl; [done|]. left.
    exists DirError, cause. split; [apply Hin|done].
  - assert (Hread : forall k0 k1 s1,
              tagged (ReadJSON filePath) k0 ->
              readFile filePath "utf8" k0 s = (k1, s1) -> tagged (ReadJSON filePath) k1).
    { intros k0 k1 s1 Hk0 Hr. unfold readFile in Hr.
      eapply (locked_tagged _ _ _ _ ReadError); [apply list_elem_of_here|done| |done..].
      intros m Hm. by eapply refusal_of_one. }
    unfold readJSON in Hstep.
    destruct k as [|?|?|? ?|? ?|?|? ?| |r|r];
      try (destruct (readFile filePath "utf8" _ s) as [k1 s1] eqn:E;
           apply Hread in E; [|done];
           destruct k1 as [|?|?|? ?|? ?|?|? ?| |r1|r1]; simpl in Hstep; by simplify_eq).
    + destruct r as [[data| | |]|]; try destruct (JSON_parse data) as [v|cause] eqn:Hparse;
        simplify_eq; try done.
      left. exists ParseError, cause. split; [|done].
      apply list_elem_of_further, list_elem_of_here.
    + by simplify_eq.
  - unfold writeJSON in Hstep.
    destruct k as [|?|?|? ?|? ?|?|? ?| |r|r];
      try (destruct (JSON_stringify obj space) as [data|cause];
           [ destruct (writeFile filePath data "utf8" _ s) as [k1 s1] eqn:E;
             unfold writeFile, locked, acquireLock, path_resolve, acquireLock_loop in E;
             repeat case_match; simplify_eq; simpl in Hstep; simplify_eq;
             unfold tagged, rethrow; by repeat case_match
           | simplify_eq;
             first [done | left; exists SerializeError, cause; split; [apply Hin|done]] ]).
    + simplify_eq. destruct r as [a|cause]; simpl; [done|]. left.
      exists SerializeError, cause. split; [apply Hin|done].
    + by simplify_eq.
  - eapply (locked_tagged _ _ _ _ StatError); [apply Hin|done| |done..].
    intros m Hm. by eapply refusal_of_one.
  - destruct k; simpl in Hstep; unfold acquireLock, path_resolve, acquireLock_loop in Hstep;
      repeat case_match; simplify_eq; try done;
      first [ left; exists CopyError; eexists; split; [apply Hin|done]
            | right; unfold refusals, refusal_of; simpl;
              repeat match goal with a : arg |- _ => destruct a end; simpl;
              eauto using list_elem_of_here, list_elem_of_further ].
  - eapply (locked_tagged _ _ _ _ DeleteError); [apply Hin|done| |done..].
    intros m Hm. by eapply refusal_of_one.
Qed.


(** ** What a transition leaves alone *)

Lemma held_targets c k p : pc_ok c k -> p ∈ held k -> p ∈ targets c.
Proof.
  unfold targets. destruct k; simpl; try set_solver.
  - intros (fp & rest & -> & ->). set_solver.
  - intros (src & dst & -> & -> & ->). set_solver.
  - intros (src & dst & -> & -> & ->). set_solver.
  - intros (fp & -> & ->). set_solver.
  - intros (src & dst & -> & -> & ->). set_solver.
Qed.

Lemma owns_targets c k p : pc_ok c k -> p ∈ owns c k -> p ∈ targets c.
Proof.
  unfold owns. intros Hok [Hp|Hp]%elem_of_union; [by eapply held_targets|].
  unfold leaked in Hp. destruct k; try set_solver.
  destruct (leak c) as [q|] eqn:Hq; [|set_solver].
  apply leak_copy in Hq as (source & text & refusal & -> & ->).
  unfold targets. simpl. set_solver.
Qed.

Lemma resume_disk c k s :
  in_flight k = false -> k <> AwaitProbe -> disk (resume c k s).2 = disk s.
Proof using Type.
  intros Hf Hk.
  destruct c; destruct k; try done; simpl;
    unfold acquireLock, path_resolve, acquireLock_loop; repeat case_match; simplify_eq; try done;
    simpl in *; unfold acquireLock, path_resolve, acquireLock_loop in *;
    repeat case_match; by simplify_eq.
Qed.

(** X8. One transition of a call, in any state the event loop can reach:
    the entries of the lock table outside the call's own keys are as
    before; an entry the call does not hold is not removed, so no call
    releases what another holds; and the disk is as before unless the
    transition is the one that makes the filesystem call. *)
Theorem transition_touches_only_its_own_keys (d : Disk) (calls : list call) (w : world)
    (i : nat) (c : call) (k : pc) :
  rtc step (initial d calls) w ->
  tasks w !! i = Some (c, k) ->
  (forall p, p ∉ targets c ->
     fileLocks (shared (fire i w)) !! p = fileLocks (shared w) !! p)
  /\ (forall p, is_Some (fileLocks (shared w) !! p) -> p ∉ held k ->
        is_Some (fileLocks (shared (fire i w)) !! p))
  /\ (in_flight k = false -> k <> AwaitProbe ->
        disk (shared (fire i w)) = disk (shared w)).
Proof.
  intros Hreach Hi.
  pose proof (reachable_invariant _ _ (initial_invariant d calls) Hreach) as Hinv.
  pose proof (inv_ok w Hinv _ _ _ Hi) as Hok.
  destruct (fire_self _ _ _ _ Hi) as [_ Hs]. rewrite Hs.
  destruct (resume c k (shared w)) as [k' s'] eqn:Hr.
  destruct (resume_effect _ _ _ _ _ Hok Hr) as [Hok' He]. simpl.
  split; [|split].
  - intros p Hp. destruct He as [_ ->|q _ -> Hh|_ HL]; [done| |].
    + rewrite lookup_insert_ne; [done|]. intros ->. apply Hp.
      eapply owns_targets; [exact Hok'|]. rewrite Hh. set_solver.
    + rewrite HL. rewrite decide_False; [done|].
      intros Hheld. apply Hp. eapply owns_targets; [exact Hok|done].
  - intros p Hp Hheld.
    assert (Hcases : (exists r0, k = Settled r0) \/ forall r0, k <> Settled r0)
      by (destruct k; eauto).
    destruct Hcases as [[r0 ->]|Hk].
    { rewrite settled_stays in Hr. by simplify_eq. }
    destruct He as [_ ->|q _ -> Hh|_ HL]; [done| |].
    + rewrite lookup_insert_is_Some. destruct (decide (q = p)); [by left|by right].
    + rewrite HL. rewrite owns_unsettled by done. by rewrite decide_False.
  - intros Hf Hk. pose proof (resume_disk c k (shared w) Hf Hk) as Hd.
    by rewrite Hr in Hd.
Qed.

(** ** No deadlock without [copyFile] *)

Lemma resume_live c k s k' s' :
  pc_live c k -> resume c k s = (k', s') -> pc_live c k'.
Proof using Type.
  intros Hl Hstep.
  destruct c; destruct k; simpl in *; unfold acquireLock, path_resolve, acquireLock_loop in *;
    repeat case_match; simplify_eq; simpl in *; try done;
    unfold acquireLock, path_resolve, acquireLock_loop in *; repeat case_match; simplify_eq; try done;
    unfold pc_live, waits_for_lock in *; repeat case_match; by simplify_eq.
Qed.

Lemma transitions_left_le k : (transitions_left k <= 4)%nat.
Proof. destruct k; simpl; lia. Qed.

(** A transition of a single-path call brings it nearer to its end, unless
    it leaves the call waiting for a key that is in the table. *)
Lemma resume_progress c k s k' s' :
  single_path c = true -> pc_ok c k -> pc_live c k ->
  resume c k s = (k', s') ->
  blocked k' s' \/ (transitions_left k' <= transitions_left k - 1)%nat.
Proof using Type.
  intros Hsingle Hok Hl Hstep.
  assert (Hwait : forall p b, fileLocks s !! p = Some b -> blocked (AwaitTimer p) s).
  { intros p b HL. exists p. split; [done|]. by rewrite HL. }
  destruct c; try done; destruct k; simpl in *;
    try (destruct Hok as (? & ? & ? & ? & ?); discriminate);
    try (destruct Hok as (? & ? & ?); discriminate);
    try discriminate;
    unfold acquireLock, path_resolve, acquireLock_loop in *;
    repeat case_match; simplify_eq; simpl in *;
    unfold acquireLock, path_resolve, acquireLock_loop in *;
    repeat case_match; simplify_eq; simpl;
    first [ right; lia | left; destruct s; by eapply Hwait ].
Qed.

Lemma blocked_stays c k s :
  pc_ok c k -> pc_live c k -> blocked k s -> resume c k s = (k, s).
Proof using Type.
  intros Hok Hl (p & -> & Hheld). simpl in Hok, Hl.
  destruct Hok as (filePath & rest & Hp & _).
  eapply (wait_again c filePath); [done| |done].
  destruct c; simpl in *; simplify_eq; eauto.
Qed.

(** After [n] transitions in a row a single-path call is waiting for a
    key that is in the table, or [n] transitions nearer to its end. *)
Lemma resumes_rest n c k s :
  single_path c = true -> pc_ok c k -> pc_live c k ->
  blocked (resumes n c k s).1 (resumes n c k s).2
  \/ (transitions_left (resumes n c k s).1 <= transitions_left k - n)%nat.
Proof.
  intros Hsingle. revert k s. induction n as [|n IH]; intros k s Hok Hl.
  { right. simpl. lia. }
  rewrite resumes_S. destruct (resume c k s) as [k1 s1] eqn:Hr. cbn [fst snd].
  destruct (resume_effect _ _ _ _ _ Hok Hr) as [Hok1 _].
  pose proof (resume_live _ _ _ _ _ Hl Hr) as Hl1.
  destruct (resume_progress _ _ _ _ _ Hsingle Hok Hl Hr) as [Hb|Hlt].
  - left. rewrite resumes_stuck by by apply blocked_stays. done.
  - destruct (IH k1 s1 Hok1 Hl1) as [Hb|Hle]; [by left|right]. lia.
Qed.

(** Task [i] fired [n] times in a row. *)
Lemma fire_turn n i w c k :
  tasks w !! i = Some (c, k) ->
  run_schedule (replicate n i) w
  = World (resumes n c k (shared w)).2
      (<[i := (c, (resumes n c k (shared w)).1)]> (tasks w)).
Proof using Type.
  revert w k. induction n as [|n IH]; intros w k Hi.
  - simpl. destruct w as [sh ts]. simpl in *. by rewrite list_insert_id.
  - destruct (fire_self _ _ _ _ Hi) as [Hi' Hs'].
    change (run_schedule (replicate (S n) i) w)
      with (run_schedule (replicate n i) (fire i w)).
    rewrite (IH _ _ Hi'), Hs', resumes_S. f_equal.
    unfold fire. rewrite Hi. destruct (resume c k (shared w)) as [k1 s1]. simpl.
    by rewrite list_insert_insert_eq.
Qed.

Lemma fire_nothing n i w : tasks w !! i = None -> run_schedule (replicate n i) w = w.
Proof using Type.
  intros Hi. induction n as [|n IH]; [done|].
  change (run_schedule (replicate (S n) i) w)
    with (run_schedule (replicate n i) (fire i w)).
  unfold fire at 1. by rewrite Hi.
Qed.

Lemma run_schedule_app (schedule schedule' : list nat) w :
  run_schedule (schedule ++ schedule')%list w
  = run_schedule schedule' (run_schedule schedule w).
Proof using Type. apply fold_left_app. Qed.

Lemma reachable_length w w' : rtc step w w' -> length (tasks w') = length (tasks w).
Proof using Type.
  intros Hreach. eapply (reachable_preserved (fun w' => length (tasks w') = length (tasks w)));
    [|done|exact Hreach].
  clear. intros i w' Hlen. unfold fire. destruct (tasks w' !! i) as [[c k]|]; [|done].
  destruct (resume c k (shared w')) as [k' s']. simpl. by rewrite length_insert.
Qed.

Lemma fire_sound i w : sound w -> sound (fire i w).
Proof.
  intros [Hinv Hall]. split; [by apply fire_invariant|].
  intros j c k Hj. destruct (decide (j = i)) as [->|Hne].
  - destruct (tasks w !! i) as [[c0 k0]|] eqn:Hi.
    + destruct (fire_self _ _ _ _ Hi) as [Hi' _]. rewrite Hi' in Hj. simplify_eq.
      destruct (Hall _ _ _ Hi) as [Hl Hsingle]. split; [|done].
      eapply resume_live; [done|]. apply surjective_pairing.
    + unfold fire in Hj. rewrite Hi in Hj. congruence.
  - rewrite fire_other in Hj by done. by eapply Hall.
Qed.

Lemma run_schedule_sound schedule w : sound w -> sound (run_schedule schedule w).
Proof.
  intros Hs. eapply (reachable_preserved sound); [|done|apply run_schedule_reachable].
  intros. by apply fire_sound.
Qed.

Lemma single_path_no_leak c : single_path c = true -> leak c = None.
Proof using Type. by destruct c. Qed.

Lemma ordered_no_leak rank c : ordered rank c -> leak c = None.
Proof using Type. by destruct c as [| | | | | | | |[|] [|]|]. Qed.

(** When every call is settled or waiting for its first lock, and none
    leaves a key behind, nothing is held: the table is empty. *)
Lemma resting_table w :
  invariant w ->
  (forall i c k, tasks w !! i = Some (c, k) -> leak c = None) ->
  (forall i c k, tasks w !! i = Some (c, k) -> resting k = true) ->
  fileLocks (shared w) = ∅.
Proof using Type.
  intros [_ _ _ Iowned] Hleak Hall. apply map_eq. intros p. rewrite lookup_empty.
  destruct (fileLocks (shared w) !! p) as [b|] eqn:Hp; [|done].
  destruct (Iowned p ltac:(eauto)) as (i & c & k & Hi & Hheld).
  pose proof (Hall _ _ _ Hi) as Hrest. unfold owns, leaked in Hheld.
  rewrite (Hleak _ _ _ Hi) in Hheld.
  destruct k; try done; simpl in Hheld;
    apply elem_of_union in Hheld as [Hheld|Hheld]; by apply elem_of_empty in Hheld.
Qed.

(** One turn: the call is settled or waiting for a key still in the
    table, and the other calls are where they were. *)
Lemma turn_rests i w :
  sound w ->
  let w' := run_schedule (replicate 4 i) w in
  (forall j, j <> i -> tasks w' !! j = tasks w !! j)
  /\ (forall c k, tasks w' !! i = Some (c, k) ->
        blocked k (shared w') \/ exists r, k = Settled r).
Proof.
  intros [Hinv Hall] w'. unfold w'.
  destruct (tasks w !! i) as [[c k]|] eqn:Hi.
  - rewrite (fire_turn 4 i w c k Hi). cbn [tasks shared]. split.
    + intros j Hne. by rewrite list_lookup_insert_ne.
    + intros c0 k0 Hi0. rewrite list_lookup_insert_eq in Hi0 by by eapply lookup_lt_Some.
      destruct (Hall _ _ _ Hi) as [Hl Hsingle].
      pose proof (resumes_rest 4 c k (shared w) Hsingle (inv_ok w Hinv _ _ _ Hi) Hl)
        as Hr.
      pose proof (transitions_left_le k).
      destruct (resumes 4 c k (shared w)) as [k4 s4]. cbn [fst snd] in *.
      injection Hi0 as <- <-.
      destruct Hr as [Hb|Hle]; [by left|right].
      destruct k4; simpl in Hle; try lia. eauto.
  - rewrite fire_nothing by done. split; [done|]. intros c k Hi'. congruence.
Qed.

Lemma blocked_resting k s : blocked k s \/ (exists r, k = Settled r) -> resting k = true.
Proof using Type. by intros [(p & -> & _)|[r ->]]. Qed.

(** A round of turns leaves every call of the round settled or waiting
    for its first lock. *)
Lemma round_rests (order : list nat) w (rested : list nat) :
  sound w ->
  (forall i c k, i ∈ rested -> tasks w !! i = Some (c, k) -> resting k = true) ->
  forall i c k, i ∈ (order ++ rested)%list ->
    tasks (run_schedule (turns order) w) !! i = Some (c, k) -> resting k = true.
Proof.
  revert w rested. induction order as [|a order IH]; intros w rested Hs Hrested; [done|].
  intros i c k Hin.
  change (turns (a :: order)) with (replicate 4 a ++ turns order)%list.
  rewrite run_schedule_app.
  destruct (turn_rests a w Hs) as [Hother Hself].
  apply (IH _ (a :: rested)).
  - by apply run_schedule_sound.
  - intros j cj kj [->|Hj]%elem_of_cons Htask.
    + eapply blocked_resting. by eapply Hself.
    + destruct (decide (j = a)) as [->|Hne].
      * eapply blocked_resting. by eapply Hself.
      * rewrite Hother in Htask by done. by eapply Hrested.
  - rewrite elem_of_app, elem_of_cons. rewrite elem_of_app, elem_of_cons in Hin.
    tauto.
Qed.

(** A round of turns that starts with every call settled or waiting for
    its first lock settles every call of the round. *)
Lemma round_settles (order : list nat) w (finished : list nat) :
  sound w ->
  (forall i c k, tasks w !! i = Some (c, k) -> resting k = true) ->
  (forall i c k, i ∈ finished -> tasks w !! i = Some (c, k) -> exists r, k = Settled r) ->
  forall i c k, i ∈ (order ++ finished)%list ->
    tasks (run_schedule (turns order) w) !! i = Some (c, k) -> exists r, k = Settled r.
Proof.
  revert w finished. induction order as [|a order IH];
    intros w finished Hs Hrest Hfinished; [done|].
  intros i c k Hin.
  change (turns (a :: order)) with (replicate 4 a ++ turns order)%list.
  rewrite run_schedule_app.
  destruct (turn_rests a w Hs) as [Hother Hself].
  pose proof (run_schedule_sound (replicate 4 a) w Hs) as Hs'.
  assert (Hrest' : forall j cj kj,
            tasks (run_schedule (replicate 4 a) w) !! j = Some (cj, kj) ->
            resting kj = true).
  { intros j cj kj Htask. destruct (decide (j = a)) as [->|Hne].
    - eapply blocked_resting. by eapply Hself.
    - rewrite Hother in Htask by done. by eapply Hrest. }
  assert (Hleak' : forall j cj kj,
            tasks (run_schedule (replicate 4 a) w) !! j = Some (cj, kj) ->
            leak cj = None).
  { intros j cj kj Htask. by apply single_path_no_leak, (proj2 Hs' j cj kj). }
  pose proof (resting_table _ (proj1 Hs') Hleak' Hrest') as Hempty.
  assert (Hdone : forall ca ka,
            tasks (run_schedule (replicate 4 a) w) !! a = Some (ca, ka) ->
            exists r, ka = Settled r).
  { intros ca ka Htask. destruct (Hself _ _ Htask) as [(p & _ & Hp)|Hr]; [|done].
    rewrite Hempty, lookup_empty in Hp. by destruct Hp. }
  apply (IH _ (a :: finished)); [done|done| |].
  - intros j cj kj [->|Hj]%elem_of_cons Htask; [by eapply Hdone|].
    destruct (decide (j = a)) as [->|Hne]; [by eapply Hdone|].
    rewrite Hother in Htask by done. by eapply Hfinished.
  - rewrite elem_of_app, elem_of_cons. rewrite elem_of_app, elem_of_cons in Hin.
    tauto.
Qed.

(** X9. Without [copyFile] there is no deadlock: from every state the
    event loop can reach, two rounds in which each call in turn gets four
    transitions settle every call, and leave the lock table empty. *)
Theorem single_path_calls_never_deadlock (d : Disk) (calls : list call) (w : world) :
  (forall c, c ∈ calls -> single_path c = true) ->
  rtc step (initial d calls) w ->
  let order := seq 0 (length calls) in
  let w' := run_schedule (turns order ++ turns order)%list w in
  (forall i c k, tasks w' !! i = Some (c, k) -> exists r, k = Settled r)
  /\ fileLocks (shared w') = ∅.
Proof.
  intros Hsingle Hreach order w'.
  assert (Hs : sound w).
  { eapply (reachable_preserved sound); [|
      |exact Hreach].
    - intros. by apply fire_sound.
    - split; [apply initial_invariant|].
      intros i c k [c' [? Hc]]%list_lookup_fmap_Some. simplify_eq. split; [done|].
      apply Hsingle. by eapply list_elem_of_lookup_2. }
  assert (Hlen : forall w1, rtc step w w1 -> forall i c k,
            tasks w1 !! i = Some (c, k) -> i ∈ order).
  { intros w1 Hreach1 i c k Hi. apply lookup_lt_Some in Hi.
    rewrite (reachable_length _ _ Hreach1), (reachable_length _ _ Hreach) in Hi.
    unfold initial in Hi. simpl in Hi. rewrite length_fmap in Hi.
    apply elem_of_seq. lia. }
  unfold w'. rewrite run_schedule_app.
  set (w1 := run_schedule (turns order) w).
  assert (Hs1 : sound w1) by by apply run_schedule_sound.
  assert (Hrest1 : forall i c k, tasks w1 !! i = Some (c, k) -> resting k = true).
  { intros i c k Hi. eapply (round_rests order w []); [done| |  |exact Hi].
    - intros j cj kj Hj. by apply elem_of_nil in Hj.
    - rewrite app_nil_r. eapply Hlen; [apply run_schedule_reachable|exact Hi]. }
  set (w2 := run_schedule (turns order) w1).
  assert (Hdone : forall i c k, tasks w2 !! i = Some (c, k) -> exists r, k = Settled r).
  { intros i c k Hi. eapply (round_settles order w1 []); [done|done| | |exact Hi].
    - intros j cj kj Hj. by apply elem_of_nil in Hj.
    - rewrite app_nil_r. eapply (Hlen w2); [|exact Hi].
      etrans; apply run_schedule_reachable. }
  split; [done|].
  pose proof (run_schedule_sound (turns order) w1 Hs1) as Hs2.
  apply resting_table; [apply Hs2| |].
  - intros i c k Hi. by apply single_path_no_leak, (proj2 Hs2 i c k).
  - intros i c k Hi. by destruct (Hdone _ _ _ Hi) as [r ->].
Qed.

(** ** No deadlock when every copy goes up in one ranking of the keys *)

Lemma resume_progress_any c k s k' s' :
  pc_ok c k -> pc_live c k -> resume c k s = (k', s') ->
  waiting k' s' \/ (transitions_left k' <= transitions_left k - 1)%nat.
Proof using Type.
  intros Hok Hl Hstep.
  assert (Hwait : forall k0 p b, wanted k0 = Some p -> fileLocks s !! p = Some b ->
            waiting k0 s).
  { intros k0 p b Hk0 HL. exists p. split; [done|]. by rewrite HL. }
  destruct c; destruct k; simpl in *;
    try (destruct Hok as (? & ? & ? & ? & ?); discriminate);
    try (destruct Hok as (? & ? & ?); discriminate);
    try discriminate;
    unfold acquireLock, path_resolve, acquireLock_loop in *;
    repeat case_match; simplify_eq; simpl in *;
    unfold acquireLock, path_resolve, acquireLock_loop in *;
    repeat case_match; simplify_eq; simpl;
    first [ right; lia | left; destruct s; by eapply Hwait ].
Qed.

Lemma waiting_stays c k s :
  pc_ok c k -> pc_live c k -> waiting k s -> resume c k s = (k, s).
Proof using Type.
  intros Hok Hl (p & Hp & [b Hheld]). destruct s as [locks d]. simpl in Hheld.
  destruct k; simplify_eq/=.
  - destruct Hok as (filePath & rest & Hpaths & _).
    destruct c; simpl in *; simplify_eq; unfold acquireLock_loop; rewrite ?Hheld; try done.
    by destruct (JSON_stringify obj space).
  - destruct Hok as (source & destination & Hpaths & _).
    destruct c; simpl in *; simplify_eq. unfold acquireLock_loop. by rewrite Hheld.
Qed.

Lemma resumes_rest_any n c k s :
  pc_ok c k -> pc_live c k ->
  waiting (resumes n c k s).1 (resumes n c k s).2
  \/ (transitions_left (resumes n c k s).1 <= transitions_left k - n)%nat.
Proof.
  revert k s. induction n as [|n IH]; intros k s Hok Hl.
  { right. simpl. lia. }
  rewrite resumes_S. destruct (resume c k s) as [k1 s1] eqn:Hr. cbn [fst snd].
  destruct (resume_effect _ _ _ _ _ Hok Hr) as [Hok1 _].
  pose proof (resume_live _ _ _ _ _ Hl Hr) as Hl1.
  destruct (resume_progress_any _ _ _ _ _ Hok Hl Hr) as [Hb|Hlt].
  - left. rewrite resumes_stuck by by apply waiting_stays. done.
  - destruct (IH k1 s1 Hok1 Hl1) as [Hb|Hle]; [by left|right]. lia.
Qed.

(** Until its filesystem call is over, a call keeps what it holds. *)
Lemma resume_keeps c k s k' s' :
  pc_ok c k -> resume c k s = (k', s') ->
  (past_io k = true -> past_io k' = true)
  /\ (past_io k' = true \/ forall p, p ∈ held k -> p ∈ held k').
Proof.
  intros Hok Hstep. split.
  - destruct k; try done; intros _.
    + destruct c; simpl in Hstep; unfold readJSON, writeJSON in Hstep;
        repeat case_match; by simplify_eq.
    + rewrite settled_stays in Hstep. by simplify_eq.
  - destruct (past_io k') eqn:Hpast; [by left|right].
    assert (Hk' : owns c k' = held k').
    { apply owns_unsettled. intros r ->. done. }
    destruct (resume_effect _ _ _ _ _ Hok Hstep) as [_ [Hh _|q _ _ Hh|Hh _]].
    + intros p Hp. rewrite <- Hk', Hh. by apply held_owns.
    + intros p Hp. rewrite <- Hk', Hh. apply elem_of_union. right. by apply held_owns.
    + rewrite Hk' in Hh. clear Hk'. intros p Hp. exfalso.
      destruct c; destruct k; simpl in *; try set_solver;
        unfold acquireLock, path_resolve, acquireLock_loop in *;
        repeat case_match; simplify_eq; simpl in *; try done; try set_solver;
        unfold acquireLock, path_resolve, acquireLock_loop in *;
        repeat case_match; simplify_eq; simpl in *; try done; set_solver.
Qed.

Lemma resumes_past n c k s :
  pc_ok c k -> past_io k = true -> past_io (resumes n c k s).1 = true.
Proof.
  revert k s. induction n as [|n IH]; intros k s Hok Hpast; [done|].
  rewrite resumes_S. destruct (resume c k s) as [k1 s1] eqn:Hr. cbn [fst snd].
  destruct (resume_effect _ _ _ _ _ Hok Hr) as [Hok1 _].
  apply IH; [done|]. by apply (resume_keeps _ _ _ _ _ Hok Hr).
Qed.

Lemma resumes_keeps n c k s :
  pc_ok c k ->
  past_io (resumes n c k s).1 = true
  \/ forall p, p ∈ held k -> p ∈ held (resumes n c k s).1.
Proof.
  revert k s. induction n as [|n IH]; intros k s Hok; [by right|].
  rewrite resumes_S. destruct (resume c k s) as [k1 s1] eqn:Hr. cbn [fst snd].
  destruct (resume_effect _ _ _ _ _ Hok Hr) as [Hok1 _].
  destruct (resume_keeps _ _ _ _ _ Hok Hr) as [_ [Hpast|Hkeep]].
  - left. by apply resumes_past.
  - destruct (IH k1 s1 Hok1) as [Hpast|Hkeep1]; [by left|right].
    intros p Hp. by apply Hkeep1, Hkeep.
Qed.

Lemma fire_orderly rank i w : orderly rank w -> orderly rank (fire i w).
Proof.
  intros [Hinv Hall]. split; [by apply fire_invariant|].
  intros j c k Hj. destruct (decide (j = i)) as [->|Hne].
  - destruct (tasks w !! i) as [[c0 k0]|] eqn:Hi.
    + destruct (fire_self _ _ _ _ Hi) as [Hi' _]. rewrite Hi' in Hj. simplify_eq.
      destruct (Hall _ _ _ Hi) as [Hl Hord]. split; [|done].
      eapply resume_live; [done|]. apply surjective_pairing.
    + unfold fire in Hj. rewrite Hi in Hj. congruence.
  - rewrite fire_other in Hj by done. by eapply Hall.
Qed.

Lemma run_schedule_orderly rank schedule w :
  orderly rank w -> orderly rank (run_schedule schedule w).
Proof.
  intros Hs. eapply (reachable_preserved (orderly rank)); [|done|apply run_schedule_reachable].
  intros. by apply fire_orderly.
Qed.

(** A table that is not empty has a key of greatest rank. *)
Lemma greatest_key (rank : string -> nat) (L : gmap string bool) :
  L <> ∅ ->
  exists p, is_Some (L !! p) /\ forall q, is_Some (L !! q) -> (rank q <= rank p)%nat.
Proof using Type.
  induction L as [|p x L Hp _ IH] using map_first_key_ind; [done|]. intros _.
  destruct (decide (L = ∅)) as [->|Hne].
  - exists p. split; [rewrite lookup_insert_eq; eauto|].
    intros q [y Hq]. apply lookup_insert_Some in Hq as [[-> _]|[_ Hq]]; [done|].
    by rewrite lookup_empty in Hq.
  - destruct (IH Hne) as (m & Hm & Hmax).
    destruct (decide (rank m <= rank p)%nat) as [Hle|Hgt].
    + exists p. split; [rewrite lookup_insert_eq; eauto|].
      intros q [y Hq]. apply lookup_insert_Some in Hq as [[-> _]|[_ Hq]]; [done|].
      etrans; [apply Hmax; eauto|done].
    + exists m. split.
      * rewrite lookup_insert_is_Some. right. split; [|done]. intros ->.
        rewrite Hp in Hm. by destruct Hm.
      * intros q [y Hq]. apply lookup_insert_Some in Hq as [[-> _]|[_ Hq]]; [lia|].
        apply Hmax. eauto.
Qed.

Lemma pending_unsettled ts :
  pending ts <> 0%nat ->
  exists i c k, ts !! i = Some (c, k) /\ forall r, k <> Settled r.
Proof using Type.
  induction ts as [|[c k] ts IH]; [done|]. intros Hpos.
  assert (Hcases : (exists r0, k = Settled r0) \/ forall r0, k <> Settled r0)
    by (destruct k; eauto).
  destruct Hcases as [[r0 ->]|Hk].
  - destruct (IH Hpos) as (i & ci & ki & Hi & Hki). by exists (S i), ci, ki.
  - by exists 0%nat, c, k.
Qed.

Lemma pending_settled ts :
  pending ts = 0%nat -> forall i c k, ts !! i = Some (c, k) -> exists r, k = Settled r.
Proof using Type.
  induction ts as [|[c0 k0] ts IH]; intros Hzero i c k Hi; [by rewrite lookup_nil in Hi|].
  destruct i as [|i]; simpl in *.
  - simplify_eq. destruct k; try done. eauto.
  - eapply (IH ltac:(by destruct k0) i). done.
Qed.

Lemma pending_settle ts i c k r :
  ts !! i = Some (c, k) -> (forall r0, k <> Settled r0) ->
  S (pending (<[i := (c, Settled r)]> ts)) = pending ts.
Proof using Type.
  revert i. induction ts as [|[c0 k0] ts IH]; intros i Hi Hk; [by rewrite lookup_nil in Hi|].
  destruct i as [|i]; simpl in *.
  - simplify_eq. destruct k; try done. by destruct (Hk r0).
  - specialize (IH i Hi Hk). destruct k0; simpl; lia.
Qed.

(** Some call that has not settled can be run to its end at once: the
    holder of the key of greatest rank, or any call when nothing is
    held. *)
Lemma some_call_can_finish rank w :
  orderly rank w -> pending (tasks w) <> 0%nat ->
  exists i c k r,
    tasks w !! i = Some (c, k) /\ (forall r0, k <> Settled r0)
    /\ tasks (run_schedule (replicate 4 i) w) = <[i := (c, Settled r)]> (tasks w).
Proof.
  intros Hw Hpending.
  assert (Hturn : forall i c k,
            tasks w !! i = Some (c, k) -> (forall r0, k <> Settled r0) ->
            (forall p, is_Some (fileLocks (shared w) !! p) ->
               waiting (resumes 4 c k (shared w)).1 (resumes 4 c k (shared w)).2 ->
               wanted (resumes 4 c k (shared w)).1 = Some p -> False) ->
            exists r, tasks (run_schedule (replicate 4 i) w)
                      = <[i := (c, Settled r)]> (tasks w)).
  { intros i c k Hi Hk Hfree.
    pose proof (run_schedule_orderly rank (replicate 4 i) w Hw) as [Hinv' _].
    destruct Hw as [Hinv Hall]. destruct (Hall _ _ _ Hi) as [Hl Hord].
    pose proof (inv_ok w Hinv _ _ _ Hi) as Hok.
    rewrite (fire_turn 4 i w c k Hi) in Hinv' |- *. cbn [tasks].
    pose proof (resumes_rest_any 4 c k (shared w) Hok Hl) as Hrest.
    pose proof (transitions_left_le k) as Hle4.
    destruct (resumes 4 c k (shared w)) as [k4 s4] eqn:Hr4. cbn [fst snd] in *.
    destruct Hrest as [Hwaiting|Hle].
    2:{ destruct k4; simpl in Hle; try lia. by eexists. }
    exfalso. destruct Hwaiting as (p & Hp & Hheld).
    apply (Hfree p); [|by exists p|done].
    destruct (inv_owned _ Hinv' p Hheld) as (j & cj & kj & Hj & Hpj). simpl in Hj.
    assert (Hlt : (i < length (tasks w))%nat) by by eapply lookup_lt_Some.
    destruct (decide (j = i)) as [->|Hne].
    - rewrite list_lookup_insert_eq in Hj by done. injection Hj as <- <-.
      assert (Hok4 : pc_ok c k4).
      { apply (inv_ok _ Hinv' i c k4). simpl. by rewrite list_lookup_insert_eq. }
      exfalso. rewrite owns_no_leak in Hpj by by eapply ordered_no_leak.
      destruct k4; simplify_eq/=.
      destruct Hok4 as (source & destination & Hpaths & -> & ->).
      destruct c; simplify_eq/=. apply elem_of_singleton in Hpj.
      rewrite Hpj in Hord. lia.
    - rewrite list_lookup_insert_ne in Hj by done.
      rewrite (inv_held w Hinv _ _ _ _ Hj Hpj). eauto. }
  destruct (decide (fileLocks (shared w) = ∅)) as [Hempty|Hsome].
  - destruct (pending_unsettled _ Hpending) as (i & c & k & Hi & Hk).
    destruct (Hturn i c k Hi Hk) as [r Hr].
    { intros p [b Hp]. rewrite Hempty, lookup_empty in Hp. done. }
    by exists i, c, k, r.
  - destruct (greatest_key rank _ Hsome) as (m & Hm & Hmax).
    destruct Hw as [Hinv Hall].
    destruct (inv_owned w Hinv m Hm) as (i & c & k & Hi & Hheld).
    destruct (Hall _ _ _ Hi) as [Hl Hord].
    rewrite owns_no_leak in Hheld by by eapply ordered_no_leak.
    assert (Hk : forall r0, k <> Settled r0) by (intros r0 ->; set_solver).
    pose proof (inv_ok w Hinv _ _ _ Hi) as Hok.
    assert (Hok4 : pc_ok c (resumes 4 c k (shared w)).1).
    { clear -Hok resolve_idem. generalize 4%nat. intros n. revert k Hok.
      generalize (shared w). induction n as [|n IH]; intros s k Hok; [done|].
      rewrite resumes_S. destruct (resume c k s) as [k1 s1] eqn:Hr. cbn [fst snd].
      apply IH. by destruct (resume_effect _ _ _ _ _ Hok Hr). }
    assert (Hfree : forall p, is_Some (fileLocks (shared w) !! p) ->
              waiting (resumes 4 c k (shared w)).1 (resumes 4 c k (shared w)).2 ->
              wanted (resumes 4 c k (shared w)).1 = Some p -> False).
    { intros p Hp _ Hwant. pose proof (Hmax p Hp) as Hrank.
      destruct (resumes_keeps 4 c k (shared w) Hok) as [Hpast|Hkeep].
      { destruct (resumes 4 c k (shared w)).1; by simplify_eq/=. }
      specialize (Hkeep m Hheld).
      destruct (resumes 4 c k (shared w)).1; simplify_eq/=;
        try (by apply elem_of_empty in Hkeep).
      destruct Hok4 as (source & destination & Hpaths & -> & ->).
      destruct c; simplify_eq/=. apply elem_of_singleton in Hkeep. subst m. lia. }
    destruct (Hturn i c k Hi Hk Hfree) as [r Hr]. by exists i, c, k, r.
Qed.

(** X14. Copies that all go up in one ranking of the keys cannot deadlock,
    whatever else runs: from every state the event loop can reach there is
    a schedule that settles every call and leaves the lock table empty.
    The copies meant are those that take a lock, which are to take both:
    none is refused its destination after it took its source. *)
Theorem ordered_copies_never_deadlock (rank : string -> nat) (d : Disk)
    (calls : list call) (w : world) :
  (forall c, c ∈ calls -> ordered rank c) ->
  rtc step (initial d calls) w ->
  exists schedule,
    (forall i c k, tasks (run_schedule schedule w) !! i = Some (c, k) ->
       exists r, k = Settled r)
    /\ fileLocks (shared (run_schedule schedule w)) = ∅.
Proof.
  intros Hrank Hreach.
  assert (Hw : orderly rank w).
  { eapply (reachable_preserved (orderly rank)); [| |exact Hreach].
    - intros. by apply fire_orderly.
    - split; [apply initial_invariant|].
      intros i c k [c' [? Hc]]%list_lookup_fmap_Some. simplify_eq. split; [done|].
      apply Hrank. by eapply list_elem_of_lookup_2. }
  clear Hreach Hrank.
  remember (pending (tasks w)) as n eqn:Hn. revert w Hw Hn.
  induction n as [|n IH]; intros w Hw Hn.
  - exists []. simpl. pose proof (pending_settled _ (eq_sym Hn)) as Hall.
    split; [done|]. apply resting_table; [apply Hw| |].
    + intros i c k Hi. by eapply ordered_no_leak, (proj2 Hw i c k).
    + intros i c k Hi. by destruct (Hall _ _ _ Hi) as [r ->].
  - destruct (some_call_can_finish rank w Hw) as (i & c & k & r & Hi & Hk & Hturn);
      [by rewrite <- Hn|].
    destruct (IH (run_schedule (replicate 4 i) w)) as (schedule & Hall & Hempty).
    + by apply run_schedule_orderly.
    + rewrite Hturn. pose proof (pending_settle _ _ _ _ r Hi Hk) as Hp. lia.
    + exists (replicate 4 i ++ schedule)%list. by rewrite run_schedule_app.
Qed.

(** ** Calls on keys of their own *)

(** A call whose keys no other call has among its own finds each of them
    free when it asks. *)
Lemma alone_on_its_keys_step (w : world) (i : nat) (c : call) (k : pc) :
  invariant w -> tasks w !! i = Some (c, k) -> NoDup (targets c) ->
  (forall j cj kj, j <> i -> tasks w !! j = Some (cj, kj) ->
     forall p, p ∈ targets c -> p ∉ targets cj) ->
  wanted k = None -> wanted (resume c k (shared w)).1 = None.
Proof.
  intros Hinv Hi Hdup Hothers Hk.
  pose proof (inv_ok w Hinv _ _ _ Hi) as Hok.
  assert (Hcases : (exists r0, k = Settled r0) \/ forall r0, k <> Settled r0)
    by (destruct k; eauto).
  destruct Hcases as [[r0 ->]|Hunsettled]; [by rewrite settled_stays|].
  assert (Hmine : forall p, p ∈ targets c -> p ∉ held k ->
            fileLocks (shared w) !! p = None).
  { intros p Hp Hheld. destruct (fileLocks (shared w) !! p) as [b|] eqn:Hb; [|done].
    exfalso. destruct (inv_owned w Hinv p ltac:(eauto)) as (j & cj & kj & Hj & Hpj).
    destruct (decide (j = i)) as [->|Hne].
    { simplify_eq. by rewrite owns_unsettled in Hpj. }
    eapply Hothers; [done..|].
    exact (owns_targets cj kj p (inv_ok w Hinv j cj kj Hj) Hpj). }
  clear Hunsettled. unfold targets in *.
  destruct c as [[filePath|]?|[filePath|]??|[filePath|]??|filePath|dirPath
                 |[filePath|]|[filePath|]??|[filePath|]|[source|] [destination|]
                 |[filePath|]];
    destruct k; try done; simpl in *;
    try (destruct Hok as (? & ? & ? & ? & ?); discriminate);
    try (destruct Hok as (? & ? & ?); discriminate);
    unfold acquireLock, path_resolve, acquireLock_loop;
    try (rewrite (Hmine (resolve filePath)) by set_solver);
    try (rewrite (Hmine (resolve source)) by set_solver);
    try done;
    repeat case_match; simplify_eq; try done.
  all: destruct Hok as (src & rest & Heq & ->); simplify_eq.
  rewrite Hmine in *; [done| |]; [set_solver|].
  apply NoDup_cons in Hdup as [Hne _]. set_solver.
Qed.

(** X16. A call whose keys are its own, distinct and among the keys of no
    other call, never waits, whatever the other calls do and however they
    are scheduled; four transitions of its own settle it from wherever it
    is. *)
Theorem call_on_its_own_keys_never_waits (d : Disk) (calls : list call) (w : world)
    (i : nat) (c : call) (k : pc) :
  rtc step (initial d calls) w ->
  tasks w !! i = Some (c, k) ->
  NoDup (targets c) ->
  (forall j cj, j <> i -> calls !! j = Some cj ->
     forall p, p ∈ targets c -> p ∉ targets cj) ->
  wanted k = None
  /\ exists r, tasks (run_schedule (replicate 4 i) w) !! i = Some (c, Settled r).
Proof.
  intros Hreach Hi Hdup Hothers.
  set (P := fun w : world =>
    invariant w /\ (tasks w).*1 = calls
    /\ (forall j cj kj, tasks w !! j = Some (cj, kj) -> pc_live cj kj)
    /\ forall k, tasks w !! i = Some (c, k) -> wanted k = None).
  assert (Hall : forall w, rtc step (initial d calls) w -> P w).
  { clear dependent w. clear k. intros w Hreach.
    eapply (reachable_preserved P); [| |exact Hreach].
    - clear dependent w. intros j w (Hinv & Hcalls & Hlive & Hwait).
      split; [by apply fire_invariant|]. split.
      { apply (reachable_preserved (fun w' => (tasks w').*1 = calls) w (fire j w));
          [|done|by apply rtc_once; exists j].
        clear. intros i w Hcalls. unfold fire.
        destruct (tasks w !! i) as [[c k]|] eqn:Hi; [|done].
        destruct (resume c k (shared w)) as [k' s']. simpl.
        rewrite list_fmap_insert. simpl. rewrite list_insert_id; [done|].
        by rewrite list_lookup_fmap, Hi. }
      split.
      { intros j' cj kj Hj'. destruct (decide (j' = j)) as [->|Hne].
        - destruct (tasks w !! j) as [[c0 k0]|] eqn:Hj.
          + destruct (fire_self _ _ _ _ Hj) as [Hj2 _]. rewrite Hj2 in Hj'. simplify_eq.
            eapply resume_live; [by eapply Hlive|]. apply surjective_pairing.
          + unfold fire in Hj'. rewrite Hj in Hj'. by eapply Hlive.
        - rewrite fire_other in Hj' by done. by eapply Hlive. }
      intros k Hk. destruct (decide (i = j)) as [<-|Hne].
      + destruct (tasks w !! i) as [[c0 k0]|] eqn:Hi0.
        * destruct (fire_self _ _ _ _ Hi0) as [Hi2 _]. rewrite Hi2 in Hk.
          injection Hk as -> <-.
          apply (alone_on_its_keys_step w i c k0); [done..| |by apply Hwait].
          intros j cj kj Hne Hj. apply (Hothers j cj Hne).
          rewrite <- Hcalls, list_lookup_fmap, Hj. done.
        * unfold fire in Hk. rewrite Hi0 in Hk. congruence.
      + rewrite fire_other in Hk by done. by apply Hwait.
    - split; [apply initial_invariant|]. split.
      { simpl. rewrite <- list_fmap_compose. by rewrite list_fmap_id. }
      split.
      { intros j cj kj [c' [? _]]%list_lookup_fmap_Some. by simplify_eq. }
      intros k [c' [? _]]%list_lookup_fmap_Some. by simplify_eq. }
  destruct (Hall w Hreach) as (Hinv & Hcalls & Hlive & Hwait).
  split; [by apply Hwait|].
  assert (Hreach4 : rtc step (initial d calls) (run_schedule (replicate 4 i) w)).
  { etrans; [exact Hreach|apply run_schedule_reachable]. }
  destruct (Hall _ Hreach4) as (_ & _ & _ & Hwait4).
  rewrite (fire_turn 4 i w c k Hi) in Hwait4 |- *. cbn [tasks] in *.
  assert (Hlt : (i < length (tasks w))%nat) by by eapply lookup_lt_Some.
  rewrite list_lookup_insert_eq in Hwait4 |- * by done.
  specialize (Hwait4 _ eq_refl).
  pose proof (resumes_rest_any 4 c k (shared w) (inv_ok w Hinv _ _ _ Hi) (Hlive _ _ _ Hi))
    as [(p & Hp & _)|Hle]; [congruence|].
  pose proof (transitions_left_le k).
  destruct (resumes 4 c k (shared w)).1; simpl in Hle; try lia. eauto.
Qed.

(** ** The lock is not handed over in the order of asking *)

Lemma locking_shape (c : call) (p : string) :
  locking c = true -> lock_paths c = [Str p] ->
  exists (A : Type) (io : string -> Disk -> outcome A * Disk) ret prefix,
    resume c = locked p io ret prefix.
Proof using Type.
  intros Hl Hp. destruct c; try done; simpl in Hp; simplify_eq; simpl;
    unfold readFile, writeFile, appendFile, getStats, deleteFile; eauto.
Qed.

(** X15. Three single-path calls on one key. The second asks for the lock
    while the first holds it, before the third is started; the first gives
    the lock back; the third takes it before the timer of the second
    fires, and the second, when its timer fires, waits again. *)
Theorem waiting_call_can_be_overtaken (d : Disk) (c0 c1 c2 : call) (p0 p1 p2 : string) :
  locking c0 = true -> locking c1 = true -> locking c2 = true ->
  lock_paths c0 = [Str p0] -> lock_paths c1 = [Str p1] -> lock_paths c2 = [Str p2] ->
  resolve p1 = resolve p0 -> resolve p2 = resolve p0 ->
  let key := resolve p0 in
  let w1 := run_schedule [0; 1; 0]%nat (initial d [c0; c1; c2]) in
  let w2 := run_schedule [0; 2; 1; 2]%nat w1 in
  tasks w1 = [(c0, AwaitIO key); (c1, AwaitTimer key); (c2, Start)]
  /\ exists r, tasks w2 = [(c0, Settled r); (c1, AwaitTimer key); (c2, AwaitIO key)].
Proof.
  intros Hl0 Hl1 Hl2 Hp0 Hp1 Hp2 Hkey1 Hkey2 key w1 w2. subst key.
  destruct (locking_shape c0 p0 Hl0 Hp0) as (A0 & io0 & ret0 & prefix0 & H0).
  destruct (locking_shape c1 p1 Hl1 Hp1) as (A1 & io1 & ret1 & prefix1 & H1).
  destruct (locking_shape c2 p2 Hl2 Hp2) as (A2 & io2 & ret2 & prefix2 & H2).
  assert (Hw1 : w1 = World (Store (<[resolve p0 := true]> ∅) d)
                       [(c0, AwaitIO (resolve p0)); (c1, AwaitTimer (resolve p0));
                        (c2, Start)]).
  { unfold w1, run_schedule, initial, fire. simpl.
    rewrite H0. simpl. unfold acquireLock, path_resolve, acquireLock_loop. rewrite lookup_empty.
    simpl. rewrite H1. simpl. unfold acquireLock, path_resolve, acquireLock_loop.
    rewrite Hkey1, lookup_insert_eq. simpl. by rewrite H0. }
  split; [by rewrite Hw1|].
  unfold w2. rewrite Hw1. unfold run_schedule, fire. simpl.
  rewrite H0. simpl. destruct (io0 (resolve p0) d) as [r d'] eqn:Hio. simpl.
  rewrite releaseLock_canonical, delete_insert_id by apply lookup_empty.
  rewrite H2. simpl. unfold acquireLock, path_resolve, acquireLock_loop.
  rewrite Hkey2, lookup_empty. simpl.
  rewrite H1. simpl. unfold acquireLock_loop. rewrite lookup_insert_eq. simpl.
  rewrite H2. simpl. by eexists.
Qed.

End FileHandler.

(** ** [posix_resolve] is a canonical form *)

Lemma segments_slash_free s : Forall (fun seg => slash_free seg = true) (segments s).
Proof.
  induction s as [|c s IH]; simpl; [by repeat constructor|].
  destruct (c =? "/")%char eqn:Hc; [by constructor|].
  destruct (segments s) as [|seg rest]; inversion IH; subst;
    constructor; simpl; try rewrite Hc; auto.
Qed.

Lemma segments_one s : slash_free s = true -> segments s = [s].
Proof.
  induction s as [|c s IH]; simpl; [done|].
  intros [Hc Hs]%andb_prop. apply negb_true_iff in Hc. rewrite Hc.
  by rewrite IH.
Qed.

Lemma segments_cut s t :
  slash_free s = true -> segments (s +:+ String "/" t) = s :: segments t.
Proof.
  induction s as [|c s IH]; simpl; [done|].
  intros [Hc Hs]%andb_prop. apply negb_true_iff in Hc. rewrite Hc.
  by rewrite IH.
Qed.

Lemma segments_join seg segs :
  Forall (fun seg => slash_free seg = true) (seg :: segs) ->
  segments (join "/" (seg :: segs)) = seg :: segs.
Proof.
  revert seg. induction segs as [|seg' segs IH]; intros seg Hall.
  - simpl. apply segments_one. by inversion Hall.
  - inversion Hall as [|? ? Hseg Hrest]; subst.
    change (join "/" (seg :: seg' :: segs))
      with (seg +:+ String "/" (join "/" (seg' :: segs))).
    rewrite segments_cut by done. by rewrite IH.
Qed.

Lemma normalize_kept segs stack :
  Forall (fun seg => slash_free seg = true) segs ->
  Forall (fun seg => kept seg = true) stack ->
  Forall (fun seg => kept seg = true) (normalize segs stack).
Proof.
  revert stack. induction segs as [|seg segs IH]; intros stack Hsegs Hstack; simpl.
  - by apply Forall_rev.
  - inversion Hsegs as [|? ? Hseg Hrest]; subst.
    destruct (String.eqb seg "" || String.eqb seg ".") eqn:H1; [by apply IH|].
    destruct (String.eqb seg "..") eqn:H2.
    + apply IH; [done|]. destruct stack; [done|]. by inversion Hstack.
    + apply IH; [done|]. constructor; [|done]. unfold kept. by rewrite Hseg, H1, H2.
Qed.

Lemma normalize_of_kept segs stack :
  Forall (fun seg => kept seg = true) segs ->
  normalize segs stack = (rev stack ++ segs)%list.
Proof.
  revert stack. induction segs as [|seg segs IH]; intros stack Hsegs; simpl.
  - by rewrite app_nil_r.
  - inversion Hsegs as [|? ? Hseg Hrest]; subst. unfold kept in Hseg.
    apply andb_prop in Hseg as [[_ H1]%andb_prop H2].
    apply negb_true_iff in H1, H2. rewrite H1, H2. rewrite IH by done.
    simpl. by rewrite <- app_assoc.
Qed.

(** [posix_resolve] returns a fixed point of itself, under any working
    directory: the canonical form of a canonical form is that form. *)
Lemma posix_resolve_idem cwd cwd' path :
  posix_resolve cwd' (posix_resolve cwd path) = posix_resolve cwd path.
Proof.
  unfold posix_resolve at 2 3.
  set (full := match path with EmptyString => cwd | String _ _ => _ end).
  pose proof (normalize_kept (segments full) [] (segments_slash_free full)
                ltac:(constructor)) as Hkept.
  destruct (normalize (segments full) []) as [|seg segs] eqn:Hn.
  - reflexivity.
  - unfold posix_resolve.
    change (segments (if ("/" =? "/")%char then String "/" ?t else _))
      with ("" :: segments t).
    rewrite segments_join.
    + change (normalize ("" :: ?l) []) with (normalize l []).
      by rewrite normalize_of_kept.
    + eapply Forall_impl; [exact Hkept|]. intros x Hx. unfold kept in Hx.
      by apply andb_prop in Hx as [[? _]%andb_prop _].
Qed.

(** ** The claims at concrete inputs

    The process runs in [/srv/app] on the disk in memory. *)

Lemma app_resolve_idem p : app_resolve (app_resolve p) = app_resolve p.
Proof. apply posix_resolve_idem. Qed.

Lemma acquire_then_release_restores_witness :
  acquireLock app_resolve "logs/../data.json" ∅
    = (Acquired "/srv/app/data.json", <["/srv/app/data.json" := true]> ∅)
  /\ ("/srv/app/data.json" = app_resolve "logs/../data.json"
      /\ (∅ : gmap string bool) !! "/srv/app/data.json" = None
      /\ <["/srv/app/data.json" := true]> ∅
         = <["/srv/app/data.json" := true]> (∅ : gmap string bool)
      /\ releaseLock app_resolve "logs/../data.json"
           (<["/srv/app/data.json" := true]> ∅) = ∅
      /\ releaseLock app_resolve "/srv/app/data.json"
           (<["/srv/app/data.json" := true]> ∅) = ∅).
Proof.
  assert (Hacq : acquireLock app_resolve "logs/../data.json" ∅
                 = (Acquired "/srv/app/data.json", <["/srv/app/data.json" := true]> ∅)).
  { unfold acquireLock, path_resolve, acquireLock_loop.
    change (app_resolve "logs/../data.json") with "/srv/app/data.json".
    by rewrite lookup_empty. }
  split; [exact Hacq|].
  exact (acquire_then_release_restores app_resolve app_resolve_idem _ _ _ _ Hacq).
Defined.

Lemma same_key_io_never_overlaps_witness :
  let c0 := WriteFile "a.txt" (Some "x") "utf8" in
  let c1 := AppendFile "./a.txt" (Some "y") "utf8" in
  let w0 := initial (∅ : gmap string node) [c0; c1] in
  let w := World (Store (<["/srv/app/a.txt" := true]> ∅) (∅ : gmap string node))
             [(c0, AwaitIO "/srv/app/a.txt"); (c1, AwaitTimer "/srv/app/a.txt")] in
  rtc (step app_resolve) w0 w
  /\ in_flight (AwaitTimer "/srv/app/a.txt" : pc (Disk := gmap string node)) = false.
Proof.
  intros c0 c1 w0 w.
  assert (Hreach : rtc (step app_resolve) w0 w).
  { pose proof (run_schedule_reachable app_resolve [0; 1; 0; 1]%nat w0) as Hr.
    unfold w0 in Hr.
    by rewrite (contended_schedule app_resolve ∅ c0 c1 "a.txt" "./a.txt"
                  _ _ _ _ _ _ eq_refl eq_refl eq_refl) in Hr. }
  split; [exact Hreach|].
  refine (proj1 (same_key_io_never_overlaps app_resolve app_resolve_idem ∅ [c0; c1] w Hreach)
            0%nat 1%nat c0 (AwaitIO "/srv/app/a.txt") c1 _ "/srv/app/a.txt"
            _ eq_refl eq_refl _ _ eq_refl).
  - discriminate.
  - apply list_elem_of_here.
  - apply list_elem_of_here.
Defined.

Lemma locking_call_settles_two_ways_witness :
  let c := ReadFile "missing.txt" "utf8" in
  let d : gmap string node := ∅ in
  let w := World (Store (<["/srv/app/missing.txt" := true]> ∅) d)
             [(c, AwaitIO "/srv/app/missing.txt")] in
  let r := Thrown ("Failed to read file missing.txt: " +:+ ENOENT "open" "/srv/app/missing.txt") in
  rtc (step app_resolve) (initial d [c]) w
  /\ locking c = true
  /\ tasks w !! 0%nat = Some (c, AwaitIO "/srv/app/missing.txt")
  /\ tasks (fire app_resolve 0 w) !! 0%nat = Some (c, Settled r)
  /\ fileLocks (shared w) !! "/srv/app/missing.txt" = Some true
  /\ fileLocks (shared (fire app_resolve 0 w)) !! "/srv/app/missing.txt" = None.
Proof.
  intros c d w r.
  destruct (lone_schedule app_resolve app_resolve_idem d c "missing.txt" _ _ _ eq_refl)
    as [Hsched Hfire].
  change (app_resolve "missing.txt") with "/srv/app/missing.txt" in Hsched, Hfire.
  fold w in Hsched, Hfire.
  assert (Hreach : rtc (step app_resolve) (initial d [c]) w).
  { rewrite <- Hsched. apply run_schedule_reachable. }
  assert (Hr : tasks (fire app_resolve 0 w) !! 0%nat = Some (c, Settled r)).
  { rewrite Hfire. simpl. unfold mem_read, d. by rewrite lookup_empty. }
  do 4 (split; [done|]).
  destruct (locking_call_settles_two_ways app_resolve app_resolve_idem d [c] w 0 c _
              Hreach eq_refl eq_refl) as (_ & Hrel & _).
  destruct (Hrel r ltac:(discriminate) Hr) as [(_ & Hgone & _)|(Hf & _)].
  - apply Hgone. apply list_elem_of_here.
  - discriminate Hf.
Defined.

Lemma copyFile_refused_destination_keeps_source_lock_witness :
  let s := Store ∅ (∅ : gmap string node) in
  let left_behind := Store (<["/srv/app/a.txt" := true]> ∅) (∅ : gmap string node) in
  fileLocks s !! app_resolve "a.txt" = None
  /\ run app_resolve 2 (CopyFile "a.txt" undefined) Start s
     = Some (Thrown undefined_refusal, left_behind)
  /\ fileLocks left_behind !! "/srv/app/a.txt" = Some true
  /\ run app_resolve 1000 (ReadFile "./a.txt" "utf8") Start left_behind = None.
Proof.
  intros s left_behind.
  assert (Hfree : fileLocks s !! app_resolve "a.txt" = None) by apply lookup_empty.
  split; [exact Hfree|].
  pose proof (copyFile_refused_destination_keeps_source_lock app_resolve
                "a.txt" "undefined" undefined_refusal s Hfree) as H.
  cbv zeta in H. destruct H as (Hrun & _ & Hkept & _ & Hwait).
  split; [exact Hrun|]. split; [exact Hkept|].
  exact (Hwait (ReadFile "./a.txt" "utf8") "./a.txt" [] 1000%nat eq_refl eq_refl eq_refl).
Defined.

Lemma copyFile_same_key_never_completes_witness :
  let c := CopyFile "a.txt" "./a.txt" in
  let d : gmap string node := ∅ in
  let w := World (Store (<["/srv/app/a.txt" := true]> ∅) d)
             [(c, AwaitTimer2 "/srv/app/a.txt" "/srv/app/a.txt")] in
  rtc (step app_resolve) (initial d [c]) w
  /\ app_resolve "a.txt" = app_resolve "./a.txt"
  /\ tasks w !! 0%nat = Some (c, AwaitTimer2 "/srv/app/a.txt" "/srv/app/a.txt")
  /\ fileLocks (shared w) !! app_resolve "a.txt" = Some true
  /\ tasks (fire app_resolve 0 w) !! 0%nat
     = Some (c, AwaitTimer2 (app_resolve "a.txt") (app_resolve "a.txt"))
  /\ shared (fire app_resolve 0 w) = shared w.
Proof.
  intros c d w.
  pose proof (self_copy_schedule app_resolve d "a.txt" "./a.txt" eq_refl) as Hsched.
  change (app_resolve "a.txt") with "/srv/app/a.txt" in Hsched. fold c w in Hsched.
  assert (Hreach : rtc (step app_resolve) (initial d [c]) w).
  { rewrite <- Hsched. apply run_schedule_reachable. }
  do 3 (split; [done|]).
  apply (proj2 (copyFile_same_key_never_completes app_resolve app_resolve_idem d [c] w 0
                  "a.txt" "./a.txt" _ Hreach eq_refl eq_refl)).
  by right.
Defined.

Lemma readJSON_failures_are_distinct_witness :
  let s := Store ∅ (∅ : gmap string node) in
  let cause := ENOENT "open" "/srv/app/missing.json" in
  fileLocks s !! app_resolve "missing.json" = None
  /\ fs_readFile (app_resolve "missing.json") "utf8" (disk s) = (Thrown cause, disk s)
  /\ exists message,
       run app_resolve 4 (ReadJSON "missing.json") Start s
         = Some (Thrown message, Store (fileLocks s) (disk s))
       /\ message = "Failed to read file missing.json: " +:+ cause
       /\ kind_of message = Some ReadError.
Proof.
  intros s cause.
  assert (Hfree : fileLocks s !! app_resolve "missing.json" = None)
    by apply lookup_empty.
  assert (Hread : fs_readFile (app_resolve "missing.json") "utf8" (disk s)
                  = (Thrown cause, disk s)).
  { simpl. unfold mem_read. by rewrite lookup_empty. }
  do 2 (split; [done|]).
  exact (proj1 (readJSON_failures_are_distinct app_resolve app_resolve_idem
                  "missing.json" s Hfree) _ _ Hread).
Defined.

Lemma writeJSON_failures_share_one_tag_witness :
  let s := Store ∅ (∅ : gmap string node) in
  fileLocks s !! app_resolve "out.json" = None
  /\ JSON_stringify (VArray [VBigInt 1]) 2 = Thrown "Do not know how to serialize a BigInt"
  /\ exists message,
       run app_resolve 4 (WriteJSON "out.json" (VArray [VBigInt 1]) 2) Start s
         = Some (Thrown message, s)
       /\ message = "Failed to write JSON to out.json: Do not know how to serialize a BigInt"
       /\ kind_of message = Some SerializeError.
Proof.
  intros s.
  assert (Hfree : fileLocks s !! app_resolve "out.json" = None) by apply lookup_empty.
  do 2 (split; [done|]).
  exact (proj1 (writeJSON_failures_share_one_tag app_resolve app_resolve_idem
                  "out.json" (VArray [VBigInt 1]) 2 s Hfree) _ eq_refl).
Defined.

(** C5 fails as stated: a value that serializes, written onto a
    directory. The write throws, and [writeJSON]'s failure opens with its
    own phrase, as a serialization failure does, not with [writeFile]'s. *)
Lemma writeJSON_write_failure_is_not_tagged_WriteError :
  let d : gmap string node := {["/srv/app/out" := Directory]} in
  JSON_stringify (VNumber 1) 2 = Returned (Some "1")
  /\ (fs_writeFile "/srv/app/out" "1" "utf8" d).1
     = Thrown "EISDIR: illegal operation on a directory, open '/srv/app/out'"
  /\ exists message,
       run app_resolve 4 (WriteJSON "out" (VNumber 1) 2) Start (Store ∅ d)
         = Some (Thrown message, Store ∅ d)
       /\ kind_of message = Some SerializeError
       /\ kind_of message <> Some WriteError
       /\ kind_of message
          = kind_of "Failed to write JSON to out: Do not know how to serialize a BigInt".
Proof.
  intros d.
  assert (Hwrite : fs_writeFile "/srv/app/out" "1" "utf8" d
                   = (Thrown "EISDIR: illegal operation on a directory, open '/srv/app/out'", d)).
  { simpl. unfold mem_write, d. by rewrite lookup_singleton_eq. }
  split; [reflexivity|]. split; [by rewrite Hwrite|].
  eexists. split.
  - rewrite (run_writeJSON app_resolve app_resolve_idem) by apply lookup_empty.
    change (JSON_stringify (VNumber 1) 2) with (@Returned (option string) (Some "1")).
    cbv zeta. unfold with_data.
    change (app_resolve "out") with "/srv/app/out". cbn [disk fileLocks].
    rewrite Hwrite. reflexivity.
  - by repeat split.
Qed.

Lemma reversed_copies_can_deadlock_witness :
  let d : gmap string node := {["/srv/app/a" := File "1"; "/srv/app/b" := File "2"]} in
  let w0 := initial d [CopyFile "a" "b"; CopyFile "b" "a"] in
  app_resolve "a" <> app_resolve "b"
  /\ exists r0 r1 d',
       run_schedule app_resolve [0; 0; 0; 0; 1; 1; 1; 1]%nat w0
       = World (Store ∅ d') [(CopyFile "a" "b", Settled r0); (CopyFile "b" "a", Settled r1)].
Proof.
  intros d w0.
  assert (Hne : app_resolve "a" <> app_resolve "b") by discriminate.
  split; [done|].
  exact (proj2 (reversed_copies_can_deadlock app_resolve app_resolve_idem d "a" "b" Hne)).
Defined.

(** C2 fails as stated: two reversed copies of existing files, each run up
    to its source lock and then on to its destination. From that state no
    schedule whatever settles either of them. *)
Lemma reversed_copies_deadlock :
  let d : gmap string node := {["/srv/app/a" := File "1"; "/srv/app/b" := File "2"]} in
  let w0 := initial d [CopyFile "a" "b"; CopyFile "b" "a"] in
  exists w,
    rtc (step app_resolve) w0 w
    /\ forall w', rtc (step app_resolve) w w' ->
         forall i c r, tasks w' !! i <> Some (c, Settled r).
Proof.
  intros d w0. exists (run_schedule app_resolve [0; 1; 0; 1]%nat w0).
  split; [apply run_schedule_reachable|].
  intros w' Hreach. unfold w0 in Hreach.
  rewrite crossed_copies_schedule in Hreach by discriminate.
  eapply crossed_copies_stuck in Hreach; [|done|..].
  - rewrite Hreach. intros [|[|i]] c r; simpl; [congruence..|by rewrite lookup_nil].
  - simpl. rewrite lookup_insert_ne, lookup_insert_eq by discriminate. eauto.
  - simpl. rewrite lookup_insert_eq. eauto.
Qed.

(** * [JSON.parse] after [JSON.stringify] *)

(** ** Strings *)

#[local] Arguments String.append !_ _ / : simpl nomatch.
#[local] Arguments digit_char : simpl never.
#[local] Arguments digit_value : simpl never.
#[local] Arguments is_digit : simpl never.
#[local] Arguments Z.mul : simpl never.
#[local] Arguments Z.add : simpl never.
#[local] Arguments Z.div : simpl never.
#[local] Arguments Z.modulo : simpl never.
#[local] Arguments Z.ltb : simpl never.

Lemma append_assoc (a b c : string) : (a +:+ b) +:+ c = a +:+ b +:+ c.
Proof. induction a as [|x a IH]; simpl; [done|]. by rewrite IH. Qed.

Lemma append_nil_r (a : string) : a +:+ "" = a.
Proof. induction a as [|x a IH]; simpl; [done|]. by rewrite IH. Qed.

Lemma length_append (a b : string) :
  String.length (a +:+ b) = (String.length a + String.length b)%nat.
Proof. induction a as [|x a IH]; simpl; [done|]. by rewrite IH. Qed.

(** ** Numbers *)

Lemma digit_char_value d : 0 <= d < 10 -> digit_value (digit_char d) = d.
Proof.
  intros Hd. assert (Hcases : d = 0 \/ d = 1 \/ d = 2 \/ d = 3 \/ d = 4 \/ d = 5
                              \/ d = 6 \/ d = 7 \/ d = 8 \/ d = 9) by lia.
  by destruct Hcases as [->|[->|[->|[->|[->|[->|[->|[->|[->| ->]]]]]]]]].
Qed.

Lemma digit_char_is_digit d : 0 <= d < 10 -> is_digit (digit_char d) = true.
Proof.
  intros Hd. assert (Hcases : d = 0 \/ d = 1 \/ d = 2 \/ d = 3 \/ d = 4 \/ d = 5
                              \/ d = 6 \/ d = 7 \/ d = 8 \/ d = 9) by lia.
  by destruct Hcases as [->|[->|[->|[->|[->|[->|[->|[->|[->| ->]]]]]]]]].
Qed.

Lemma digit_char_zero d : 0 <= d < 10 -> (digit_char d =? "0")%char = true -> d = 0.
Proof.
  intros Hd. assert (Hcases : d = 0 \/ d = 1 \/ d = 2 \/ d = 3 \/ d = 4 \/ d = 5
                              \/ d = 6 \/ d = 7 \/ d = 8 \/ d = 9) by lia.
  by destruct Hcases as [->|[->|[->|[->|[->|[->|[->|[->|[->| ->]]]]]]]]].
Qed.

Lemma numeral_app acc a b : numeral acc (a +:+ b) = numeral (numeral acc a) b.
Proof.
  revert acc. induction a as [|c a IH]; intros acc; cbn [String.append numeral]; [done|].
  apply IH.
Qed.

Lemma all_digits_app a b :
  all_digits a = true -> all_digits b = true -> all_digits (a +:+ b) = true.
Proof.
  induction a as [|c a IH]; cbn [String.append all_digits]; [done|].
  intros [Hc Ha]%andb_prop Hb. rewrite Hc. cbn [andb]. by apply IH.
Qed.

Lemma read_digits_all ds acc count rest :
  all_digits ds = true -> starts_with is_digit rest = false ->
  read_digits acc count (ds +:+ rest)
  = (numeral acc ds, count + Z.of_nat (String.length ds), rest).
Proof.
  revert acc count. induction ds as [|c ds IH]; intros acc count Hds Hrest.
  - cbn [String.append numeral String.length]. rewrite Z.add_0_r.
    destruct rest as [|c rest]; [done|]. cbn [starts_with] in Hrest.
    cbn [read_digits]. by rewrite Hrest.
  - cbn [all_digits] in Hds. apply andb_prop in Hds as [Hc Hds].
    cbn [String.append read_digits numeral String.length]. rewrite Hc.
    rewrite IH by done. f_equal. f_equal. lia.
Qed.

Lemma digits_all fuel n : 0 <= n -> all_digits (digits fuel n) = true.
Proof.
  revert n. induction fuel as [|fuel IH]; intros n Hn; cbn [digits]; [done|].
  destruct (n <? 10) eqn:Hlt.
  - apply Z.ltb_lt in Hlt. cbn [str1 all_digits].
    by rewrite digit_char_is_digit by lia.
  - apply all_digits_app; [apply IH, Z.div_pos; lia|].
    cbn [str1 all_digits].
    assert (0 <= n mod 10 < 10) by (apply Z.mod_pos_bound; lia).
    by rewrite digit_char_is_digit by lia.
Qed.

Lemma numeral_digits fuel n acc :
  0 <= n < 2 ^ Z.of_nat fuel ->
  numeral acc (digits fuel n) = acc * 10 ^ Z.of_nat (String.length (digits fuel n)) + n.
Proof.
  revert n acc. induction fuel as [|fuel IH]; intros n acc Hn.
  - change (2 ^ Z.of_nat 0) with 1 in Hn. cbn [digits numeral String.length].
    change (10 ^ Z.of_nat 0) with 1. lia.
  - cbn [digits]. destruct (n <? 10) eqn:Hlt.
    + apply Z.ltb_lt in Hlt. cbn [str1 numeral String.length].
      rewrite digit_char_value by lia. change (10 ^ Z.of_nat 1) with 10. lia.
    + apply Z.ltb_ge in Hlt. rewrite numeral_app, length_append.
      rewrite IH.
      * cbn [str1 numeral String.length].
        assert (0 <= n mod 10 < 10) by (apply Z.mod_pos_bound; lia).
        rewrite digit_char_value by lia.
        rewrite Nat2Z.inj_add. change (Z.of_nat 1) with 1.
        rewrite Z.pow_add_r by lia. change (10 ^ 1) with 10.
        pose proof (Z.div_mod n 10). lia.
      * rewrite Nat2Z.inj_succ, Z.pow_succ_r in Hn by lia.
        split; [apply Z.div_pos; lia|]. apply Z.div_lt_upper_bound; lia.
Qed.

Lemma digits_head fuel n :
  0 <= n < 2 ^ Z.of_nat fuel -> (0 < fuel)%nat ->
  exists c t,
    digits fuel n = String c t /\ is_digit c = true
    /\ ((c =? "0")%char = true -> n = 0 /\ t = "").
Proof.
  revert n. induction fuel as [|fuel IH]; intros n Hn Hfuel; [lia|].
  cbn [digits]. destruct (n <? 10) eqn:Hlt.
  - apply Z.ltb_lt in Hlt. exists (digit_char n), "".
    split; [done|]. split; [apply digit_char_is_digit; lia|].
    intros Hz. split; [|done]. apply digit_char_zero in Hz; lia.
  - apply Z.ltb_ge in Hlt.
    assert (Hq : 1 <= n / 10) by (apply Z.div_le_lower_bound; lia).
    assert (Hq' : n / 10 < 2 ^ Z.of_nat fuel).
    { rewrite Nat2Z.inj_succ, Z.pow_succ_r in Hn by lia.
      apply Z.div_lt_upper_bound; lia. }
    assert (Hfuel' : (0 < fuel)%nat).
    { destruct fuel; [|lia]. change (2 ^ Z.of_nat 0) with 1 in Hq'. lia. }
    destruct (IH (n / 10) ltac:(lia) Hfuel') as (c & t & -> & Hc & Hzero).
    exists c, (t +:+ str1 (digit_char (n mod 10))). split; [done|]. split; [done|].
    intros Hz. apply Hzero in Hz. lia.
Qed.

Lemma log2_fuel n : 0 <= n -> n < 2 ^ Z.of_nat (S (Z.to_nat (Z.log2 n))).
Proof.
  intros Hn. rewrite Nat2Z.inj_succ, Z2Nat.id by apply Z.log2_nonneg.
  destruct (decide (n = 0)) as [->|Hpos]; [done|].
  apply Z.log2_spec. lia.
Qed.

(** The decimal numeral of [n]: digits that read as [n], the first of
    them no zero unless [n] is. *)
Lemma decimal_spec n :
  0 <= n ->
  all_digits (decimal n) = true
  /\ (forall acc, numeral acc (decimal n)
                  = acc * 10 ^ Z.of_nat (String.length (decimal n)) + n)
  /\ exists c t,
       decimal n = String c t /\ is_digit c = true
       /\ ((c =? "0")%char = true -> n = 0 /\ t = "").
Proof.
  intros Hn. unfold decimal. split; [by apply digits_all|]. split.
  - intros acc. apply numeral_digits. split; [done|by apply log2_fuel].
  - apply digits_head; [|lia]. split; [done|by apply log2_fuel].
Qed.

Lemma zeros_spec j :
  all_digits (zeros j) = true
  /\ String.length (zeros j) = j
  /\ forall acc, numeral acc (zeros j) = acc * 10 ^ Z.of_nat j.
Proof.
  induction j as [|j (IH1 & IH2 & IH3)]; cbn [zeros all_digits String.length numeral].
  - split; [done|]. split; [done|]. intros acc. change (10 ^ Z.of_nat 0) with 1. lia.
  - split; [done|]. split; [by rewrite IH2|]. intros acc. rewrite IH3.
    change (digit_value "0") with 0.
    rewrite Nat2Z.inj_succ, Z.pow_succ_r by lia. lia.
Qed.

Lemma take_drop n s : take n s +:+ drop n s = s.
Proof.
  revert s. induction n as [|n IH]; intros [|c s]; cbn [take drop String.append]; try done.
  by rewrite IH.
Qed.

Lemma all_digits_take n s : all_digits s = true -> all_digits (take n s) = true.
Proof.
  revert s. induction n as [|n IH]; intros [|c s]; cbn [take all_digits]; try done.
  intros [Hc Hs]%andb_prop. rewrite Hc. by apply IH.
Qed.

Lemma all_digits_drop n s : all_digits s = true -> all_digits (drop n s) = true.
Proof.
  revert s. induction n as [|n IH]; intros [|c s]; cbn [drop all_digits]; try done.
  intros [Hc Hs]%andb_prop. by apply IH.
Qed.

Lemma length_drop n s : String.length (drop n s) = (String.length s - n)%nat.
Proof.
  revert s. induction n as [|n IH]; intros [|c s]; cbn [drop String.length]; try done;
    first [lia | apply IH].
Qed.

Lemma number_end_spec rest :
  number_end rest = true ->
  starts_with is_digit rest = false
  /\ starts_with is_fraction_or_exponent rest = false.
Proof. unfold number_end. by intros [? ?]%negb_true_iff%orb_false_elim. Qed.

Lemma parse_fraction_none int rest :
  starts_with is_fraction_or_exponent rest = false ->
  parse_fraction int rest = Some (int, 0, rest).
Proof.
  destruct rest as [|c rest]; [done|]. cbn [starts_with parse_fraction].
  unfold is_fraction_or_exponent. intros [[Hp _]%orb_false_elim _]%orb_false_elim.
  by rewrite Hp.
Qed.

Lemma parse_fraction_exponent int rest :
  parse_fraction int (String "e" rest) = Some (int, 0, String "e" rest).
Proof. done. Qed.

Lemma parse_fraction_digits int c ds rest :
  all_digits (String c ds) = true -> starts_with is_digit rest = false ->
  parse_fraction int (String "." (String c (ds +:+ rest)))
  = Some (numeral int (String c ds), Z.of_nat (String.length (String c ds)), rest).
Proof.
  intros Hds Hrest. cbn [parse_fraction]. change (("." =? ".")%char) with true. cbv iota.
  change (String c (ds +:+ rest)) with (String c ds +:+ rest).
  assert (Hc : starts_with is_digit (String c ds +:+ rest) = true).
  { cbn [String.append starts_with]. cbn [all_digits] in Hds.
    by apply andb_prop in Hds as [-> _]. }
  rewrite Hc. rewrite read_digits_all by done. by rewrite Z.add_0_l.
Qed.

Lemma parse_exponent_none rest :
  starts_with is_fraction_or_exponent rest = false -> parse_exponent rest = Some (0, rest).
Proof.
  destruct rest as [|c rest]; [done|]. cbn [starts_with parse_exponent].
  unfold is_fraction_or_exponent. intros [[_ He]%orb_false_elim HE]%orb_false_elim.
  by rewrite He, HE.
Qed.

Lemma parse_exponent_digits x rest :
  starts_with is_digit rest = false ->
  parse_exponent
    (String "e" (String (if 0 <=? x then "+"%char else "-"%char)
                   (decimal (Z.abs x) +:+ rest)))
  = Some (x, rest).
Proof.
  intros Hrest.
  destruct (decimal_spec (Z.abs x) ltac:(lia)) as (Hall & Hnum & c & t & Hd & Hc & _).
  assert (Hstart : starts_with is_digit (decimal (Z.abs x) +:+ rest) = true).
  { rewrite Hd. cbn [String.append starts_with]. done. }
  cbn [parse_exponent]. change (("e" =? "e")%char) with true. cbn [orb].
  destruct (0 <=? x) eqn:Hx.
  - change (("+" =? "-")%char) with false. change (("+" =? "+")%char) with true.
    cbv iota. rewrite Hstart. rewrite read_digits_all by done. rewrite Hnum.
    apply Z.leb_le in Hx. f_equal. f_equal. lia.
  - change (("-" =? "-")%char) with true.
    cbv iota. rewrite Hstart. rewrite read_digits_all by done. rewrite Hnum.
    apply Z.leb_gt in Hx. f_equal. f_equal. lia.
Qed.

Lemma parse_unsigned_integer c0 tl tail :
  is_digit c0 = true -> (c0 =? "0")%char = false -> all_digits tl = true ->
  starts_with is_digit tail = false ->
  parse_unsigned (String c0 (tl +:+ tail))
  = match parse_fraction (numeral 0 (String c0 tl)) tail with
    | Some (coefficient, places, rest') =>
        match parse_exponent rest' with
        | Some (exponent, rest'') => Some (coefficient, exponent - places, rest'')
        | None => None
        end
    | None => None
    end.
Proof.
  intros Hc Hnz Htl Htail. cbn [parse_unsigned]. rewrite Hc. cbn [negb]. rewrite Hnz.
  rewrite read_digits_all by done. rewrite Htail. cbn [numeral].
  by replace (10 * 0 + digit_value c0) with (digit_value c0) by lia.
Qed.

Lemma parse_unsigned_zero tail :
  starts_with is_digit tail = false ->
  parse_unsigned (String "0" tail)
  = match parse_fraction 0 tail with
    | Some (coefficient, places, rest') =>
        match parse_exponent rest' with
        | Some (exponent, rest'') => Some (coefficient, exponent - places, rest'')
        | None => None
        end
    | None => None
    end.
Proof.
  intros Htail. cbn [parse_unsigned]. change (is_digit "0") with true. cbn [negb].
  change (("0" =? "0")%char) with true. cbv iota. by rewrite Htail.
Qed.

(** The text written for the digits [s] and the exponent [t] is read as
    the decimal [s * 10 ^ t]. *)
Lemma parse_unsigned_notation s t rest :
  0 < s -> number_end rest = true ->
  exists c' t',
    parse_unsigned (notation s t +:+ rest) = Some (c', t', rest)
    /\ ((c' = s /\ t' = t) \/ (0 <= t /\ c' = s * 10 ^ t /\ t' = 0))
    /\ exists c0 tl, notation s t = String c0 tl /\ is_digit c0 = true.
Proof.
  intros Hs Hrest. destruct (number_end_spec _ Hrest) as [Hnd Hnf].
  destruct (decimal_spec s ltac:(lia)) as (Hall & Hnum & c0 & tl & Hd & Hc0 & Hzero).
  assert (Hnz : (c0 =? "0")%char = false).
  { destruct (c0 =? "0")%char eqn:E; [|done]. destruct (Hzero eq_refl); lia. }
  assert (Hs0 : numeral 0 (decimal s) = s) by (rewrite Hnum; lia).
  assert (Htl : all_digits tl = true).
  { rewrite Hd in Hall. cbn [all_digits] in Hall. by apply andb_prop in Hall as [_ ?]. }
  unfold notation. set (k := Z.of_nat (String.length (decimal s))).
  assert (Hk : k = 1 + Z.of_nat (String.length tl)).
  { unfold k. rewrite Hd. cbn [String.length]. lia. }
  destruct ((k <=? t + k) && (t + k <=? 21)) eqn:B1.
  { apply andb_prop in B1 as [Ht%Z.leb_le _].
    destruct (zeros_spec (Z.to_nat (t + k - k))) as (Hz1 & Hz2 & Hz3).
    exists (s * 10 ^ t), 0. split; [|split; [right; split; [lia|done]|]].
    - rewrite Hd. cbn [String.append].
      rewrite parse_unsigned_integer by (done || by apply all_digits_app).
      rewrite parse_fraction_none, parse_exponent_none by done.
      f_equal. f_equal. f_equal.
      change (String c0 (tl +:+ zeros (Z.to_nat (t + k - k))))
        with (String c0 tl +:+ zeros (Z.to_nat (t + k - k))).
      rewrite numeral_app, <- Hd, Hs0, Hz3. f_equal. f_equal. lia.
    - rewrite Hd. cbn [String.append]. eauto. }
  destruct ((0 <? t + k) && (t + k <=? 21)) eqn:B2.
  { apply andb_prop in B2 as [Hn%Z.ltb_lt Hn21%Z.leb_le].
    assert (Hlt : t + k < k).
    { apply andb_false_iff in B1 as [B1|B1]; [apply Z.leb_gt in B1; lia|].
      apply Z.leb_gt in B1. lia. }
    set (n := Z.to_nat (t + k)).
    assert (Hn1 : exists n', n = S n') by (exists (Nat.pred n); lia).
    destruct Hn1 as [n' Hn'].
    assert (Hdrop : exists c1 d1, drop n (decimal s) = String c1 d1).
    { pose proof (length_drop n (decimal s)) as Hlen.
      destruct (drop n (decimal s)) as [|c1 d1]; [|by eauto].
      cbn [String.length] in Hlen. lia. }
    destruct Hdrop as (c1 & d1 & Hdrop).
    assert (Hdigits : all_digits (String c1 d1) = true).
    { rewrite <- Hdrop. by apply all_digits_drop. }
    exists s, t. split; [|split; [by left|]].
    - rewrite Hn', Hd. cbn [take]. rewrite <- Hn'.
      change (String c0 (take n' tl) +:+ String "." (drop n (String c0 tl)))
        with (String c0 (take n' tl +:+ String "." (drop n (String c0 tl)))).
      rewrite <- Hd, Hdrop. cbn [String.append]. rewrite append_assoc.
      cbn [String.append].
      rewrite parse_unsigned_integer by (done || by apply all_digits_take).
      rewrite parse_fraction_digits by done.
      rewrite parse_exponent_none by done.
      f_equal. f_equal. f_equal.
      + rewrite <- numeral_app. rewrite <- Hdrop.
        change (String c0 (take n' tl)) with (take (S n') (String c0 tl)).
        rewrite <- Hn', <- Hd. by rewrite take_drop.
      + rewrite <- Hdrop, length_drop. unfold k in *. lia.
    - rewrite Hn', Hd. cbn [take String.append]. eauto. }
  destruct ((-6 <? t + k) && (t + k <=? 0)) eqn:B3.
  { apply andb_prop in B3 as [_ Hn%Z.leb_le].
    destruct (zeros_spec (Z.to_nat (- (t + k)))) as (Hz1 & Hz2 & Hz3).
    exists s, t. split; [|split; [by left|by eexists _, _]].
    cbn [String.append]. rewrite parse_unsigned_zero by done.
    destruct (zeros (Z.to_nat (- (t + k))) +:+ decimal s) as [|c1 d1] eqn:Hfrac.
    { rewrite Hd in Hfrac. by destruct (zeros (Z.to_nat (- (t + k)))). }
    assert (Hdigits : all_digits (String c1 d1) = true).
    { rewrite <- Hfrac. by apply all_digits_app. }
    cbn [String.append].
    rewrite parse_fraction_digits by done. rewrite parse_exponent_none by done.
    f_equal. f_equal. f_equal.
    - rewrite <- Hfrac, numeral_app, Hz3, Hnum. lia.
    - rewrite <- Hfrac, length_append, Hz2. unfold k in *. lia. }
  rewrite Hd. destruct tl as [|c1 d1].
  - exists s, t. split; [|split; [by left|by eexists _, _]].
    cbn [String.append].
    change (String c0 (String "e" ?x)) with (String c0 ("" +:+ String "e" x)).
    rewrite parse_unsigned_integer by done.
    rewrite parse_fraction_exponent. rewrite parse_exponent_digits by done.
    f_equal. f_equal. f_equal.
    + by rewrite <- Hd.
    + cbn [String.length] in Hk. lia.
  - exists s, t. split; [|split; [by left|by eexists _, _]].
    cbn [String.append].
    change (String c0 (String "." ?x)) with (String c0 ("" +:+ String "." x)).
    rewrite parse_unsigned_integer by done.
    rewrite append_assoc.
    rewrite parse_fraction_digits by done. cbn [String.append].
    rewrite parse_exponent_digits by done.
    f_equal. f_equal. f_equal.
    + rewrite <- numeral_app. cbn [String.append]. by rewrite <- Hd.
    + cbn [String.length] in *. lia.
Qed.

(** ** Rounding *)

Lemma number_eqb_eq x y : number_eqb x y = true -> x = y.
Proof.
  destruct x as [|a|a|a m e], y as [|b|b|b m' e']; cbn [number_eqb]; try done.
  - by intros ->%Bool.eqb_prop.
  - by intros ->%Bool.eqb_prop.
  - intros [[->%Bool.eqb_prop ->%Z.eqb_eq]%andb_prop ->%Z.eqb_eq]%andb_prop. done.
Qed.

Lemma number_eqb_refl x : number_eqb x x = true.
Proof.
  destruct x as [|a|a|a m e]; cbn [number_eqb]; rewrite ?Bool.eqb_reflx, ?Z.eqb_refl; done.
Qed.

Lemma round_half_even_exact q x : 0 < q -> round_half_even (q * x) q = x.
Proof.
  intros Hq. unfold round_half_even.
  rewrite (Z.mul_comm q x), Z.div_mul, Z.mod_mul by lia.
  replace (2 * 0) with 0 by lia.
  destruct (q <? 0) eqn:H1; [apply Z.ltb_lt in H1; lia|].
  destruct (0 =? q) eqn:H2; [apply Z.eqb_eq in H2; lia|]. done.
Qed.

Lemma odd_part_pow2 fuel m j e :
  Z.odd m = true -> 0 <= j -> (Z.to_nat j <= fuel)%nat ->
  odd_part fuel (m * 2 ^ j) e = (m, e + j).
Proof.
  revert j e. induction fuel as [|fuel IH]; intros j e Hm Hj Hfuel.
  - assert (j = 0) as -> by lia. cbn [odd_part]. change (2 ^ 0) with 1.
    by rewrite Z.mul_1_r, Z.add_0_r.
  - cbn [odd_part]. destruct (decide (j = 0)) as [->|Hpos].
    + change (2 ^ 0) with 1. rewrite Z.mul_1_r, <- Z.negb_odd, Hm. cbn [negb].
      by rewrite Z.add_0_r.
    + assert (Hsplit : m * 2 ^ j = m * 2 ^ (j - 1) * 2).
      { replace j with (Z.succ (j - 1)) at 1 by lia. rewrite Z.pow_succ_r by lia. ring. }
      rewrite Hsplit. rewrite Z.even_mul. change (Z.even 2) with true.
      rewrite orb_true_r. rewrite Z.div_mul by lia. rewrite IH by (done || lia).
      f_equal. lia.
Qed.

(** A Number is the Number nearest to itself. *)
Lemma nearest_exact p q m e :
  0 < p -> 0 < q -> is_double (Finite false m e) = true ->
  p * 2 ^ 1074 = q * (m * 2 ^ (e + 1074)) ->
  nearest p q = Finite false m e.
Proof.
  intros Hp Hq Hdouble Hexact. cbn [is_double] in Hdouble.
  apply andb_prop in Hdouble as [Hdouble Hmax%Z.leb_le].
  apply andb_prop in Hdouble as [Hdouble He%Z.leb_le].
  apply andb_prop in Hdouble as [Hdouble Hbits%Z.leb_le].
  apply andb_prop in Hdouble as [Hm%Z.ltb_lt Hodd].
  unfold bits in *. unfold nearest. rewrite Hexact.
  rewrite (Z.mul_comm q (m * 2 ^ (e + 1074))), Z.div_mul by lia.
  assert (Hlog : Z.log2 (m * 2 ^ (e + 1074)) = e + 1074 + Z.log2 m)
    by (apply Z.log2_mul_pow2; lia).
  rewrite Hlog.
  set (shift := Z.max 0 (e + 1074 + Z.log2 m - 52)).
  assert (Hshift : 0 <= shift <= e + 1074) by lia.
  assert (Hsplit : m * 2 ^ (e + 1074) * q
                   = q * 2 ^ shift * (m * 2 ^ (e + 1074 - shift))).
  { replace (e + 1074) with (shift + (e + 1074 - shift)) at 1 by lia.
    rewrite Z.pow_add_r by lia. ring. }
  rewrite Hsplit.
  assert (Hpow : 0 < 2 ^ shift) by (apply Z.pow_pos_nonneg; lia).
  rewrite round_half_even_exact by lia.
  assert (Hpow' : 0 < 2 ^ (e + 1074 - shift)) by (apply Z.pow_pos_nonneg; lia).
  destruct (m * 2 ^ (e + 1074 - shift) =? 0) eqn:Hzero;
    [apply Z.eqb_eq in Hzero; lia|].
  rewrite odd_part_pow2; [|done|lia|].
  - replace (shift - 1074 + (e + 1074 - shift)) with e by lia.
    unfold bits.
    destruct (1024 <? Z.log2 m + 1 + e) eqn:Hover; [apply Z.ltb_lt in Hover; lia|done].
  - rewrite Z.log2_mul_pow2 by lia. pose proof (Z.log2_nonneg m). lia.
Qed.

Lemma of_decimal_exact s t m e :
  0 < s -> is_double (Finite false m e) = true ->
  (if 0 <=? t then s * 10 ^ t * 2 ^ 1074 = m * 2 ^ (e + 1074)
   else s * 2 ^ 1074 = 10 ^ (- t) * (m * 2 ^ (e + 1074))) ->
  of_decimal s t = Finite false m e.
Proof.
  intros Hs Hdouble Hexact. unfold of_decimal.
  destruct (s =? 0) eqn:Hzero; [apply Z.eqb_eq in Hzero; lia|].
  destruct (0 <=? t) eqn:Ht.
  - apply Z.leb_le in Ht. apply nearest_exact; [|lia|done|lia].
    assert (0 < 10 ^ t) by (apply Z.pow_pos_nonneg; lia). lia.
  - apply Z.leb_gt in Ht. apply nearest_exact; [done| |done|done].
    apply Z.pow_pos_nonneg; lia.
Qed.

Lemma strip_zeros_spec fuel s t :
  exists j,
    0 <= j /\ (strip_zeros fuel s t).2 = t + j
    /\ s = (strip_zeros fuel s t).1 * 10 ^ j
    /\ (0 <= s -> 0 <= (strip_zeros fuel s t).1).
Proof.
  revert s t. induction fuel as [|fuel IH]; intros s t; cbn [strip_zeros].
  - exists 0. cbn [fst snd]. change (10 ^ 0) with 1. split; [done|]. split; [lia|].
    split; [lia|done].
  - destruct (s mod 10 =? 0) eqn:Hmod.
    + apply Z.eqb_eq in Hmod. destruct (IH (s / 10) (t + 1)) as (j & Hj & Ht & Hs & Hpos).
      exists (j + 1). split; [lia|]. split; [lia|]. split.
      * rewrite Z.pow_add_r by lia. change (10 ^ 1) with 10.
        pose proof (Z.div_mod s 10 ltac:(lia)). lia.
      * intros Hs0. apply Hpos. apply Z.div_pos; lia.
    + exists 0. cbn [fst snd]. change (10 ^ 0) with 1. split; [done|]. split; [lia|].
      split; [lia|done].
Qed.

(** The decimal that is exactly [p / q], in lowest terms, is accepted. *)
Lemma accept_exact m e p q low t :
  is_double (Finite false m e) = true -> 0 < q -> 0 < low -> t <= 0 ->
  p * 2 ^ 1074 = q * (m * 2 ^ (e + 1074)) ->
  low * q = p * 10 ^ (- t) ->
  exists d, accept (Finite false m e) low t = Some d.
Proof.
  intros Hdouble Hq Hlow Ht Hexact Hvalue. unfold accept.
  destruct (strip_zeros_spec (Z.to_nat (Z.log2 low)) low t) as (j & Hj & Ht' & Hs' & Hpos).
  destruct (strip_zeros (Z.to_nat (Z.log2 low)) low t) as [s' t']. cbn [fst snd] in *.
  assert (H10 : 0 < 10 ^ j) by (apply Z.pow_pos_nonneg; lia).
  assert (Hs'pos : 0 < s') by nia.
  rewrite (of_decimal_exact s' t' m e); [rewrite number_eqb_refl; by eexists|done|done|].
  set (F := m * 2 ^ (e + 1074)) in *.
  destruct (0 <=? t') eqn:Hsign.
  - apply Z.leb_le in Hsign.
    assert (Hsplit : 10 ^ j = 10 ^ t' * 10 ^ (- t)).
    { rewrite <- Z.pow_add_r by lia. f_equal. lia. }
    assert (H10t : 0 < 10 ^ (- t)) by (apply Z.pow_pos_nonneg; lia).
    apply (Z.mul_cancel_r _ _ (10 ^ (- t) * q)); [lia|].
    transitivity (low * q * 2 ^ 1074); [rewrite Hs', Hsplit; lia|].
    rewrite Hvalue. transitivity (p * 2 ^ 1074 * 10 ^ (- t)); [lia|].
    rewrite Hexact. lia.
  - apply Z.leb_gt in Hsign.
    assert (Hsplit : 10 ^ (- t) = 10 ^ j * 10 ^ (- t')).
    { rewrite <- Z.pow_add_r by lia. f_equal. lia. }
    apply (Z.mul_cancel_r _ _ (10 ^ j * q)); [lia|].
    transitivity (low * q * 2 ^ 1074); [rewrite Hs'; lia|].
    rewrite Hvalue, Hsplit. transitivity (p * 2 ^ 1074 * (10 ^ j * 10 ^ (- t'))); [lia|].
    rewrite Hexact. lia.
Qed.

Lemma accept_sound x s0 t0 s t :
  accept x s0 t0 = Some (s, t) -> of_decimal s t = x /\ (0 <= s0 -> 0 <= s).
Proof.
  unfold accept.
  destruct (strip_zeros_spec (Z.to_nat (Z.log2 s0)) s0 t0) as (j & _ & _ & _ & Hpos).
  destruct (strip_zeros (Z.to_nat (Z.log2 s0)) s0 t0) as [s' t']. cbn [fst snd] in *.
  destruct (number_eqb (of_decimal s' t') x) eqn:Heq; [|done].
  intros [= <- <-]. split; [by apply number_eqb_eq|done].
Qed.

Lemma shortest_at_sound x p q n k s t :
  0 < p -> 0 < q ->
  shortest_at x p q n k = Some (s, t) -> of_decimal s t = x /\ 0 <= s.
Proof.
  intros Hp Hq. unfold shortest_at.
  set (num := if n - k <=? 0 then p * 10 ^ (- (n - k)) else p).
  set (den := if n - k <=? 0 then q else q * 10 ^ (n - k)).
  assert (Hlow : 0 <= num / den).
  { apply Z.div_pos.
    - unfold num. destruct (n - k <=? 0); [|lia].
      assert (0 <= 10 ^ (- (n - k))) by (apply Z.pow_nonneg; lia). lia.
    - unfold den. destruct (n - k <=? 0) eqn:Hsign; [done|].
      apply Z.leb_gt in Hsign.
      assert (0 < 10 ^ (n - k)) by (apply Z.pow_pos_nonneg; lia). lia. }
  destruct (accept x (num / den) (n - k)) as [[s1 t1]|] eqn:H1;
    destruct (accept x (num / den + 1) (n - k)) as [[s2 t2]|] eqn:H2;
    try done.
  - apply accept_sound in H1 as [? ?], H2 as [? ?].
    destruct (_ || _); intros [= <- <-]; split; (done || lia).
  - apply accept_sound in H1 as [? ?]. intros [= <- <-]. split; (done || lia).
  - apply accept_sound in H2 as [? ?]. intros [= <- <-]. split; (done || lia).
Qed.

Lemma shortest_from_sound fuel x p q n k s t :
  0 < p -> 0 < q ->
  shortest_from fuel x p q n k = Some (s, t) -> of_decimal s t = x /\ 0 <= s.
Proof.
  intros Hp Hq. revert k. induction fuel as [|fuel IH]; intros k; cbn [shortest_from]; [done|].
  destruct (shortest_at x p q n k) as [[s1 t1]|] eqn:Hat.
  - intros [= -> ->]. exact (shortest_at_sound _ _ _ _ _ _ _ Hp Hq Hat).
  - apply IH.
Qed.

Lemma shortest_from_reaches fuel x p q n k k0 :
  k <= k0 < k + Z.of_nat fuel ->
  is_Some (shortest_at x p q n k0) -> is_Some (shortest_from fuel x p q n k).
Proof.
  revert k. induction fuel as [|fuel IH]; intros k Hk Hat; [lia|].
  cbn [shortest_from]. destruct (shortest_at x p q n k) eqn:Hk0; [by eexists|].
  apply IH; [|done]. destruct (decide (k = k0)) as [->|Hne]; [|lia].
  rewrite Hk0 in Hat. by destruct Hat.
Qed.

(** Number::toString finds its digits: they are read back as the Number
    they are written for. *)
Lemma shortest_spec m e :
  is_double (Finite false m e) = true ->
  exists s t, shortest m e = (s, t) /\ 0 < s /\ of_decimal s t = Finite false m e.
Proof.
  intros Hdouble. pose proof Hdouble as Hd. cbn [is_double] in Hd.
  apply andb_prop in Hd as [Hd _]. apply andb_prop in Hd as [Hd He%Z.leb_le].
  apply andb_prop in Hd as [Hd _]. apply andb_prop in Hd as [Hm%Z.ltb_lt _].
  unfold shortest.
  set (p := if 0 <=? e then m * 2 ^ e else m).
  set (q := if 0 <=? e then 1 else 2 ^ (- e)).
  set (n := magnitude p q).
  set (last := Z.max 1 (n + Z.max 0 (- e))).
  assert (Hp : 0 < p).
  { unfold p. destruct (0 <=? e) eqn:Hsign; [|done]. apply Z.leb_le in Hsign.
    assert (0 < 2 ^ e) by (apply Z.pow_pos_nonneg; lia). lia. }
  assert (Hq : 0 < q).
  { unfold q. destruct (0 <=? e) eqn:Hsign; [done|]. apply Z.pow_pos_nonneg; lia. }
  assert (Hexact : p * 2 ^ 1074 = q * (m * 2 ^ (e + 1074))).
  { unfold p, q. destruct (0 <=? e) eqn:Hsign.
    - apply Z.leb_le in Hsign. rewrite Z.pow_add_r by lia. lia.
    - apply Z.leb_gt in Hsign.
      replace 1074 with (- e + (e + 1074)) at 1 by lia.
      rewrite Z.pow_add_r by lia. lia. }
  assert (Hlast : is_Some (shortest_at (Finite false m e) p q n last)).
  { assert (Ht : n - last <= 0) by lia.
    assert (Hvalue : exists low, 0 < low /\ low * q = p * 10 ^ (- (n - last))).
    { assert (H10 : 0 < 10 ^ (- (n - last))) by (apply Z.pow_pos_nonneg; lia).
      unfold p, q. destruct (0 <=? e) eqn:Hsign.
      - apply Z.leb_le in Hsign. exists (m * 2 ^ e * 10 ^ (- (n - last))).
        assert (0 < 2 ^ e) by (apply Z.pow_pos_nonneg; lia). split; nia.
      - apply Z.leb_gt in Hsign.
        exists (m * 5 ^ (- e) * 10 ^ (- (n - last) - - e)).
        assert (0 < 5 ^ (- e)) by (apply Z.pow_pos_nonneg; lia).
        assert (0 < 10 ^ (- (n - last) - - e)) by (apply Z.pow_pos_nonneg; lia).
        split; [nia|].
        replace (- (n - last)) with (- e + (- (n - last) - - e)) at 2 by lia.
        rewrite Z.pow_add_r by lia. change 10 with (2 * 5) at 2.
        rewrite Z.pow_mul_l. lia. }
    destruct Hvalue as (low & Hlow & Hvalue).
    destruct (accept_exact m e p q low (n - last) Hdouble Hq Hlow Ht Hexact Hvalue)
      as [d Hd].
    unfold shortest_at. apply Z.leb_le in Ht. rewrite Ht.
    rewrite <- Hvalue, Z.div_mul by lia. rewrite Hd.
    destruct (accept (Finite false m e) (low + 1) (n - last)); by eexists. }
  destruct (shortest_from_reaches (Z.to_nat last) (Finite false m e) p q n 1 last
              ltac:(lia) Hlast) as [[s t] Hfound].
  rewrite Hfound. cbn [default]. exists s, t. split; [done|].
  destruct (shortest_from_sound _ _ _ _ _ _ _ _ Hp Hq Hfound) as [Hback Hs].
  split; [|done].
  destruct (decide (s = 0)) as [->|Hne]; [|lia]. discriminate Hback.
Qed.

Lemma of_decimal_scaled s t : 0 < s -> 0 <= t -> of_decimal (s * 10 ^ t) 0 = of_decimal s t.
Proof.
  intros Hs Ht. unfold of_decimal.
  assert (0 < 10 ^ t) by (apply Z.pow_pos_nonneg; lia).
  destruct (s * 10 ^ t =? 0) eqn:H1; [apply Z.eqb_eq in H1; lia|].
  destruct (s =? 0) eqn:H2; [apply Z.eqb_eq in H2; lia|].
  apply Z.leb_le in Ht. rewrite Ht. change (0 <=? 0) with true. cbv iota.
  change (10 ^ 0) with 1. by rewrite Z.mul_1_r.
Qed.

(** What the first character of a number token is not. *)
Lemma number_start c :
  c = "-"%char \/ is_digit c = true ->
  is_ws c = false /\ (c =? "{")%char = false /\ (c =? "[")%char = false
  /\ (c =? dquote)%char = false /\ (c =? "t")%char = false
  /\ (c =? "f")%char = false /\ (c =? "n")%char = false
  /\ (c =? "]")%char = false /\ (is_digit c = true -> (c =? "-")%char = false).
Proof.
  destruct c as [[] [] [] [] [] [] [] []]; intros [H|H];
    try discriminate H; vm_compute in H; try discriminate H; by vm_compute.
Qed.

(** What JSON gives back for a Number: the Number, but for the sign of
    zero. *)
Lemma parse_number_toString x rest :
  is_double x = true -> is_finite x = true -> number_end rest = true ->
  exists c t,
    Number_toString x = String c t /\ (c = "-"%char \/ is_digit c = true)
    /\ parse_number (Number_toString x +:+ rest)
       = Some (match x with Zero _ => Zero false | _ => x end, rest).
Proof.
  intros Hdouble Hfinite Hrest. destruct (number_end_spec _ Hrest) as [Hnd Hnf].
  destruct x as [|negative|negative|negative m e]; try done.
  - exists "0"%char, "". split; [done|]. split; [by right|].
    cbn [Number_toString String.append parse_number].
    change (("0" =? "-")%char) with false. cbv iota.
    rewrite parse_unsigned_zero by done.
    by rewrite parse_fraction_none, parse_exponent_none.
  - assert (Hpositive : is_double (Finite false m e) = true) by exact Hdouble.
    destruct (shortest_spec m e Hpositive) as (s & t & Hshortest & Hs & Hback).
    destruct (parse_unsigned_notation s t rest Hs Hrest)
      as (c' & t' & Hparse & Hvalue & c0 & tl & Hhead & Hc0).
    assert (Hread : of_decimal c' t' = Finite false m e).
    { destruct Hvalue as [[-> ->]|(Ht & -> & ->)]; [done|].
      by rewrite of_decimal_scaled. }
    cbn [Number_toString]. rewrite Hshortest. destruct negative.
    + exists "-"%char, (notation s t). split; [done|]. split; [by left|].
      cbn [String.append parse_number]. change (("-" =? "-")%char) with true. cbv iota.
      by rewrite Hparse, Hread.
    + exists c0, tl. split; [done|]. split; [by right|].
      rewrite Hhead in *. cbn [String.append parse_number] in *.
      destruct (number_start c0 (or_intror Hc0))
        as (_ & _ & _ & _ & _ & _ & _ & _ & Hminus).
      rewrite (Hminus Hc0). by rewrite Hparse, Hread.
Qed.

Lemma parse_value_number fuel x rest :
  is_double x = true -> is_finite x = true -> number_end rest = true ->
  parse_value (S fuel) (Number_toString x +:+ rest) = Some (given_back (VNumber x), rest).
Proof.
  intros Hdouble Hfinite Hrest.
  destruct (parse_number_toString x rest Hdouble Hfinite Hrest)
    as (c & t & Hd & Hc & Hparse).
  rewrite Hd in *. cbn [String.append] in *.
  destruct (number_start c Hc) as (Hws & H1 & H2 & H3 & H4 & H5 & H6 & _).
  cbn [parse_value skip_ws]. rewrite Hws, H1, H2, H3, H4, H5, H6.
  rewrite Hparse. by destruct x.
Qed.

(** ** Strings tokens *)

Lemma parse_chars_escape c r :
  parse_chars (escape_char c +:+ r)
  = match parse_chars r with
    | Some (str, rest) => Some (String c str, rest)
    | None => None
    end.
Proof.
  destruct c as [[] [] [] [] [] [] [] []]; reflexivity.
Qed.

Lemma hex_value_digit d :
  0 <= d < 16 -> hex_value (hex_digit d) = Some (Z.to_nat d).
Proof.
  intros Hd.
  assert (Hn : (Z.to_nat d < 16)%nat) by lia.
  unfold hex_digit. generalize dependent (Z.to_nat d). clear. intros n Hn.
  do 16 (destruct n as [|n]; [reflexivity|]). lia.
Qed.

Lemma code_unit_escape n tail :
  0 <= n < 65536 ->
  exists h1 h2 h3 h4,
    UnicodeEscape n +:+ tail
    = String backslash (String "u" (String h1 (String h2 (String h3 (String h4 tail)))))
    /\ code_unit h1 h2 h3 h4 = Some n.
Proof.
  intros Hn. eexists _, _, _, _. split; [reflexivity|].
  unfold code_unit.
  rewrite !hex_value_digit.
  - f_equal. rewrite !Z2Nat.id.
    + Z.to_euclidean_division_equations; lia.
    + apply Z.mod_pos_bound; lia.
    + apply Z.mod_pos_bound; lia.
    + apply Z.mod_pos_bound; lia.
    + apply Z.div_pos; lia.
  - apply Z.mod_pos_bound; lia.
  - apply Z.mod_pos_bound; lia.
  - apply Z.mod_pos_bound; lia.
  - split; [apply Z.div_pos; lia|]. apply Z.div_lt_upper_bound; lia.
Qed.

Lemma surrogate_spec c b1 b2 n :
  surrogate c b1 b2 = Some n ->
  55296 <= n < 57344 /\ utf8 n = String c (String b1 (str1 b2)).
Proof.
  unfold surrogate.
  set (x := Z.of_nat (nat_of_ascii b1)). set (y := Z.of_nat (nat_of_ascii b2)).
  destruct (_ && _) eqn:Hall; [|done]. intros [= <-].
  rewrite !andb_true_iff in Hall. destruct Hall as [[[[Hc ?] ?] ?] ?].
  apply Nat.eqb_eq in Hc.
  split; [lia|].
  unfold utf8.
  destruct (_ <? 128) eqn:?; [lia|]. destruct (_ <? 2048) eqn:?; [lia|].
  destruct (_ <? 65536) eqn:?; [|lia].
  replace (224 + _ / 4096) with 237 by (Z.to_euclidean_division_equations; lia).
  replace (128 + _ / 64 mod 64) with x by (Z.to_euclidean_division_equations; lia).
  replace (128 + _ mod 64) with y by (Z.to_euclidean_division_equations; lia).
  unfold byte, x, y. rewrite !Nat2Z.id, !ascii_nat_embedding.
  change (Z.to_nat 237) with 237%nat. rewrite <- Hc, ascii_nat_embedding.
  done.
Qed.

Lemma parse_chars_unicode h1 h2 h3 h4 n r2 :
  code_unit h1 h2 h3 h4 = Some n ->
  (is_high_surrogate n = true -> escaped_low r2 = false) ->
  parse_chars (String backslash (String "u" (String h1 (String h2 (String h3 (String h4 r2))))))
  = match parse_chars r2 with
    | Some (str, rest) => Some (utf8 n +:+ str, rest)
    | None => None
    end.
Proof.
  intros Hn Hlow. cbn [parse_chars].
  change ((backslash =? dquote)%char) with false.
  change ((backslash =? backslash)%char) with true.
  change (unescape "u") with (@None ascii).
  change (("u" =? "u")%char) with true. cbv iota.
  rewrite Hn.
  destruct (is_high_surrogate n); [|done].
  specialize (Hlow eq_refl).
  destruct r2 as [|b [|u [|g1 [|g2 [|g3 [|g4 r3]]]]]]; try done.
  cbn in Hlow.
  destruct (b =? backslash)%char; [|done].
  destruct (u =? "u")%char; [|done]. cbn in Hlow |- *.
  destruct (code_unit g1 g2 g3 g4); [|done]. by rewrite Hlow.
Qed.

Lemma escaped_low_escape_char c r : escaped_low (escape_char c +:+ r) = false.
Proof.
  destruct c as [[] [] [] [] [] [] [] []]; reflexivity.
Qed.

Lemma escaped_low_escape_chars s rest :
  starts_low s = false -> escaped_low (escape_chars s +:+ String dquote rest) = false.
Proof.
  intros Hs. destruct s as [|c s]; [done|].
  cbn [escape_chars].
  destruct s as [|b1 [|b2 s]]; try (rewrite append_assoc; apply escaped_low_escape_char).
  cbn [starts_low] in Hs.
  destruct (surrogate c b1 b2) as [n|] eqn:Hn;
    [|rewrite append_assoc; apply escaped_low_escape_char].
  destruct (surrogate_spec _ _ _ _ Hn) as [Hr _].
  destruct (code_unit_escape n (escape_chars s +:+ String dquote rest))
    as (h1 & h2 & h3 & h4 & Heq & Hcode); [lia|].
  rewrite append_assoc, Heq. cbn [escaped_low].
  change ((backslash =? backslash)%char) with true.
  change (("u" =? "u")%char) with true. by rewrite Hcode.
Qed.

Lemma well_formed_tail c s : well_formed (String c s) = true -> well_formed s = true.
Proof. cbn [well_formed]. intros H. by apply andb_true_iff in H as [_ ?]. Qed.

Lemma parse_chars_escape_chars_bounded n s rest :
  (String.length s <= n)%nat -> well_formed s = true ->
  parse_chars (escape_chars s +:+ String dquote rest) = Some (s, rest).
Proof.
  revert s. induction n as [|n IH]; intros s Hlen Hs.
  { destruct s; [done|cbn in Hlen; lia]. }
  destruct s as [|c s]; [done|].
  assert (Hplain : parse_chars ((escape_char c +:+ escape_chars s) +:+ String dquote rest)
                   = Some (String c s, rest)).
  { rewrite append_assoc, parse_chars_escape, IH; [done|cbn in Hlen; lia|].
    by eapply well_formed_tail. }
  cbn [escape_chars].
  destruct s as [|b1 [|b2 s]]; try exact Hplain.
  destruct (surrogate c b1 b2) as [u|] eqn:Hu; [|exact Hplain].
  destruct (surrogate_spec _ _ _ _ Hu) as [Hr Hutf].
  destruct (code_unit_escape u (escape_chars s +:+ String dquote rest))
    as (h1 & h2 & h3 & h4 & Heq & Hcode); [lia|].
  rewrite append_assoc, Heq.
  rewrite (parse_chars_unicode _ _ _ _ _ _ Hcode).
  - rewrite IH; [by rewrite Hutf|cbn in Hlen; lia|].
    by do 3 apply well_formed_tail in Hs.
  - intros Hhigh. apply escaped_low_escape_chars.
    cbn [well_formed] in Hs. rewrite Hu, Hhigh in Hs.
    by destruct (starts_low s).
Qed.

Lemma parse_chars_escape_chars s rest :
  well_formed s = true ->
  parse_chars (escape_chars s +:+ String dquote rest) = Some (s, rest).
Proof. by apply (parse_chars_escape_chars_bounded (String.length s)). Qed.

Lemma parse_value_string fuel s rest :
  well_formed s = true ->
  parse_value (S fuel) (QuoteJSONString s +:+ rest) = Some (VString s, rest).
Proof.
  intros Hs.
  unfold QuoteJSONString. cbn [String.append parse_value skip_ws].
  change (is_ws dquote) with false. cbv iota.
  change ((dquote =? "{")%char) with false. change ((dquote =? "[")%char) with false.
  change ((dquote =? dquote)%char) with true. cbv iota.
  rewrite append_assoc. cbn [str1 String.append].
  by rewrite parse_chars_escape_chars.
Qed.

(** ** Values: induction through arrays and objects *)

Lemma serialize_array gap indent es :
  SerializeJSONProperty gap indent (VArray es)
  = match items gap (indent +:+ gap) es with
    | Thrown m => Thrown m
    | Returned partial =>
        Returned (Some (bracket "[" "]" gap indent (indent +:+ gap) partial))
    end.
Proof. reflexivity. Qed.

Lemma serialize_object gap indent ps :
  SerializeJSONProperty gap indent (VObject ps)
  = match members gap (indent +:+ gap) ps with
    | Thrown m => Thrown m
    | Returned partial =>
        Returned (Some (bracket "{" "}" gap indent (indent +:+ gap) partial))
    end.
Proof. reflexivity. Qed.

(** ** White space *)

Lemma blank_append a b : blank a = true -> blank b = true -> blank (a +:+ b) = true.
Proof.
  induction a as [|c a IH]; simpl; [done|].
  intros [Hc Ha]%andb_prop Hb. rewrite Hc. simpl. by apply IH.
Qed.

Lemma blank_spaces n : blank (spaces n) = true.
Proof. induction n as [|n IH]; simpl; [done|]. exact IH. Qed.

Lemma blank_newline gap indent : blank indent = true -> blank (newline gap indent) = true.
Proof. intros Hi. unfold newline. destruct (is_empty gap); [done|]. simpl. exact Hi. Qed.

Lemma skip_ws_blank w s : blank w = true -> skip_ws (w +:+ s) = skip_ws s.
Proof.
  induction w as [|c w IH]; simpl; [done|].
  intros [Hc Hw]%andb_prop. rewrite Hc. by apply IH.
Qed.

Lemma parse_value_blank fuel w s :
  blank w = true -> parse_value fuel (w +:+ s) = parse_value fuel s.
Proof. intros Hw. destruct fuel; [done|]. cbn [parse_value]. by rewrite skip_ws_blank. Qed.

Lemma parse_members_blank fuel w s :
  blank w = true -> parse_members fuel (w +:+ s) = parse_members fuel s.
Proof. intros Hw. destruct fuel; [done|]. cbn [parse_members]. by rewrite skip_ws_blank. Qed.

Lemma parse_elements_blank fuel w s :
  blank w = true -> parse_elements fuel (w +:+ s) = parse_elements fuel s.
Proof. intros Hw. destruct fuel; [done|]. cbn [parse_elements]. by rewrite parse_value_blank. Qed.

(** ** Brackets *)

Lemma bracket_cons opening closing gap stepback indent p partial :
  bracket opening closing gap stepback indent (p :: partial)
  = opening +:+ newline gap indent
      +:+ join (String "," (newline gap indent)) (p :: partial)
      +:+ newline gap stepback +:+ closing.
Proof. unfold bracket, newline. by destruct (is_empty gap). Qed.

Lemma join_cons2 sep p q partial :
  join sep (p :: q :: partial) = p +:+ sep +:+ join sep (q :: partial).
Proof. reflexivity. Qed.

Lemma length_join sep (partial : list string) :
  (1 <= String.length sep)%nat ->
  (fold_right (fun p n => S (String.length p + n)) O partial
   <= S (String.length (join sep partial)))%nat.
Proof.
  intros Hsep. induction partial as [|p partial IH]; [simpl; lia|].
  destruct partial as [|q partial]; [simpl; lia|].
  rewrite join_cons2, !length_append. cbn [fold_right] in *. lia.
Qed.

(** ** What follows a value in a text *)

Lemma number_end_blank w s :
  blank w = true -> number_end s = true -> number_end (w +:+ s) = true.
Proof.
  destruct w as [|c w]; [done|]. cbn [blank String.append].
  intros [Hc _]%andb_prop _. unfold number_end. cbn [starts_with].
  destruct c as [[] [] [] [] [] [] [] []]; try discriminate Hc; reflexivity.
Qed.

(** ** The round trip, value by value *)

Lemma items_round_trip gap indent es :
  blank gap = true -> blank indent = true ->
  Forall round_trips es -> forallb serializable es = true ->
  exists partial, items gap indent es = Returned partial /\ Forall2 reads_back es partial.
Proof.
  intros Hgap Hindent Hall. induction Hall as [|e es He _ IH]; intros Hser.
  - exists []. by split; [|constructor].
  - cbn [forallb] in Hser. apply andb_prop in Hser as [Hse Hses].
    destruct (He gap indent Hgap Hindent Hse) as (text & Htext & Hback).
    destruct (IH Hses) as (partial & Hpartial & Hbacks).
    exists (text :: partial). cbn [items]. fold (items gap indent).
    rewrite Htext, Hpartial. by split; [|constructor].
Qed.

Lemma members_round_trip gap indent ps :
  blank gap = true -> blank indent = true ->
  Forall (fun kv => round_trips kv.2) ps ->
  forallb (fun kv => well_formed kv.1 && serializable kv.2) ps = true ->
  exists partial,
    members gap indent ps = Returned partial
    /\ Forall2 (member_reads_back gap) ps partial.
Proof.
  intros Hgap Hindent Hall. induction Hall as [|[key e] ps He _ IH]; intros Hser.
  - exists []. by split; [|constructor].
  - cbn [forallb fst snd] in Hser. apply andb_prop in Hser as [Hse Hses].
    apply andb_prop in Hse as [Hkey Hse].
    destruct (He gap indent Hgap Hindent Hse) as (text & Htext & Hback).
    destruct (IH Hses) as (partial & Hpartial & Hbacks).
    exists (member gap key text :: partial). cbn [members]. fold (members gap indent).
    cbn [snd] in Htext. rewrite Htext, Hpartial.
    split; [done|]. constructor; [|done]. by exists text.
Qed.

Lemma parse_elements_join es partial nl nl' rest fuel :
  Forall2 reads_back es partial -> es <> [] ->
  blank nl = true -> blank nl' = true ->
  (fold_right (fun e n => S (weight e + n)) O es <= fuel)%nat ->
  parse_elements fuel
    (nl +:+ join (String "," nl) partial +:+ nl' +:+ String "]" rest)
  = Some (map given_back es, rest).
Proof.
  intros Hall Hne Hnl Hnl'. revert fuel.
  induction Hall as [|e text es partial (_ & _ & Hparse) Hall IH]; intros fuel Hfuel;
    [done|]. clear Hne.
  cbn [fold_right] in Hfuel. destruct fuel as [|fuel]; [lia|].
  rewrite parse_elements_blank by done. cbn [parse_elements].
  destruct Hall as [|e2 text2 es partial He2 Hall].
  - cbn [join]. rewrite Hparse; [|lia|].
    + rewrite skip_ws_blank by done. cbn [skip_ws].
      change (is_ws "]") with false. cbv iota.
      change (("]" =? ",")%char) with false. change (("]" =? "]")%char) with true.
      done.
    + by apply number_end_blank.
  - rewrite join_cons2, !append_assoc. rewrite Hparse; [|cbn [fold_right] in *; lia|done].
    cbn [String.append skip_ws]. change (is_ws ",") with false. cbv iota.
    change (("," =? ",")%char) with true. cbv iota.
    rewrite IH by (done || cbn [fold_right] in *; lia). done.
Qed.

Lemma parse_members_join gap ps partial nl nl' rest fuel :
  Forall2 (member_reads_back gap) ps partial -> ps <> [] ->
  blank nl = true -> blank nl' = true ->
  (fold_right (fun kv n => S (weight kv.2 + n)) O ps <= fuel)%nat ->
  parse_members fuel
    (nl +:+ join (String "," nl) partial +:+ nl' +:+ String "}" rest)
  = Some (map (fun kv => (kv.1, given_back kv.2)) ps, rest).
Proof.
  intros Hall Hne Hnl Hnl'. revert fuel.
  induction Hall as [|[key e] m ps partial (text & -> & Hkey & _ & _ & Hparse) Hall IH];
    intros fuel Hfuel; [done|]. clear Hne.
  cbn [fold_right snd fst] in *. destruct fuel as [|fuel]; [lia|].
  rewrite parse_members_blank by done.
  assert (Hsp : blank (if is_empty gap then "" else " ") = true)
    by by destruct (is_empty gap).
  assert (Hmember : forall tail,
    parse_members (S fuel) (member gap key text +:+ tail)
    = match parse_value fuel (text +:+ tail) with
      | Some (v, r3) =>
          match skip_ws r3 with
          | String c r' =>
              if (c =? ",")%char then
                match parse_members fuel r' with
                | Some (ms, rest) => Some ((key, v) :: ms, rest)
                | None => None
                end
              else if (c =? "}")%char then Some ([(key, v)], r')
              else None
          | EmptyString => None
          end
      | None => None
      end).
  { intros tail. unfold member, QuoteJSONString.
    rewrite !append_assoc. cbn [String.append parse_members skip_ws].
    change (is_ws dquote) with false. cbv iota.
    change ((dquote =? dquote)%char) with true. cbv iota.
    rewrite !append_assoc. cbn [str1 String.append].
    rewrite parse_chars_escape_chars by done. cbn [skip_ws].
    change (is_ws ":") with false. cbv iota.
    change ((":" =? ":")%char) with true. cbv iota.
    by rewrite parse_value_blank. }
  destruct Hall as [|kv2 m2 ps partial Hkv2 Hall].
  - cbn [join]. rewrite Hmember, Hparse; [|lia|by apply number_end_blank].
    rewrite skip_ws_blank by done. cbn [skip_ws].
    change (is_ws "}") with false. cbv iota.
    change (("}" =? ",")%char) with false. change (("}" =? "}")%char) with true.
    done.
  - rewrite join_cons2, !append_assoc. rewrite Hmember, Hparse; [|lia|done].
    cbn [String.append skip_ws]. change (is_ws ",") with false. cbv iota.
    change (("," =? ",")%char) with true. cbv iota.
    rewrite IH by (done || cbn [fold_right] in *; lia). done.
Qed.

(** ** Objects without a repeated key, in the order of their keys *)

Lemma define_property_fresh key v props :
  key ∉ props.*1 -> define_property key v props = (props ++ [(key, v)])%list.
Proof.
  induction props as [|[k old] props IH]; intros Hfresh; [done|].
  cbn [define_property]. rewrite fmap_cons in Hfresh. cbn [fst] in Hfresh.
  apply not_elem_of_cons in Hfresh as [Hne Hfresh].
  assert (Hk : String.eqb k key = false) by (apply String.eqb_neq; congruence).
  rewrite Hk, IH by done. done.
Qed.

Lemma fold_define_property ps props :
  NoDup (props.*1 ++ ps.*1)%list ->
  fold_left (fun props kv => define_property kv.1 kv.2 props) ps props
  = (props ++ ps)%list.
Proof.
  revert props. induction ps as [|[key v] ps IH]; intros props Hnodup.
  - by rewrite app_nil_r.
  - cbn [fold_left fst snd]. rewrite fmap_cons in Hnodup. cbn [fst] in Hnodup.
    rewrite define_property_fresh.
    + rewrite IH; [by rewrite <- app_assoc|].
      rewrite fmap_app, <- app_assoc. exact Hnodup.
    + apply NoDup_app in Hnodup as (_ & Hdisj & _).
      intros Hin. apply (Hdisj key Hin). left.
Qed.

Lemma filter_named ps :
  forallb (fun k => match array_index k with Some _ => false | None => true end) ps.*1 = true ->
  List.filter (fun kv => negb (is_index kv)) ps = ps.
Proof.
  induction ps as [|kv ps IH]; intros Hall; [done|].
  cbn [fmap list_fmap forallb] in Hall. apply andb_prop in Hall as [Hkv Hall].
  cbn [List.filter]. unfold is_index at 1.
  destruct (array_index kv.1); [done|]. cbn [negb]. by rewrite IH.
Qed.

Lemma own_properties_named ps :
  forallb (fun k => match array_index k with Some _ => false | None => true end) ps.*1 = true ->
  own_properties ps = ps.
Proof.
  unfold own_properties. intros Hall. rewrite (filter_named ps Hall).
  generalize ps at 1 3 as base.
  induction ps as [|kv ps IH]; intros base; [done|].
  cbn [fmap list_fmap forallb] in Hall. apply andb_prop in Hall as [Hkv Hall].
  cbn [fold_right]. destruct (array_index kv.1); [done|]. by apply IH.
Qed.

Lemma own_properties_enumerated above ps :
  enumerated above ps.*1 = true -> own_properties ps = ps.
Proof.
  revert above. induction ps as [|kv ps IH]; intros above Hps; [done|].
  cbn [fmap list_fmap enumerated] in Hps.
  destruct (array_index kv.1) as [i|] eqn:Hi.
  - apply andb_prop in Hps as [_ Hps].
    unfold own_properties. cbn [fold_right List.filter]. rewrite Hi.
    unfold is_index at 1. rewrite Hi. cbn [negb].
    fold (own_properties ps). rewrite (IH i Hps).
    destruct ps as [|kv' ps]; [done|].
    cbn [fmap list_fmap enumerated] in Hps. cbn [place].
    destruct (array_index kv'.1) as [j|]; [|done].
    apply andb_prop in Hps as [Hj _]. by rewrite Hj.
  - apply own_properties_named. cbn [fmap list_fmap forallb]. by rewrite Hi.
Qed.

Lemma build_object_nodup ps :
  NoDup ps.*1 -> enumerated (-1) ps.*1 = true -> build_object ps = VObject ps.
Proof.
  intros Hnodup Hps. unfold build_object. rewrite fold_define_property by done.
  cbn [app]. by rewrite (own_properties_enumerated (-1)).
Qed.

Lemma given_back_keys (ps : list (string * value)) :
  (map (fun kv => (kv.1, given_back kv.2)) ps).*1 = ps.*1.
Proof. induction ps as [|[key v] ps IH]; [done|]. cbn. by rewrite <- IH. Qed.

Lemma weight_le_length {A} (R : A -> string -> Prop) (w : A -> nat) xs partial sep :
  (forall x text, R x text -> (w x <= String.length text)%nat) ->
  Forall2 R xs partial -> (1 <= String.length sep)%nat ->
  (fold_right (fun x n => S (w x + n)) O xs <= S (String.length (join sep partial)))%nat.
Proof.
  intros Hw Hall Hsep. etransitivity; [|by apply length_join].
  induction Hall as [|x text xs partial Hx _ IH]; [done|].
  cbn [fold_right]. specialize (Hw _ _ Hx). lia.
Qed.

Lemma member_head gap key text :
  exists t, member gap key text = String dquote t.
Proof. unfold member, QuoteJSONString. cbn [String.append]. eauto. Qed.

Lemma length_member gap key text :
  (String.length text <= String.length (member gap key text))%nat.
Proof.
  unfold member, QuoteJSONString. cbn [String.append String.length].
  rewrite !length_append. cbn [String.length]. rewrite !length_append. lia.
Qed.

(** Every serializable value is written as a text that is read back as
    that value, but for the sign of its zeros. *)
Lemma value_round_trips v : round_trips v.
Proof.
  induction v as [| |b|n|n|s|es IH|ps IH] using value_nested_ind;
    intros gap indent Hgap Hindent Hser; try discriminate Hser.
  - exists "null". split; [done|]. split; [cbn; lia|]. split; [by eexists _, _|].
    intros [|fuel] rest Hfuel _; [cbn in Hfuel; lia|done].
  - destruct b; eexists; (split; [done|]); (split; [cbn; lia|]);
      (split; [by eexists _, _|]);
      intros [|fuel] rest Hfuel _; (cbn in Hfuel; lia) || done.
  - cbn [serializable] in Hser. apply andb_prop in Hser as [Hdouble Hfinite].
    exists (Number_toString n). split; [cbn [SerializeJSONProperty]; by rewrite Hfinite|].
    destruct (parse_number_toString n "" Hdouble Hfinite eq_refl)
      as (c & t & Hhead & Hc & _).
    destruct (number_start c Hc) as (Hws & _ & _ & _ & _ & _ & _ & Hclose & _).
    split; [rewrite Hhead; cbn; lia|]. split; [by exists c, t|].
    intros [|fuel] rest Hfuel Hrest; [cbn in Hfuel; lia|].
    by apply parse_value_number.
  - exists (QuoteJSONString s). split; [done|].
    split; [unfold QuoteJSONString; cbn; lia|]. split; [by eexists _, _|].
    intros [|fuel] rest Hfuel _; [cbn in Hfuel; lia|]. by apply parse_value_string.
  - rewrite serialize_array. cbn [serializable] in Hser.
    destruct (items_round_trip gap (indent +:+ gap) es Hgap (blank_append _ _ Hindent Hgap)
                IH Hser) as (partial & -> & Hall).
    eexists. split; [done|].
    destruct Hall as [|e text es partial He Hall].
    { split; [cbn; lia|]. split; [by eexists _, _|].
      intros [|fuel] rest Hfuel _; [cbn in Hfuel; lia|done]. }
    rewrite bracket_cons. set (nl := newline gap (indent +:+ gap)).
    set (nl' := newline gap indent).
    assert (Hnl : blank nl = true) by by apply blank_newline, blank_append.
    assert (Hnl' : blank nl' = true) by by apply blank_newline.
    assert (Hall' : Forall2 reads_back (e :: es) (text :: partial)) by by constructor.
    split; [|split; [by eexists _, _|]].
    + cbn [weight]. rewrite !length_append. cbn [String.length].
      pose proof (weight_le_length reads_back weight _ _ (String "," nl)
                    ltac:(by intros ? ? [? _]) Hall' ltac:(cbn; lia)). lia.
    + intros [|fuel] rest Hfuel _; [cbn in Hfuel; lia|].
      cbn [weight] in Hfuel. rewrite !append_assoc.
      cbn [String.append parse_value skip_ws].
      change (is_ws "[") with false. cbv iota.
      change (("[" =? "{")%char) with false. change (("[" =? "[")%char) with true.
      cbv iota.
      rewrite (parse_elements_join (e :: es) (text :: partial)) by (done || lia).
      destruct He as (_ & (c & t & Htext & Hws & Hclose) & _).
      rewrite skip_ws_blank by done.
      assert (Hskip : forall tail,
        skip_ws (join (String "," nl) (text :: partial) +:+ tail)
        = String c (match partial with
                    | [] => t
                    | _ => t +:+ String "," nl +:+ join (String "," nl) partial
                    end +:+ tail)).
      { intros tail. rewrite Htext. destruct partial.
        - cbn [join String.append skip_ws]. by rewrite Hws.
        - rewrite join_cons2, !append_assoc. cbn [String.append skip_ws].
          by rewrite Hws, ?append_assoc. }
      rewrite Hskip, Hclose. done.
  - rewrite serialize_object. cbn [serializable] in Hser.
    apply andb_prop in Hser as [Hser Horder]. apply andb_prop in Hser as [Hser Hnodup].
    apply bool_decide_eq_true in Hnodup.
    destruct (members_round_trip gap (indent +:+ gap) ps Hgap
                (blank_append _ _ Hindent Hgap) IH Hser) as (partial & -> & Hall).
    eexists. split; [done|].
    destruct Hall as [|kv m ps partial Hkv Hall].
    { split; [cbn; lia|]. split; [by eexists _, _|].
      intros [|fuel] rest Hfuel _; [cbn in Hfuel; lia|done]. }
    rewrite bracket_cons. set (nl := newline gap (indent +:+ gap)).
    set (nl' := newline gap indent).
    assert (Hnl : blank nl = true) by by apply blank_newline, blank_append.
    assert (Hnl' : blank nl' = true) by by apply blank_newline.
    assert (Hall' : Forall2 (member_reads_back gap) (kv :: ps) (m :: partial))
      by by constructor.
    split; [|split; [by eexists _, _|]].
    + cbn [weight]. rewrite !length_append. cbn [String.length].
      pose proof (weight_le_length (member_reads_back gap) (fun kv => weight kv.2)
                    (kv :: ps) (m :: partial) (String "," nl)) as Hlen.
      specialize (Hlen ltac:(intros ? ? (? & -> & _ & ? & _);
                             etransitivity; [done|apply length_member])
                       Hall' ltac:(cbn; lia)).
      lia.
    + intros [|fuel] rest Hfuel _; [cbn in Hfuel; lia|].
      cbn [weight] in Hfuel. rewrite !append_assoc.
      cbn [String.append parse_value skip_ws].
      change (is_ws "{") with false. cbv iota.
      change (("{" =? "{")%char) with true. cbv iota.
      rewrite (parse_members_join gap (kv :: ps) (m :: partial)) by (done || lia).
      rewrite build_object_nodup by by rewrite given_back_keys.
      destruct Hkv as (text & -> & _ & _).
      destruct (member_head gap kv.1 text) as [t Ht].
      rewrite skip_ws_blank by done.
      assert (Hskip : forall tail,
        skip_ws (join (String "," nl) (member gap kv.1 text :: partial) +:+ tail)
        = String dquote (match partial with
                         | [] => t
                         | _ => t +:+ String "," nl +:+ join (String "," nl) partial
                         end +:+ tail)).
      { intros tail. rewrite Ht. destruct partial.
        - by cbn [join String.append skip_ws].
        - rewrite join_cons2, !append_assoc. cbn [String.append skip_ws].
          by rewrite ?append_assoc. }
      rewrite Hskip. done.
Qed.

(** [JSON.parse] undoes [JSON.stringify] but for the sign of zero, for
    every serializable value and every numeric [space]. *)
Lemma JSON_parse_stringify v space :
  serializable v = true ->
  exists text,
    JSON_stringify v space = Returned (Some text)
    /\ JSON_parse text = Returned (given_back v).
Proof.
  intros Hser. unfold JSON_stringify.
  destruct (value_round_trips v (spaces (Z.to_nat (Z.min 10 space))) ""
              (blank_spaces _) eq_refl Hser) as (text & Htext & Hlen & _ & Hparse).
  exists text. split; [done|]. unfold JSON_parse.
  specialize (Hparse (S (String.length text)) "" ltac:(lia) eq_refl).
  rewrite append_nil_r in Hparse. by rewrite Hparse.
Qed.

(** * A value written, then read *)

(** While the entry of its path is held, a [writeJSON] run on its own
    stays at the timer of [acquireLock]. *)
Lemma writeJSON_blocked (resolve : string -> string) {Disk : Type} `{!NodeFs Disk}
    (filePath : string) (obj : value) (space : Z) (data : option string)
    (s : store) (fuel : nat) :
  JSON_stringify obj space = Returned data ->
  is_Some (fileLocks s !! resolve filePath) ->
  run resolve fuel (WriteJSON filePath obj space) (AwaitTimer (resolve filePath)) s = None.
Proof.
  intros Hdata [x Hheld]. induction fuel as [|fuel IH]; [done|].
  rewrite run_step by done. cbn [resume writeJSON]. rewrite Hdata.
  cbn [writeFile locked]. unfold acquireLock_loop. rewrite Hheld.
  cbn [awaited fst snd]. by destruct s.
Qed.

Lemma writeJSON_returned_free (resolve : string -> string) {Disk : Type} `{!NodeFs Disk}
    (filePath : string) (obj : value) (space : Z) (s s1 : store) (r : retval) :
  run resolve 4 (WriteJSON filePath obj space) Start s = Some (Returned r, s1) ->
  fileLocks s !! resolve filePath = None.
Proof.
  intros Hrun. destruct (fileLocks s !! resolve filePath) as [x|] eqn:Hheld; [|done].
  exfalso. rewrite run_step in Hrun by done. cbn [resume writeJSON] in Hrun.
  destruct (JSON_stringify obj space) as [data|message] eqn:Hdata.
  - cbn [writeFile locked] in Hrun. unfold acquireLock, path_resolve, acquireLock_loop in Hrun.
    rewrite Hheld in Hrun. cbn [awaited fst snd fileLocks disk] in Hrun.
    rewrite (writeJSON_blocked resolve filePath obj space data) in Hrun; [done|done|].
    cbn [fileLocks]. by rewrite Hheld.
  - cbn [fst snd] in Hrun. rewrite run_settled in Hrun. congruence.
Qed.

Lemma deep_equal_given_back v : serializable v = true -> deep_equal v (given_back v) = true.
Proof.
  induction v as [| |b|x|n|s|es IH|ps IH] using value_nested_ind; intros Hser;
    try discriminate Hser.
  - done.
  - by destruct b.
  - cbn [serializable] in Hser. apply andb_prop in Hser as [_ Hfinite].
    destruct x as [|a|a|a m e]; try done. cbn [given_back deep_equal strictly_equal].
    apply number_eqb_refl.
  - cbn [given_back deep_equal]. apply String.eqb_refl.
  - cbn [serializable] in Hser. cbn [given_back deep_equal].
    induction IH as [|e es He _ IHes]; [done|].
    cbn [forallb] in Hser. apply andb_prop in Hser as [Hse Hses].
    cbn [map]. rewrite He by done. by apply IHes.
  - cbn [serializable] in Hser. apply andb_prop in Hser as [Hser _].
    apply andb_prop in Hser as [Hser _].
    cbn [given_back deep_equal].
    induction IH as [|[key e] ps He _ IHps]; [done|].
    cbn [forallb] in Hser. apply andb_prop in Hser as [Hse Hses].
    apply andb_prop in Hse as [_ Hse].
    cbn [map fst snd] in *. rewrite String.eqb_refl, He by done. by apply IHps.
Qed.

Lemma given_back_same v : no_negative_zero v = true -> given_back v = v.
Proof.
  induction v as [| |b|x|n|s|es IH|ps IH] using value_nested_ind; intros Hzero;
    try done.
  - destruct x as [|a|[]|a m e]; done.
  - cbn [no_negative_zero] in Hzero. cbn [given_back]. f_equal.
    induction IH as [|e es He _ IHes]; [done|].
    cbn [forallb] in Hzero. apply andb_prop in Hzero as [Hze Hzes].
    cbn [map]. by rewrite He, IHes.
  - cbn [no_negative_zero] in Hzero. cbn [given_back]. f_equal.
    induction IH as [|[key e] ps He _ IHps]; [done|].
    cbn [forallb] in Hzero. apply andb_prop in Hzero as [Hze Hzes].
    cbn [map fst snd] in *. by rewrite He, IHps.
Qed.


(** The disk in memory reads back what it wrote. *)
Lemma mem_reads_back : ReadsBackWrites (gmap string node).
Proof.
  intros path data options d d'. simpl. unfold mem_write, mem_read.
  destruct (d !! path) as [[content|]|] eqn:Hpath; intros [= <-];
    exists (<[path := File data]> d); by rewrite lookup_insert_eq.
Qed.



(** * A file written, appended to, then read *)

Lemma run_settles_free (resolve : string -> string) {Disk : Type} `{!NodeFs Disk}
    (c : call) (filePath : string) (rest : list arg) (s s1 : store)
    (r : outcome retval) (fuel : nat) :
  waits_for_lock c = true -> lock_paths c = Str filePath :: rest ->
  run resolve fuel c Start s = Some (r, s1) ->
  fileLocks s !! resolve filePath = None.
Proof.
  intros Hw Hp Hrun. destruct (fileLocks s !! resolve filePath) as [x|] eqn:Hheld; [|done].
  rewrite (run_first_key_taken resolve c filePath rest) in Hrun; [done..|].
  by rewrite Hheld.
Qed.

(** X10. On a disk that reads back what was written and appends at the
    end: when [writeFile(P, a)] returns and [appendFile(P', b)] run next
    returns, [readFile(P'')] run next returns [a] followed by [b], for any
    three spellings of one canonical path; and the lock table is as it
    was before the three calls. *)
Theorem write_append_read (resolve : string -> string) {Disk : Type}
    `{!NodeFs Disk} `{!ReadsBackWrites Disk} `{!AppendsAtEnd Disk}
    (P P' P'' a b options : string) (s s1 s2 : store) :
  (forall p, resolve (resolve p) = resolve p) ->
  resolve P' = resolve P -> resolve P'' = resolve P ->
  run resolve 3 (WriteFile P (Some a) options) Start s = Some (Returned (RBool true), s1) ->
  run resolve 3 (AppendFile P' (Some b) options) Start s1
    = Some (Returned (RBool true), s2) ->
  exists s3,
    run resolve 3 (ReadFile P'' options) Start s2
      = Some (Returned (RString (a +:+ b)), s3)
    /\ fileLocks s3 = fileLocks s.
Proof.
  intros Hidem HP' HP'' Hwrite Happend.
  pose proof (run_settles_free resolve (WriteFile P (Some a) options) P [] _ _ _ _
                eq_refl eq_refl Hwrite) as Hfree.
  pose proof (run_settles_free resolve (AppendFile P' (Some b) options) P' [] _ _ _ _
                eq_refl eq_refl Happend) as Hfree1.
  rewrite (run_locked resolve Hidem (WriteFile P (Some a) options) P _ _ _ s
             eq_refl Hfree) in Hwrite.
  rewrite (run_locked resolve Hidem (AppendFile P' (Some b) options) P' _ _ _ s1
             eq_refl Hfree1) in Happend.
  cbn [with_data] in Hwrite, Happend. rewrite HP' in Happend.
  destruct (fs_writeFile (resolve P) a options (disk s)) as [[[]|message] d1] eqn:Hw;
    cbn [rethrow fst snd] in Hwrite; [|congruence].
  injection Hwrite as <-. cbn [disk fileLocks] in Happend.
  destruct (fs_appendFile (resolve P) b options d1) as [[[]|message] d2] eqn:Ha;
    cbn [rethrow fst snd] in Happend; [|congruence].
  injection Happend as <-.
  destruct (reads_back_writes _ _ _ _ _ Hw) as [d1' Hread1].
  destruct (appends_at_end _ _ _ _ _ _ _ Hread1 Ha) as [d3 Hread].
  exists (Store (fileLocks s) d3).
  rewrite (run_locked resolve Hidem (ReadFile P'' options) P'' _ _ _ _ eq_refl)
    by by rewrite HP''.
  cbn [disk fileLocks]. rewrite HP'', Hread. done.
Qed.

(** The disk in memory appends at the end. *)
Lemma mem_appends_at_end : AppendsAtEnd (gmap string node).
Proof.
  intros path old data options d d0 d'. simpl. unfold mem_append, mem_read.
  destruct (d !! path) as [[content|]|] eqn:Hpath; intros [= <- <-] [= <-].
  exists (<[path := File (content +:+ data)]> d). by rewrite lookup_insert_eq.
Qed.

Lemma write_append_read_witness :
  let d1 : gmap string node := <["/srv/app/a.txt" := File "hello"]> ∅ in
  let d2 : gmap string node := <["/srv/app/a.txt" := File "hello world"]> d1 in
  (forall p, app_resolve (app_resolve p) = app_resolve p)
  /\ app_resolve "./a.txt" = app_resolve "a.txt"
  /\ app_resolve "/srv/app/a.txt" = app_resolve "a.txt"
  /\ run app_resolve 3 (WriteFile "a.txt" (Some "hello") "utf8") Start (Store ∅ ∅)
     = Some (Returned (RBool true), Store ∅ d1)
  /\ run app_resolve 3 (AppendFile "./a.txt" (Some " world") "utf8") Start (Store ∅ d1)
     = Some (Returned (RBool true), Store ∅ d2)
  /\ exists s3,
       run app_resolve 3 (ReadFile "/srv/app/a.txt" "utf8") Start (Store ∅ d2)
         = Some (Returned (RString "hello world"), s3)
       /\ fileLocks s3 = ∅.
Proof.
  intros d1 d2.
  assert (Hwrite : run app_resolve 3 (WriteFile "a.txt" (Some "hello") "utf8") Start
                     (Store ∅ (∅ : gmap string node))
                   = Some (Returned (RBool true), Store ∅ d1)).
  { rewrite (run_locked app_resolve app_resolve_idem
               (WriteFile "a.txt" (Some "hello") "utf8") "a.txt" _ _ _ _ eq_refl)
      by apply lookup_empty.
    change (app_resolve "a.txt") with "/srv/app/a.txt".
    cbn [with_data disk fileLocks]. simpl. unfold mem_write. by rewrite lookup_empty. }
  assert (Happend : run app_resolve 3 (AppendFile "./a.txt" (Some " world") "utf8") Start
                      (Store ∅ d1)
                    = Some (Returned (RBool true), Store ∅ d2)).
  { rewrite (run_locked app_resolve app_resolve_idem
               (AppendFile "./a.txt" (Some " world") "utf8") "./a.txt" _ _ _ _ eq_refl)
      by apply lookup_empty.
    change (app_resolve "./a.txt") with "/srv/app/a.txt".
    cbn [with_data disk fileLocks]. simpl. unfold mem_append, d1.
    by rewrite lookup_insert_eq. }
  split; [exact app_resolve_idem|]. do 4 (split; [done|]).
  exact (write_append_read (ReadsBackWrites0 := mem_reads_back)
           (AppendsAtEnd0 := mem_appends_at_end)
           app_resolve "a.txt" "./a.txt" "/srv/app/a.txt" "hello" " world" "utf8"
           _ _ _ app_resolve_idem eq_refl eq_refl Hwrite Happend).
Defined.

(** * The one instance *)

Lemma use_step_one_instance st table made u :
  one_instance st table made ->
  one_instance (use_step st u) (one_table_step (table, made) u).1
    (one_table_step (table, made) u).2.
Proof.
  destruct st as [r handles]. intros (Hlen & Hall & Hheap). simpl in *.
  destruct handles as [|h0 handles].
  - destruct Hheap as [-> ->]. simpl in Hlen. subst made.
    destruct u as [| |n key|n key]; simpl.
    + split; [done|]. split; [|by eexists]. by intros this ->%list_elem_of_singleton.
    + split; [done|]. split; [|by eexists]. by intros this ->%list_elem_of_singleton.
    + done.
    + done.
  - destruct Hheap as [active ->].
    assert (Hsnoc : forall this, this ∈ ((h0 :: handles) ++ [0%nat])%list -> this = 0%nat).
    { intros this [Hin|Hin%list_elem_of_singleton]%elem_of_app; [by apply Hall|done]. }
    assert (Hmade : length ((h0 :: handles) ++ [0%nat])%list = S made).
    { rewrite length_app. simpl in *. lia. }
    destruct u as [| |n key|n key]; simpl.
    + split; [exact Hmade|]. split; [exact Hsnoc|]. by eexists.
    + split; [exact Hmade|]. split; [exact Hsnoc|]. by eexists.
    + destruct ((h0 :: handles) !! n) as [this|] eqn:Hn.
      * rewrite decide_True by (rewrite <- Hlen; by eapply lookup_lt_Some).
        pose proof (Hall this ltac:(by eapply list_elem_of_lookup_2)) as ->.
        split; [done|]. split; [done|]. by eexists.
      * rewrite decide_False by (rewrite <- Hlen; apply lookup_ge_None in Hn; lia).
        split; [done|]. split; [done|]. by eexists.
    + destruct ((h0 :: handles) !! n) as [this|] eqn:Hn.
      * rewrite decide_True by (rewrite <- Hlen; by eapply lookup_lt_Some).
        pose proof (Hall this ltac:(by eapply list_elem_of_lookup_2)) as ->.
        split; [done|]. split; [done|]. by eexists.
      * rewrite decide_False by (rewrite <- Hlen; apply lookup_ge_None in Hn; lia).
        split; [done|]. split; [done|]. by eexists.
Qed.

Lemma program_one_instance program st table made :
  one_instance st table made ->
  one_instance (fold_left use_step program st)
    (fold_left one_table_step program (table, made)).1
    (fold_left one_table_step program (table, made)).2.
Proof.
  revert st table made. induction program as [|u program IH];
    intros st table made Hst; [done|].
  cbn [fold_left]. pose proof (use_step_one_instance st table made u Hst) as Hu.
  destruct (one_table_step (table, made) u) as [table' made']. exact (IH _ _ _ Hu).
Qed.

(** X12. However [new FileHandler()] and [FileHandler.getInstance()] are
    mixed, every handle a program gets is one object, made by the first
    of them; and its [fileLocks] is what one table would be after the
    same sets and deletes, through whichever handle each was made: no
    later construction empties it. *)
Theorem every_handle_is_the_one_instance (program : list use) :
  let st := fold_left use_step program (Realm None [], []) in
  let one := fold_left one_table_step program (∅, 0%nat) in
  length st.2 = one.2
  /\ (forall h h', h ∈ st.2 -> h' ∈ st.2 -> h = h')
  /\ (forall h, h ∈ st.2 ->
        FileHandler_instance st.1 = Some h
        /\ this_fileLocks <$> heap st.1 !! h = Some one.1).
Proof.
  intros st one.
  assert (Hinv : one_instance st one.1 one.2).
  { apply program_one_instance. split; [done|]. split; [|done].
    by intros this Hin%elem_of_nil. }
  destruct Hinv as (Hlen & Hall & Hheap).
  split; [done|]. split.
  - intros h h' Hh Hh'. by rewrite (Hall h), (Hall h').
  - intros h Hh. rewrite (Hall h Hh). destruct st.2 as [|h0 handles].
    + by apply elem_of_nil in Hh.
    + destruct Hheap as [active ->]. done.
Qed.

(** * Lines logged one after another *)

Lemma Log_console {Disk : Type} `{!NodeFs Disk} (path_join : string -> string -> string)
    (text : string) (d : Disk) (console : list string) :
  exists errs, (Log path_join text (d, console)).2 = (console ++ errs)%list.
Proof.
  unfold Log. repeat case_match; simpl;
    first [by eexists [_] | exists []; by rewrite app_nil_r].
Qed.

Lemma Logs_cons {Disk : Type} `{!NodeFs Disk} (path_join : string -> string -> string)
    (text : string) (texts : list string) (st : Disk * list string) :
  Logs path_join (text :: texts) st = Logs path_join texts (Log path_join text st).
Proof. done. Qed.

Lemma Logs_console {Disk : Type} `{!NodeFs Disk} (path_join : string -> string -> string)
    (texts : list string) (d : Disk) (console : list string) :
  exists errs, (Logs path_join texts (d, console)).2 = (console ++ errs)%list.
Proof.
  revert d console. induction texts as [|text texts IH]; intros d console.
  { exists []. by rewrite app_nil_r. }
  rewrite Logs_cons.
  destruct (Log_console path_join text d console) as [errs Herrs].
  destruct (Log path_join text (d, console)) as [d1 console1]. simpl in Herrs. subst.
  destruct (IH d1 (console ++ errs)%list) as [errs' ->].
  exists (errs ++ errs')%list. by rewrite app_assoc.
Qed.

(** X13. [Log] called for each of [texts] in turn, on a disk that appends
    at the end and whose [mkdir] keeps the files: when nothing has been
    reported on the console, the log file reads as before followed by
    each text and a line feed, in the order of the calls. *)
Theorem Logs_append_their_lines {Disk : Type} `{!NodeFs Disk}
    `{!AppendsAtEnd Disk} `{!MkdirKeepsFiles Disk}
    (path_join : string -> string -> string) (texts : list string)
    (d d0 : Disk) (console : list string) (old : string) :
  let logPath := path_join (path_join RootPath logs_dir_rel) "log.log" in
  fs_readFile logPath "utf8" d = (Returned old, d0) ->
  (Logs path_join texts (d, console)).2 = console ->
  exists d',
    fs_readFile logPath "utf8" (Logs path_join texts (d, console)).1
    = (Returned (old +:+ glue ((fun text => text +:+ str1 LF) <$> texts)), d').
Proof.
  intros logPath. revert d d0 old.
  induction texts as [|text texts IH]; intros d d0 old Hold Hquiet.
  { exists d0. simpl. by rewrite append_nil_r. }
  rewrite Logs_cons in *. cbn [fmap list_fmap glue].
  destruct (Log_console path_join text d console) as [errs Herrs].
  destruct (Log path_join text (d, console)) as [d1 console1] eqn:HLog.
  simpl in Herrs. subst console1.
  destruct (Logs_console path_join texts d1 (console ++ errs)%list) as [errs' Herrs'].
  assert (errs = []) as ->.
  { rewrite Herrs', <- app_assoc in Hquiet.
    apply (f_equal length) in Hquiet. rewrite !length_app in Hquiet.
    destruct errs; [done|]. simpl in Hquiet. lia. }
  rewrite app_nil_r in *.
  unfold Log in HLog. fold logPath in HLog.
  destruct (fs_mkdir (path_join RootPath logs_dir_rel) d) as [[[]|err] dm] eqn:Hmkdir.
  2:{ injection HLog as _ Hc. apply (f_equal length) in Hc.
      rewrite length_app in Hc. simpl in Hc. lia. }
  destruct (fs_appendFile logPath (text +:+ str1 LF) "utf8" dm) as [[[]|err] da] eqn:Happ.
  2:{ injection HLog as _ Hc. apply (f_equal length) in Hc.
      rewrite length_app in Hc. simpl in Hc. lia. }
  injection HLog as <-.
  destruct (mkdir_keeps_files _ _ _ _ _ _ _ Hold Hmkdir) as [dm' Hkept].
  destruct (appends_at_end _ _ _ _ _ _ _ Hkept Happ) as [da' Hnew].
  destruct (IH da da' _ Hnew Hquiet) as [d' Hread].
  exists d'. rewrite Hread. by rewrite append_assoc.
Qed.

(** * The properties beyond the claims, at concrete inputs *)

Lemma table_is_what_calls_hold_witness :
  let c := CopyFile "a.txt" undefined in
  let d : gmap string node := ∅ in
  let w := World (Store (<["/srv/app/a.txt" := true]> ∅) d)
             [(c, Settled (Thrown undefined_refusal))] in
  rtc (step app_resolve) (initial d [c]) w
  /\ (forall i c0 k, tasks w !! i = Some (c0, k) -> exists r, k = Settled r)
  /\ (forall p,
        is_Some (fileLocks (shared w) !! p)
        <-> exists c0, c0 ∈ [c] /\ leak app_resolve c0 = Some p).
Proof.
  intros c d w.
  assert (Hreach : rtc (step app_resolve) (initial d [c]) w).
  { pose proof (run_schedule_reachable app_resolve [0; 0]%nat (initial d [c])) as Hr.
    by rewrite (refused_copy_schedule app_resolve d "a.txt" "undefined" undefined_refusal)
      in Hr. }
  assert (Hall : forall i c0 k, tasks w !! i = Some (c0, k) -> exists r, k = Settled r).
  { intros [|i] c0 k Hi; simpl in Hi; [|by rewrite lookup_nil in Hi].
    injection Hi as <- <-. by eexists. }
  split; [exact Hreach|]. split; [exact Hall|].
  exact (proj1 (proj2 (table_is_what_calls_hold app_resolve app_resolve_idem d [c] w
                         Hreach) Hall)).
Defined.

Lemma free_call_settles_and_restores_witness :
  let c := CopyFile "a" "b" in
  let s := Store ∅ (∅ : gmap string node) in
  (forall p, p ∈ targets app_resolve c -> fileLocks s !! p = None)
  /\ NoDup (targets app_resolve c)
  /\ exists r s', run app_resolve 4 c Start s = Some (r, s') /\ fileLocks s' = fileLocks s.
Proof.
  intros c s.
  assert (Hfree : forall p, p ∈ targets app_resolve c -> fileLocks s !! p = None).
  { intros p _. apply lookup_empty. }
  assert (Hdup : NoDup (targets app_resolve c)).
  { change (targets app_resolve c) with ["/srv/app/a"; "/srv/app/b"].
    apply NoDup_cons. split; [|apply NoDup_singleton].
    intros Hin%list_elem_of_singleton. discriminate. }
  split; [exact Hfree|]. split; [exact Hdup|].
  exact (free_call_settles_and_restores app_resolve app_resolve_idem c s Hfree Hdup).
Defined.

Lemma blocked_call_never_settles_witness :
  let c := ReadFile "a.txt" "utf8" in
  let s := Store {["/srv/app/a.txt" := true]} (∅ : gmap string node) in
  waits_for_lock c = true
  /\ ((exists p, p ∈ targets app_resolve c /\ is_Some (fileLocks s !! p))
      \/ ~ NoDup (targets app_resolve c))
  /\ run app_resolve 1000 c Start s = None.
Proof.
  intros c s.
  assert (Hheld : (exists p, p ∈ targets app_resolve c /\ is_Some (fileLocks s !! p))
                  \/ ~ NoDup (targets app_resolve c)).
  { left. exists "/srv/app/a.txt". split; [apply list_elem_of_here|].
    exists true. apply lookup_singleton_eq. }
  split; [reflexivity|]. split; [exact Hheld|].
  exact (blocked_call_never_settles app_resolve c s eq_refl Hheld 1000%nat).
Defined.

Lemma copyFile_holds_source_while_waiting_witness :
  let s := Store {["/srv/app/b" := true]} (∅ : gmap string node) in
  fileLocks s !! app_resolve "a" = None
  /\ is_Some (fileLocks s !! app_resolve "b")
  /\ resumes app_resolve 5 (CopyFile "a" "b") Start s
     = (AwaitTimer2 "/srv/app/a" "/srv/app/b",
        Store (<["/srv/app/a" := true]> (fileLocks s)) (disk s)).
Proof.
  intros s.
  assert (Hfree : fileLocks s !! app_resolve "a" = None).
  { apply lookup_singleton_ne. discriminate. }
  assert (Hheld : is_Some (fileLocks s !! app_resolve "b")).
  { exists true. apply lookup_singleton_eq. }
  split; [exact Hfree|]. split; [exact Hheld|].
  exact (proj1 (copyFile_holds_source_while_waiting app_resolve "a" "b" s Hfree Hheld)
           3%nat).
Defined.

Lemma writeJSON_of_undefined_writes_nothing_witness :
  let s := Store ∅ (∅ : gmap string node) in
  fileLocks s !! app_resolve "out.json" = None
  /\ run app_resolve 4 (WriteJSON "out.json" VUndefined 2) Start s
     = Some (Thrown ("Failed to write JSON to out.json: Failed to write file out.json: "
                       +:+ invalid_data),
             s).
Proof.
  intros s.
  assert (Hfree : fileLocks s !! app_resolve "out.json" = None) by apply lookup_empty.
  split; [exact Hfree|].
  exact (proj2 (proj2 (writeJSON_of_undefined_writes_nothing app_resolve app_resolve_idem
                         "out.json" 2 s Hfree))).
Defined.


Lemma transition_touches_only_its_own_keys_witness :
  let c0 := WriteFile "a.txt" (Some "x") "utf8" in
  let c1 := AppendFile "./a.txt" (Some "y") "utf8" in
  let w := World (Store (<["/srv/app/a.txt" := true]> ∅) (∅ : gmap string node))
             [(c0, AwaitIO "/srv/app/a.txt"); (c1, AwaitTimer "/srv/app/a.txt")] in
  rtc (step app_resolve) (initial (∅ : gmap string node) [c0; c1]) w
  /\ tasks w !! 1%nat = Some (c1, AwaitTimer "/srv/app/a.txt")
  /\ is_Some (fileLocks (shared (fire app_resolve 1 w)) !! "/srv/app/a.txt").
Proof.
  intros c0 c1 w.
  assert (Hreach : rtc (step app_resolve) (initial (∅ : gmap string node) [c0; c1]) w).
  { pose proof (run_schedule_reachable app_resolve [0; 1; 0; 1]%nat
                  (initial (∅ : gmap string node) [c0; c1])) as Hr.
    by rewrite (contended_schedule app_resolve ∅ c0 c1 "a.txt" "./a.txt"
                  _ _ _ _ _ _ eq_refl eq_refl eq_refl) in Hr. }
  split; [exact Hreach|]. split; [reflexivity|].
  refine (proj1 (proj2 (transition_touches_only_its_own_keys app_resolve app_resolve_idem
                          ∅ [c0; c1] w 1%nat c1 _ Hreach eq_refl))
            "/srv/app/a.txt" _ _).
  - exists true. apply lookup_insert_eq.
  - apply not_elem_of_empty.
Defined.

Lemma single_path_calls_never_deadlock_witness :
  let c0 := WriteFile "a.txt" (Some "x") "utf8" in
  let c1 := AppendFile "./a.txt" (Some "y") "utf8" in
  let w := World (Store (<["/srv/app/a.txt" := true]> ∅) (∅ : gmap string node))
             [(c0, AwaitIO "/srv/app/a.txt"); (c1, AwaitTimer "/srv/app/a.txt")] in
  let w' := run_schedule app_resolve (turns [0; 1] ++ turns [0; 1])%nat%list w in
  (forall c, c ∈ [c0; c1] -> single_path c = true)
  /\ rtc (step app_resolve) (initial (∅ : gmap string node) [c0; c1]) w
  /\ (forall i c k, tasks w' !! i = Some (c, k) -> exists r, k = Settled r)
  /\ fileLocks (shared w') = ∅.
Proof.
  intros c0 c1 w w'.
  assert (Hsingle : forall c, c ∈ [c0; c1] -> single_path c = true).
  { intros c [ -> | ->%list_elem_of_singleton ]%elem_of_cons; reflexivity. }
  assert (Hreach : rtc (step app_resolve) (initial (∅ : gmap string node) [c0; c1]) w).
  { pose proof (run_schedule_reachable app_resolve [0; 1; 0; 1]%nat
                  (initial (∅ : gmap string node) [c0; c1])) as Hr.
    by rewrite (contended_schedule app_resolve ∅ c0 c1 "a.txt" "./a.txt"
                  _ _ _ _ _ _ eq_refl eq_refl eq_refl) in Hr. }
  split; [exact Hsingle|]. split; [exact Hreach|].
  exact (single_path_calls_never_deadlock app_resolve app_resolve_idem ∅ [c0; c1] w
           Hsingle Hreach).
Defined.

(** The disk in memory keeps its files when a directory is made. *)
Lemma mem_mkdir_keeps_files : MkdirKeepsFiles (gmap string node).
Proof.
  intros dir path options content d d0 d'. simpl. unfold mem_read.
  destruct (d !! path) as [[text|]|] eqn:Hpath; intros [= <- <-]; try done.
  destruct (d !! dir) as [[text'|]|] eqn:Hdir; intros [= <-];
    exists (<[dir := Directory]> d); (rewrite lookup_insert_ne; [by rewrite Hpath|]);
    intros ->; congruence.
Qed.

(** [Log] on the disk in memory, with the log file in place. *)
Lemma Log_in_memory (path_join : string -> string -> string) (text content : string)
    (d : gmap string node) (console : list string) :
  let logDir := path_join RootPath logs_dir_rel in
  let logPath := path_join logDir "log.log" in
  logDir <> logPath -> d !! logDir = None -> d !! logPath = Some (File content) ->
  Log path_join text (d, console)
  = (<[logPath := File (content +:+ text +:+ str1 LF)]> (<[logDir := Directory]> d),
     console).
Proof.
  intros logDir logPath Hne Hdir Hfile. unfold Log. fold logDir. fold logPath.
  simpl. rewrite Hdir. unfold mem_append. by rewrite lookup_insert_ne, Hfile.
Qed.

Lemma Logs_append_their_lines_witness :
  let logPath := "C:/HOME/Programming/manage_chatgpts_memories/backend/files/logs/log.log" in
  let d : gmap string node := {[logPath := File "boot "]} in
  fs_readFile logPath "utf8" d = (Returned "boot ", d)
  /\ (Logs posix_join ["started"] (d, [])).2 = []
  /\ exists d',
       fs_readFile logPath "utf8" (Logs posix_join ["started"] (d, [])).1
       = (Returned ("boot " +:+ glue ["started" +:+ str1 LF]), d').
Proof.
  intros logPath d.
  assert (Hold : fs_readFile logPath "utf8" d = (Returned "boot ", d)).
  { simpl. unfold mem_read, d. by rewrite lookup_singleton_eq. }
  assert (Hquiet : (Logs posix_join ["started"] (d, [])).2 = []).
  { change (Logs posix_join ["started"] (d, [])) with (Log posix_join "started" (d, [])).
    rewrite (Log_in_memory posix_join "started" "boot "); [done| | |].
    - discriminate.
    - apply lookup_singleton_ne. discriminate.
    - apply lookup_singleton_eq. }
  split; [exact Hold|]. split; [exact Hquiet|].
  exact (Logs_append_their_lines (AppendsAtEnd0 := mem_appends_at_end)
           (MkdirKeepsFiles0 := mem_mkdir_keeps_files)
           posix_join ["started"] d d [] "boot " Hold Hquiet).
Defined.

Lemma ordered_copies_never_deadlock_witness :
  let calls := [CopyFile "a" "bb"; CopyFile "./a" "bb"; ReadFile "bb" "utf8"] in
  let w := run_schedule app_resolve [0; 1; 2; 0]%nat
             (initial (∅ : gmap string node) calls) in
  (forall c, c ∈ calls -> ordered app_resolve String.length c)
  /\ rtc (step app_resolve) (initial (∅ : gmap string node) calls) w
  /\ exists schedule,
       (forall i c k, tasks (run_schedule app_resolve schedule w) !! i = Some (c, k) ->
          exists r, k = Settled r)
       /\ fileLocks (shared (run_schedule app_resolve schedule w)) = ∅.
Proof.
  intros calls w.
  assert (Hrank : forall c, c ∈ calls -> ordered app_resolve String.length c).
  { intros c Hin.
    apply elem_of_cons in Hin as [->|Hin]; [simpl; lia|].
    apply elem_of_cons in Hin as [->|Hin]; [simpl; lia|].
    apply list_elem_of_singleton in Hin. by subst c. }
  assert (Hreach : rtc (step app_resolve) (initial (∅ : gmap string node) calls) w)
    by apply run_schedule_reachable.
  split; [exact Hrank|]. split; [exact Hreach|].
  exact (ordered_copies_never_deadlock app_resolve app_resolve_idem String.length
           ∅ calls w Hrank Hreach).
Defined.

Lemma waiting_call_can_be_overtaken_witness :
  let c0 := WriteFile "a.txt" (Some "x") "utf8" in
  let c1 := AppendFile "./a.txt" (Some "y") "utf8" in
  let c2 := ReadFile "/srv/app/a.txt" "utf8" in
  let w1 := run_schedule app_resolve [0; 1; 0]%nat
              (initial (∅ : gmap string node) [c0; c1; c2]) in
  let w2 := run_schedule app_resolve [0; 2; 1; 2]%nat w1 in
  (locking c0 = true /\ locking c1 = true /\ locking c2 = true)
  /\ (app_resolve "./a.txt" = app_resolve "a.txt"
      /\ app_resolve "/srv/app/a.txt" = app_resolve "a.txt")
  /\ tasks w1 = [(c0, AwaitIO "/srv/app/a.txt"); (c1, AwaitTimer "/srv/app/a.txt");
                 (c2, Start)]
  /\ exists r, tasks w2 = [(c0, Settled r); (c1, AwaitTimer "/srv/app/a.txt");
                           (c2, AwaitIO "/srv/app/a.txt")].
Proof.
  intros c0 c1 c2 w1 w2.
  split; [by repeat split|]. split; [by split|].
  exact (waiting_call_can_be_overtaken app_resolve app_resolve_idem ∅ c0 c1 c2
           "a.txt" "./a.txt" "/srv/app/a.txt"
           eq_refl eq_refl eq_refl eq_refl eq_refl eq_refl eq_refl eq_refl).
Defined.

Lemma call_on_its_own_keys_never_waits_witness :
  let c0 := WriteFile "a.txt" (Some "x") "utf8" in
  let c1 := ReadFile "b.txt" "utf8" in
  let w := run_schedule app_resolve [0; 0]%nat (initial (∅ : gmap string node) [c0; c1]) in
  rtc (step app_resolve) (initial (∅ : gmap string node) [c0; c1]) w
  /\ tasks w !! 1%nat = Some (c1, Start)
  /\ NoDup (targets app_resolve c1)
  /\ (forall j cj, j <> 1%nat -> [c0; c1] !! j = Some cj ->
        forall p, p ∈ targets app_resolve c1 -> p ∉ targets app_resolve cj)
  /\ exists r,
       tasks (run_schedule app_resolve (replicate 4 1%nat) w) !! 1%nat
       = Some (c1, Settled r).
Proof.
  intros c0 c1 w.
  assert (Hreach : rtc (step app_resolve) (initial (∅ : gmap string node) [c0; c1]) w)
    by apply run_schedule_reachable.
  assert (Hi : tasks w !! 1%nat = Some (c1, Start)).
  { unfold w, run_schedule. cbn [fold_left]. by rewrite !fire_other by done. }
  assert (Hdup : NoDup (targets app_resolve c1)) by apply NoDup_singleton.
  assert (Hothers : forall j cj, j <> 1%nat -> [c0; c1] !! j = Some cj ->
            forall p, p ∈ targets app_resolve c1 -> p ∉ targets app_resolve cj).
  { intros [|[|j]] cj Hne Hj p Hp; [|done|simpl in Hj; discriminate].
    injection Hj as <-. apply list_elem_of_singleton in Hp. subst p.
    intros Hin%list_elem_of_singleton. discriminate. }
  split; [exact Hreach|]. split; [exact Hi|]. split; [exact Hdup|].
  split; [exact Hothers|].
  exact (proj2 (call_on_its_own_keys_never_waits app_resolve app_resolve_idem ∅ [c0; c1]
                  w 1%nat c1 Start Hreach Hi Hdup Hothers)).
Defined.
